(** * CDPSmartBot: the hybrid search service

    A shallow embedding of [backend/app/services/search_service.py]
    (class [SearchService]) and of the two schemas it uses
    ([SearchResult], [DocumentChunk]), followed by the properties of
    retrieval, fusion and indexing.

    Modelling conventions.
    - Numbers are rationals [Q], compared with [Qeq] ([==]).  The score of
      a semantic result is computed by NumPy in float32: its two operations
      round to the nearest float32, ties to even ([round32]).  Distances,
      weights, keyword scores and accumulated scores are exact; overflow
      to infinity is not modelled, and the statements about scores bound
      the distance by [FLT_MAX].
    - A Python [dict] is an insertion-ordered association list: assigning
      to an existing key keeps the key's position.
    - [async] methods run in a state-and-exception monad [M].  The state
      holds the service object and the log of requests sent to the
      collaborators (encoder, FAISS index, Elasticsearch), in the order
      the code issues them.  [await c] is monadic bind: the awaited
      coroutine runs to completion before the next statement starts.
    - FAISS ([IndexFlatL2]) and the Elasticsearch client are libraries, not
      code of the repository; they are modelled by their documented
      behaviour, with the text analyzer and the relevance score of
      Elasticsearch left as functions carried by the client record.  An
      index of the cluster exists once it was created or written to, and
      a request that names a missing index is answered with 404.  A
      written document is read by [get] at once and seen by [search]
      after the next refresh. *)

From Stdlib Require Import String Ascii List Bool Arith ZArith QArith Lia Lqa.
From Stdlib Require Import Qpower Qround.
From Stdlib Require Import Permutation Sorted.
From Stdlib Require DecimalString DecimalZ.
From Stdlib Require Import Morphisms Setoid.
Import ListNotations.

Open Scope string_scope.
Open Scope Q_scope.

(** ** Schemas ([app/schemas/search.py]) *)

Record SearchResult : Type := mkSearchResult {
  content : string;
  platform : string;
  score : Q;
  doc_type : string;
  section : option string
}.

Record DocumentChunk : Type := mkDocumentChunk {
  chunk_content : string;
  chunk_platform : string;
  chunk_doc_type : string;
  chunk_section : option string;
  chunk_title : option string;
  chunk_url : option string
}.

(** ** Python built-ins used by the service *)

(** [str.lower()], on ASCII letters. *)
Definition lower_ascii (c : ascii) : ascii :=
  let n := nat_of_ascii c in
  if (65 <=? n)%nat && (n <=? 90)%nat then ascii_of_nat (n + 32) else c.

Fixpoint lower (s : string) : string :=
  match s with
  | EmptyString => EmptyString
  | String c s' => String (lower_ascii c) (lower s')
  end.

(** [str(n)] of an integer: its decimal numeral. *)
Definition str (z : Z) : string := DecimalString.NilZero.string_of_int (Z.to_int z).

(** An insertion-ordered [dict] with string keys. *)
Definition pydict (V : Type) : Type := list (string * V).

Fixpoint dict_get {V : Type} (d : pydict V) (k : string) : option V :=
  match d with
  | [] => None
  | (k', v) :: d' => if String.eqb k' k then Some v else dict_get d' k
  end.

(** [d[k] = v]: overwrite in place, or append a new key. *)
Fixpoint dict_set {V : Type} (d : pydict V) (k : string) (v : V) : pydict V :=
  match d with
  | [] => [(k, v)]
  | (k', v') :: d' =>
      if String.eqb k' k then (k', v) :: d' else (k', v') :: dict_set d' k v
  end.

Definition dict_keys {V : Type} (d : pydict V) : list string := map fst d.
Definition dict_values {V : Type} (d : pydict V) : list V := map snd d.

(** [x < y] on floats. *)
Definition Qltb (x y : Q) : bool := negb (Qle_bool y x).

Section PySorted.
Context {A : Type} (key : A -> Q).

(** Insertion of [x] in front of a sorted run [l] whose elements all came
    after [x] in the input: [x] stops at the first element that is not
    strictly smaller, so it stays ahead of the elements it ties with. *)
Fixpoint insort (x : A) (l : list A) : list A :=
  match l with
  | [] => [x]
  | y :: l' => if Qltb (key y) (key x) then y :: insort x l' else x :: y :: l'
  end.

(** [sorted(l, key=key)]: a stable ascending sort that compares with [<]
    only. *)
Definition stable_sort (l : list A) : list A := fold_right insort [] l.

(** [sorted(l, key=key, reverse=True)]: CPython reverses the list, sorts it
    ascending and stable, and reverses the outcome, which keeps elements
    with equal keys in their original order. *)
Definition sorted_reverse (l : list A) : list A := rev (stable_sort (rev l)).

End PySorted.

(** ** Score fusion: [SearchService._combine_search_results] *)

(** A value of [combined_scores]: [{'result': ..., 'score': ...}]. *)
Record item : Type := mkItem {
  item_result : SearchResult;
  item_score : Q
}.

(** Body of the first loop. *)
Definition semantic_step (semantic_weight : Q) (combined : pydict item)
    (r : SearchResult) : pydict item :=
  dict_set combined (content r)
    {| item_result := r; item_score := score r * semantic_weight |}.

(** Body of the second loop. *)
Definition keyword_step (keyword_weight : Q) (combined : pydict item)
    (r : SearchResult) : pydict item :=
  match dict_get combined (content r) with
  | Some it =>
      dict_set combined (content r)
        {| item_result := item_result it;
           item_score := item_score it + score r * keyword_weight |}
  | None =>
      dict_set combined (content r)
        {| item_result := r; item_score := score r * keyword_weight |}
  end.

(** The dictionary [combined_scores] after both loops. *)
Definition combined_scores (semantic_results keyword_results : list SearchResult)
    (semantic_weight : Q) : pydict item :=
  let combined := fold_left (semantic_step semantic_weight) semantic_results [] in
  let keyword_weight := 1 - semantic_weight in
  fold_left (keyword_step keyword_weight) keyword_results combined.

(** The list [sorted_results]. *)
Definition sorted_results (semantic_results keyword_results : list SearchResult)
    (semantic_weight : Q) : list item :=
  sorted_reverse item_score
    (dict_values (combined_scores semantic_results keyword_results semantic_weight)).

Definition _combine_search_results
    (semantic_results keyword_results : list SearchResult)
    (semantic_weight : Q) : list SearchResult :=
  map item_result (sorted_results semantic_results keyword_results semantic_weight).

(** ** Collaborators *)

Definition vector : Type := list Q.

Inductive exn : Type :=
| AssertionError      (* FAISS: [assert d == self.d], [assert k > 0] *)
| NotFoundError       (* Elasticsearch: 404, no such document or index *)
| BadRequestError     (* Elasticsearch: 400, the request is refused *)
| ConnectionError     (* Elasticsearch: the cluster cannot be reached *)
| EncoderError (msg : string).  (* any exception of the embedding model *)

Inductive outcome (A : Type) : Type :=
| Returns (a : A)
| Raises (e : exn).
Arguments Returns {A} a.
Arguments Raises {A} e.

(** *** FAISS: [faiss.IndexFlatL2] *)

Record IndexFlatL2 : Type := mkIndexFlatL2 {
  d : nat;               (* dimension *)
  xb : list vector       (* stored vectors; the position is the label *)
}.

Definition ntotal (ix : IndexFlatL2) : nat := length (xb ix).

(** The largest finite float32, the distance FAISS reports beside the label
    [-1] when fewer than [k] vectors are stored. *)
Definition FLT_MAX : Q := 340282346638528859811704183484516925440.

(** Squared Euclidean distance. *)
Definition l2sq (x y : vector) : Q :=
  fold_right Qplus 0 (map (fun p => (fst p - snd p) * (fst p - snd p)) (combine x y)).

(** The [k] nearest stored vectors as [zip(I[0], D[0])]: labels with their
    distances, nearest first, padded to length [k] with the label [-1]. *)
Definition knn (ix : IndexFlatL2) (x : vector) (k : nat) : list (Z * Q) :=
  let labelled :=
    map (fun p => (Z.of_nat (fst p), l2sq x (snd p)))
        (combine (seq 0 (ntotal ix)) (xb ix)) in
  let best := firstn k (stable_sort snd labelled) in
  best ++ repeat ((-1)%Z, FLT_MAX) (k - length best).

(** *** NumPy: float32 arithmetic

    A float32 is a rational [m * 2^q] with [|m| < 2^24] and [q >= -149].
    An operation returns the float32 nearest to the exact result, the one
    with the even [m] when two are equally near. *)

(** Round to the nearest integer, ties to even. *)
Definition rne (x : Q) : Z :=
  let f := Qfloor x in
  match Qcompare (x - inject_Z f) (1 # 2) with
  | Lt => f
  | Gt => (f + 1)%Z
  | Eq => if Z.even f then f else (f + 1)%Z
  end.

(** The [e] with [2^e <= x < 2^(e+1)], for [0 < x]. *)
Definition ilog2 (x : Q) : Z :=
  let k := (Z.log2 (Qnum x) - Z.log2 (Zpos (Qden x)))%Z in
  if Qle_bool (2 ^ k) x then k else (k - 1)%Z.

(** The exponent of the last place of the float32 values around [x]:
    24 significant bits, and [2^-149] as the smallest step. *)
Definition ulp_exponent (x : Q) : Z := Z.max (ilog2 x - 23) (-149).

(** The multiple of [2^q] nearest to [x]. *)
Definition round_on (q : Z) (x : Q) : Q :=
  Qred (inject_Z (rne (x / 2 ^ q)) * 2 ^ q).

Definition round_pos (x : Q) : Q := round_on (ulp_exponent x) x.

Definition round32 (x : Q) : Q :=
  match Qcompare x 0 with
  | Eq => 0
  | Gt => round_pos x
  | Lt => - round_pos (- x)
  end.

(** *** Elasticsearch: [AsyncElasticsearch] *)

(** The [_source] of a stored document.  [None] in [src_doc_type] and
    [src_section] is an absent key (what [.get(key, default)] tests). *)
Record Source : Type := mkSource {
  src_content : string;
  src_platform : string;
  src_doc_type : option string;
  src_section : option (option string);
  src_title : option string;
  src_url : option string
}.

(** The query built by [_keyword_search]: two [must] clauses and two boosted
    [should] clauses. *)
Record BoolQuery : Type := mkBoolQuery {
  must_match_content : string;          (* match, operator "and" *)
  must_term_platform : string;          (* term on platform.keyword *)
  should_phrase_title : string * Q;     (* match_phrase, boost *)
  should_phrase_section : string * Q    (* match_phrase, boost *)
}.

Record Elasticsearch : Type := mkElasticsearch {
  (* (index, id) -> _source, oldest first *)
  es_docs : list ((string * string) * Source);
  (* the documents written since the last refresh: [get] reads them,
     [search] does not see them yet *)
  es_pending : list (string * string);
  (* the indices that were created without a document *)
  es_indices : list string;
  es_alive : bool;
  (* the analyzer: every term of the query text occurs in the content *)
  es_match : string -> string -> bool;
  (* the relevance [_score] of a matching document *)
  es_score : BoolQuery -> Source -> Q
}.

Definition same_key (k k' : string * string) : bool :=
  String.eqb (fst k) (fst k') && String.eqb (snd k) (snd k').

Fixpoint es_lookup (docs : list ((string * string) * Source)) (k : string * string)
  : option Source :=
  match docs with
  | [] => None
  | (k', s) :: docs' => if same_key k' k then Some s else es_lookup docs' k
  end.

(** Insert or overwrite. *)
Fixpoint es_store (docs : list ((string * string) * Source)) (k : string * string)
    (s : Source) : list ((string * string) * Source) :=
  match docs with
  | [] => [(k, s)]
  | (k', s') :: docs' =>
      if same_key k' k then (k', s) :: docs' else (k', s') :: es_store docs' k s
  end.

(** A document is searchable once a refresh has followed its writing. *)
Definition searchable (es : Elasticsearch) (k : string * string) : bool :=
  negb (existsb (same_key k) (es_pending es)).

(** The hits of a search: the searchable documents of the index that
    satisfy both [must] clauses, best score first, at most [size] of
    them. *)
Definition es_hits (es : Elasticsearch) (index : string) (q : BoolQuery) (size : nat)
  : list (Source * Q) :=
  let candidates :=
    filter (fun kd =>
              String.eqb (fst (fst kd)) index
              && searchable es (fst kd)
              && es_match es (must_match_content q) (src_content (snd kd))
              && String.eqb (src_platform (snd kd)) (must_term_platform q))
           (es_docs es) in
  firstn size
    (sorted_reverse snd (map (fun kd => (snd kd, es_score es q (snd kd))) candidates)).

(** An index exists once it was created or a document was written to it:
    [es.index] creates the index it names when it is missing. *)
Definition index_exists (es : Elasticsearch) (index : string) : bool :=
  existsb (String.eqb index) (es_indices es)
  || existsb (fun kd => String.eqb (fst (fst kd)) index) (es_docs es).

Definition is_upper (c : ascii) : bool :=
  let n := nat_of_ascii c in (65 <=? n)%nat && (n <=? 90)%nat.

Definition forbidden_in_index : list ascii :=
  list_ascii_of_string "\/*?<>|,#: " ++ [ascii_of_nat 34].

Fixpoint all_chars (ok : ascii -> bool) (s : string) : bool :=
  match s with
  | EmptyString => true
  | String c s' => ok c && all_chars ok s'
  end.

(** The names Elasticsearch accepts for an index: no upper-case letter,
    no backslash, slash, star, question mark, double quote, angle bracket,
    bar, comma, hash, colon or space, no dash, underscore or plus in
    front, not one dot or two, at most 255 bytes. *)
Definition valid_index_name (name : string) : bool :=
  all_chars (fun c => negb (is_upper c)
                      && negb (existsb (Ascii.eqb c) forbidden_in_index)) name
  && match name with
     | EmptyString => false
     | String c _ => negb (existsb (Ascii.eqb c) (list_ascii_of_string "-_+"))
     end
  && negb (String.eqb name ".") && negb (String.eqb name "..")
  && (String.length name <=? 255)%nat.

(** [index.max_result_window]: the largest [size] a search may ask for. *)
Definition max_result_window : Z := 10000.

(** The cluster after a refresh: every document is searchable. *)
Definition refresh (es : Elasticsearch) : Elasticsearch :=
  {| es_docs := es_docs es; es_pending := []; es_indices := es_indices es;
     es_alive := es_alive es; es_match := es_match es; es_score := es_score es |}.

(** ** The service object and its effects *)

Record SearchService : Type := mkSearchService {
  es : Elasticsearch;
  dimension : nat;
  index : IndexFlatL2;
  encoder : string -> outcome vector
}.

(** A request sent to a collaborator. *)
Inductive event : Type :=
| Encode (text : string)
| FaissSearch (k : nat)
| FaissAdd
| EsGet (index id : string)
| EsSearch (index : string) (query : BoolQuery) (size : nat)
| EsIndex (index id : string).

Record state : Type := mkState {
  self : SearchService;
  trace : list event
}.

Definition M (A : Type) : Type := state -> outcome A * state.

Definition ret {A : Type} (a : A) : M A := fun st => (Returns a, st).

Definition raise {A : Type} (e : exn) : M A := fun st => (Raises e, st).

Definition bind {A B : Type} (c : M A) (f : A -> M B) : M B :=
  fun st =>
    match c st with
    | (Returns a, st') => f a st'
    | (Raises e, st') => (Raises e, st')
    end.

Notation "x <- c1 ;; c2" := (bind c1 (fun x => c2))
  (at level 61, c1 at next level, right associativity).

(** Record a request. *)
Definition emit (ev : event) : M unit :=
  fun st => (Returns tt, {| self := self st; trace := trace st ++ [ev] |}).

Definition get_self : M SearchService := fun st => (Returns (self st), st).

Definition set_self (s : SearchService) : M unit :=
  fun st => (Returns tt, {| self := s; trace := trace st |}).

Definition lift {A : Type} (o : outcome A) : M A := fun st => (o, st).

(** [self.encoder.encode(text)] *)
Definition encode (text : string) : M vector :=
  _ <- emit (Encode text) ;;
  s <- get_self ;;
  lift (encoder s text).

(** [self.index.search(np.array([x]), k)], zipped.  The wrapper asserts
    that the vector has the dimension of the index and that [k > 0]. *)
Definition faiss_search (x : vector) (k : nat) : M (list (Z * Q)) :=
  _ <- emit (FaissSearch k) ;;
  s <- get_self ;;
  if Nat.eqb (length x) (d (index s)) && negb (Nat.eqb k 0)
  then ret (knn (index s) x k)
  else raise AssertionError.

(** [self.index.add(np.array([x]))] *)
Definition faiss_add (x : vector) : M unit :=
  _ <- emit FaissAdd ;;
  s <- get_self ;;
  if Nat.eqb (length x) (d (index s)) then
    set_self {| es := es s; dimension := dimension s;
                index := {| d := d (index s); xb := xb (index s) ++ [x] |};
                encoder := encoder s |}
  else raise AssertionError.

(** [self.index.ntotal] *)
Definition faiss_ntotal : M nat :=
  s <- get_self ;; ret (ntotal (index s)).

(** [await self.es.get(index=..., id=...)], the [_source] of the answer. *)
Definition es_get (index_name id : string) : M Source :=
  _ <- emit (EsGet index_name id) ;;
  s <- get_self ;;
  if es_alive (es s) then
    match es_lookup (es_docs (es s)) (index_name, id) with
    | Some src => ret src
    | None => raise NotFoundError
    end
  else raise ConnectionError.

(** [await self.es.search(index=..., query=..., size=...)], the list
    [response['hits']['hits']] as pairs of [_source] and [_score].  A
    search on an index that does not exist is answered with 404, one that
    asks for more than [max_result_window] hits with 400. *)
Definition es_search (index_name : string) (q : BoolQuery) (size : nat)
  : M (list (Source * Q)) :=
  _ <- emit (EsSearch index_name q size) ;;
  s <- get_self ;;
  if es_alive (es s) then
    if index_exists (es s) index_name then
      if (Z.of_nat size <=? max_result_window)%Z
      then ret (es_hits (es s) index_name q size)
      else raise BadRequestError
    else raise NotFoundError
  else raise ConnectionError.

(** The cluster after a document was written: no refresh is asked for, so
    the document waits for the next one (what the id held before, if
    anything, is not kept for the searches in between). *)
Definition es_write (es : Elasticsearch) (k : string * string) (document : Source)
  : Elasticsearch :=
  {| es_docs := es_store (es_docs es) k document;
     es_pending := k :: es_pending es;
     es_indices := es_indices es;
     es_alive := es_alive es;
     es_match := es_match es;
     es_score := es_score es |}.

(** [await self.es.index(index=..., id=..., document=...)].  A name that
    is not valid for an index is answered with 400. *)
Definition es_index (index_name id : string) (document : Source) : M unit :=
  _ <- emit (EsIndex index_name id) ;;
  s <- get_self ;;
  if es_alive (es s) then
    if valid_index_name index_name then
      set_self {| es := es_write (es s) (index_name, id) document;
                  dimension := dimension s; index := index s;
                  encoder := encoder s |}
    else raise BadRequestError
  else raise ConnectionError.

(** ** [SearchService] methods *)

(** [f"{platform.lower()}_docs"] *)
Definition docs_index (platform : string) : string := lower platform ++ "_docs".

(** [default] of [dict.get(key, default)]. *)
Definition get_default {A : Type} (o : option A) (default : A) : A :=
  match o with Some a => a | None => default end.

(** The [SearchResult] built from a fetched document.  [distance] is a
    [numpy.float32] and the integer literals are weak in NumPy's promotion
    of scalars: [1 + distance] and [1 / ...] are float32 operations, and
    the float32 quotient is the value of the field [score]. *)
Definition semantic_result (platform : string) (doc : Source) (distance : Q)
  : SearchResult :=
  {| content := src_content doc;
     platform := platform;
     score := round32 (1 / round32 (1 + distance));
     doc_type := get_default (src_doc_type doc) "general";
     section := get_default (src_section doc) (Some "") |}.

(** The loop [for idx, distance in zip(I[0], D[0])] with its accumulator
    [results]. *)
Fixpoint semantic_loop (platform : string) (hits : list (Z * Q))
    (results : list SearchResult) : M (list SearchResult) :=
  match hits with
  | [] => ret results
  | (idx, distance) :: hits' =>
      if negb (Z.eqb idx (-1)) then
        doc <- es_get (docs_index platform) (str idx) ;;
        semantic_loop platform hits'
          (results ++ [semantic_result platform doc distance])
      else semantic_loop platform hits' results
  end.

Definition _semantic_search (query_embedding : vector) (platform : string)
    (top_k : nat) : M (list SearchResult) :=
  hits <- faiss_search query_embedding top_k ;;
  semantic_loop platform hits [].

Definition search_query (query platform : string) : BoolQuery :=
  {| must_match_content := query;
     must_term_platform := lower platform;
     should_phrase_title := (query, 2);
     should_phrase_section := (query, 3 # 2) |}.

Definition keyword_result (platform : string) (hit : Source * Q) : SearchResult :=
  {| content := src_content (fst hit);
     platform := platform;
     score := snd hit;
     doc_type := get_default (src_doc_type (fst hit)) "general";
     section := get_default (src_section (fst hit)) (Some "") |}.

Definition _keyword_search (query platform : string) (top_k : nat)
  : M (list SearchResult) :=
  hits <- es_search (docs_index platform) (search_query query platform) top_k ;;
  ret (map (keyword_result platform) hits).

(** The default [semantic_weight] of [_combine_search_results]. *)
Definition default_semantic_weight : Q := 1 # 2.

Definition search (query platform : string) (top_k : nat) : M (list SearchResult) :=
  query_embedding <- encode query ;;
  semantic_results <- _semantic_search query_embedding platform top_k ;;
  keyword_results <- _keyword_search query platform top_k ;;
  ret (_combine_search_results semantic_results keyword_results
         default_semantic_weight).

(** The document written by [index_document]. *)
Definition document_of (doc : DocumentChunk) : Source :=
  {| src_content := chunk_content doc;
     src_platform := lower (chunk_platform doc);
     src_doc_type := Some (chunk_doc_type doc);
     src_section := Some (chunk_section doc);
     src_title := chunk_title doc;
     src_url := chunk_url doc |}.

Definition index_document (doc : DocumentChunk) : M unit :=
  embedding <- encode (chunk_content doc) ;;
  _ <- faiss_add embedding ;;
  n <- faiss_ntotal ;;
  let doc_id := str (Z.of_nat n - 1) in
  es_index (docs_index (chunk_platform doc)) doc_id (document_of doc).

(** Calls of [index_document] one after the other. *)
Fixpoint index_documents (docs : list DocumentChunk) : M unit :=
  match docs with
  | [] => ret tt
  | doc :: docs' => _ <- index_document doc ;; index_documents docs'
  end.

(** [SearchService()] with a given encoder and cluster: an empty index of
    the configured dimension. *)
Definition new_service (es0 : Elasticsearch) (dim : nat)
    (enc : string -> outcome vector) : SearchService :=
  {| es := es0; dimension := dim;
     index := {| d := dim; xb := [] |}; encoder := enc |}.

Definition start (s : SearchService) : state := {| self := s; trace := [] |}.

(** The service once its cluster has refreshed. *)
Definition refreshed (s : SearchService) : SearchService :=
  {| es := refresh (es s); dimension := dimension s;
     index := index s; encoder := encoder s |}.

Definition after_refresh (st : state) : state :=
  {| self := refreshed (self st); trace := trace st |}.

(** ** Predicates used by the statements *)


Definition ascending {A : Type} (key : A -> Q) (l : list A) : Prop :=
  StronglySorted (fun a b => key a <= key b) l.


Definition has_content (c : string) (r : SearchResult) : bool :=
  String.eqb (content r) c.

(** [c in (r.content for r in l)] *)
Definition found_in (l : list SearchResult) (c : string) : bool :=
  existsb (has_content c) l.


(** What the first loop does to the entry of [r.content]. *)
Definition semantic_at (semantic_weight : Q) (o : option item) (r : SearchResult)
  : option item :=
  Some {| item_result := r; item_score := score r * semantic_weight |}.

(** What the second loop does to the entry of [r.content]. *)
Definition keyword_at (keyword_weight : Q) (o : option item) (r : SearchResult)
  : option item :=
  match o with
  | Some it =>
      Some {| item_result := item_result it;
              item_score := item_score it + score r * keyword_weight |}
  | None => Some {| item_result := r; item_score := score r * keyword_weight |}
  end.

(** Two items that hold the same result. *)
Definition same_result (a b : item) : Prop := item_result a = item_result b.

(** Two items that hold the same result under scores that are equal as
    numbers. *)
Definition same_item (a b : item) : Prop :=
  item_result a = item_result b /\ item_score a == item_score b.

(** Two entries under the same key whose values are related. *)
Definition keyed {V : Type} (R : V -> V -> Prop) (a b : string * V) : Prop :=
  fst a = fst b /\ R (snd a) (snd b).

(** Every entry is filed under the content of its result, once. *)
Definition dict_ok (combined : pydict item) : Prop :=
  NoDup (dict_keys combined)
  /\ Forall (fun kv => content (item_result (snd kv)) = fst kv) combined.

(** The keys of a dictionary after [d[k] = ...]. *)
Definition add_key (keys : list string) (k : string) : list string :=
  if existsb (String.eqb k) keys then keys else keys ++ [k].

(** The order in which contents are first met. *)
Definition insertion_order (contents : list string) : list string :=
  fold_left add_key contents [].

Definition item_content (it : item) : string := content (item_result it).

(** ** Readings of the effectful code used by the statements *)

(** The state after further requests, the service untouched. *)
Definition logged (st : state) (evs : list event) : state :=
  {| self := self st; trace := trace st ++ evs |}.

(** What [es.get] answers, as a function of the service. *)
Definition got (s : SearchService) (index_name id : string) : outcome Source :=
  if es_alive (es s) then
    match es_lookup (es_docs (es s)) (index_name, id) with
    | Some src => Returns src
    | None => Raises NotFoundError
    end
  else Raises ConnectionError.

(** What [index.search] answers, as a function of the service. *)
Definition faiss_answer (s : SearchService) (x : vector) (k : nat)
  : outcome (list (Z * Q)) :=
  if Nat.eqb (length x) (d (index s)) && negb (Nat.eqb k 0)
  then Returns (knn (index s) x k)
  else Raises AssertionError.

(** What [es.search] answers, as a function of the service. *)
Definition es_answer (s : SearchService) (index_name : string) (q : BoolQuery)
    (size : nat) : outcome (list (Source * Q)) :=
  if es_alive (es s) then
    if index_exists (es s) index_name then
      if (Z.of_nat size <=? max_result_window)%Z
      then Returns (es_hits (es s) index_name q size)
      else Raises BadRequestError
    else Raises NotFoundError
  else Raises ConnectionError.

(** A hit that is not padding. *)
Definition valid (hit : Z * Q) : bool := negb (Z.eqb (fst hit) (-1)).

(** What the loop of [_semantic_search] produces, as a function of the
    service. *)
Fixpoint fetch_results (s : SearchService) (platform : string)
    (hits : list (Z * Q)) (results : list SearchResult)
  : outcome (list SearchResult) :=
  match hits with
  | [] => Returns results
  | hit :: hits' =>
      if valid hit then
        match got s (docs_index platform) (str (fst hit)) with
        | Returns doc =>
            fetch_results s platform hits'
              (results ++ [semantic_result platform doc (snd hit)])
        | Raises e => Raises e
        end
      else fetch_results s platform hits' results
  end.

(** The requests the loop sends: one fetch per valid hit, up to the first
    one that fails. *)
Fixpoint fetch_requests (s : SearchService) (platform : string)
    (hits : list (Z * Q)) : list event :=
  match hits with
  | [] => []
  | hit :: hits' =>
      if valid hit then
        EsGet (docs_index platform) (str (fst hit))
          :: match got s (docs_index platform) (str (fst hit)) with
             | Returns _ => fetch_requests s platform hits'
             | Raises _ => []
             end
      else fetch_requests s platform hits'
  end.

(** The first half of [search]: the embedding and the semantic sub-search. *)
Definition semantic_phase (query platform : string) (top_k : nat)
  : M (list SearchResult) :=
  query_embedding <- encode query ;;
  _semantic_search query_embedding platform top_k.

Definition is_keyword_request (ev : event) : bool :=
  match ev with EsSearch _ _ _ => true | _ => false end.

(** ** Scenarios *)

Module Scenario.

Definition hit (c : string) (s : Q) : SearchResult :=
  {| content := c; platform := "Segment"; score := s;
     doc_type := "general"; section := Some "" |}.

(** One content found by both paths, one by each path alone. *)
Definition sem_a : SearchResult := hit "a" 1.
Definition kw_a : SearchResult := hit "a" 3.
Definition sem_b : SearchResult := hit "b" (1 # 2).
Definition kw_c : SearchResult := hit "c" 5.

(** An encoder that maps a text to its length, in dimension 1. *)
Definition length_encoder (text : string) : outcome vector :=
  Returns [inject_Z (Z.of_nat (String.length text))].

(** An encoder that fails. *)
Definition broken_encoder (text : string) : outcome vector :=
  Raises (EncoderError "model not loaded").

(** A cluster without documents and without indices, that matches every
    text and scores 1. *)
Definition cluster (alive : bool) : Elasticsearch :=
  {| es_docs := []; es_pending := []; es_indices := []; es_alive := alive;
     es_match := fun _ _ => true; es_score := fun _ _ => 1 |}.

Definition fresh : SearchService := new_service (cluster true) 1 length_encoder.

Definition segment_doc : DocumentChunk :=
  {| chunk_content := "Go to Settings > Sources > Add Source";
     chunk_platform := "Segment"; chunk_doc_type := "general";
     chunk_section := None; chunk_title := None; chunk_url := None |}.

Definition mparticle_doc : DocumentChunk :=
  {| chunk_content := "Open Setup > Inputs";
     chunk_platform := "mParticle"; chunk_doc_type := "general";
     chunk_section := None; chunk_title := None; chunk_url := None |}.

(** The service after indexing one document for each of two platforms,
    and a refresh. *)
Definition two_platforms : SearchService :=
  refreshed (self (snd (index_documents [segment_doc; mparticle_doc] (start fresh)))).

(** The service after indexing the Segment document alone, and a refresh. *)
Definition one_document : SearchService :=
  refreshed (self (snd (index_documents [segment_doc] (start fresh)))).

(** A service whose cluster holds the index of Segment, still without
    documents. *)
Definition prepared : Elasticsearch :=
  {| es_docs := []; es_pending := []; es_indices := ["segment_docs"];
     es_alive := true; es_match := fun _ _ => true; es_score := fun _ _ => 1 |}.

Definition empty_partition : SearchService := new_service prepared 1 length_encoder.

(** A service that holds one document at distance [2^-60] of the vector
    [[2^-30]]. *)
Definition zero_encoder (text : string) : outcome vector := Returns [0].

Definition near_document : SearchService :=
  refreshed (self (snd (index_documents [segment_doc]
                          (start (new_service (cluster true) 1 zero_encoder))))).

(** A service whose cluster went away, and one whose encoder fails. *)
Definition unplugged : SearchService := new_service (cluster false) 1 length_encoder.
Definition no_model : SearchService := new_service (cluster true) 1 broken_encoder.

End Scenario.

(** The requests of indexing [docs] one after the other on an index that
    holds [n] vectors. *)
Fixpoint index_requests (n : nat) (docs : list DocumentChunk) : list event :=
  match docs with
  | [] => []
  | doc :: docs' =>
      Encode (chunk_content doc) :: FaissAdd
        :: EsIndex (docs_index (chunk_platform doc)) (str (Z.of_nat n))
        :: index_requests (S n) docs'
  end.

(** The service after one successful [index_document]. *)
Definition indexed (s : SearchService) (doc : DocumentChunk) (v : vector)
  : SearchService :=
  {| es := es_write (es s)
             (docs_index (chunk_platform doc), str (Z.of_nat (ntotal (index s))))
             (document_of doc);
     dimension := dimension s;
     index := {| d := d (index s); xb := xb (index s) ++ [v] |};
     encoder := encoder s |}.

(** ** More Python string methods

    Strings are ASCII texts; a literal of the source that is not ASCII is
    the sequence of its UTF-8 bytes. *)

(** [c.isspace()] *)
Definition is_space (c : ascii) : bool :=
  let n := nat_of_ascii c in
  ((9 <=? n)%nat && (n <=? 13)%nat) || ((28 <=? n)%nat && (n <=? 32)%nat).

Fixpoint lstrip (s : string) : string :=
  match s with
  | EmptyString => EmptyString
  | String c s' => if is_space c then lstrip s' else s
  end.

Fixpoint rstrip (s : string) : string :=
  match s with
  | EmptyString => EmptyString
  | String c s' =>
      match rstrip s' with
      | EmptyString => if is_space c then EmptyString else String c EmptyString
      | t => String c t
      end
  end.

(** [s.strip()] *)
Definition strip (s : string) : string := rstrip (lstrip s).

(** [sub in s] *)
Fixpoint contains (sub s : string) : bool :=
  prefix sub s
  || match s with
     | EmptyString => false
     | String _ s' => contains sub s'
     end.

(** [s.replace(old, new)] for a non-empty [old]: the occurrences are found
    from left to right and do not overlap.  [skip] counts the characters of
    an occurrence that are still to be passed over. *)
Fixpoint replace_from (old new : string) (skip : nat) (s : string) : string :=
  match s with
  | EmptyString => EmptyString
  | String c s' =>
      match skip with
      | S n => replace_from old new n s'
      | O =>
          if prefix old s
          then new ++ replace_from old new (String.length old - 1) s'
          else String c (replace_from old new 0 s')
      end
  end.

Definition replace (old new s : string) : string := replace_from old new 0 s.

(** [s.split(sep)] for a non-empty [sep]; [cur] is the piece being read. *)
Fixpoint split_from (sep : string) (skip : nat) (cur s : string) : list string :=
  match s with
  | EmptyString => [cur]
  | String c s' =>
      match skip with
      | S n => split_from sep n cur s'
      | O =>
          if prefix sep s
          then cur :: split_from sep (String.length sep - 1) EmptyString s'
          else split_from sep 0 (cur ++ String c EmptyString) s'
      end
  end.

Definition split (sep s : string) : list string := split_from sep 0 EmptyString s.

(** ["\n"] *)
Definition nl : string := String (ascii_of_nat 10) EmptyString.

(** ** The response cache ([app/services/cache_service.py]) *)

(** The Redis server: the values with the time at which they expire, and
    the clock of the server, in seconds. *)
Record Redis : Type := mkRedis {
  redis_data : list (string * (string * nat));
  redis_now : nat;
  redis_alive : bool
}.

Fixpoint redis_lookup (data : list (string * (string * nat))) (key : string)
  : option (string * nat) :=
  match data with
  | [] => None
  | (k, v) :: data' => if String.eqb k key then Some v else redis_lookup data' key
  end.

(** [redis.get(key)] with [decode_responses=True]: the value, or [None]
    when the key is absent or has expired. *)
Definition redis_get (r : Redis) (key : string) : option string :=
  match redis_lookup (redis_data r) key with
  | Some (value, expires) =>
      if (redis_now r <? expires)%nat then Some value else None
  | None => None
  end.

(** [redis.setex(key, ttl, value)] *)
Definition redis_setex (r : Redis) (key : string) (ttl : nat) (value : string)
  : Redis :=
  {| redis_data := (key, (value, redis_now r + ttl)%nat)
                     :: filter (fun kv => negb (String.eqb (fst kv) key))
                          (redis_data r);
     redis_now := redis_now r;
     redis_alive := redis_alive r |}.

(** The server [seconds] later. *)
Definition elapse (seconds : nat) (r : Redis) : Redis :=
  {| redis_data := redis_data r;
     redis_now := (redis_now r + seconds)%nat;
     redis_alive := redis_alive r |}.

(** ** The chat service ([app/services/chat_services.py]) and its world *)

Inductive chat_exn : Type :=
| SearchFailure (e : exn)        (* raised inside [SearchService.search] *)
| RedisConnectionError.          (* the Redis server cannot be reached *)

Inductive reply (A : Type) : Type :=
| Answers (a : A)
| Throws (e : chat_exn).
Arguments Answers {A} a.
Arguments Throws {A} e.

(** The objects a [ChatService] holds, and the standard output. *)
Record world : Type := mkWorld {
  search_service : state;
  cache_redis : Redis;
  (* the exceptions reported by [print(f"Error generating response: ...")] *)
  printed : list chat_exn
}.

Definition Chat (A : Type) : Type := world -> reply A * world.

Definition answer {A : Type} (a : A) : Chat A := fun w => (Answers a, w).

Definition chat_bind {A B : Type} (c : Chat A) (f : A -> Chat B) : Chat B :=
  fun w =>
    match c w with
    | (Answers a, w') => f a w'
    | (Throws e, w') => (Throws e, w')
    end.

Notation "x <~ c1 ;; c2" := (chat_bind c1 (fun x => c2))
  (at level 61, c1 at next level, right associativity).

(** [try: body except Exception as e: handler(e)] *)
Definition try_except {A : Type} (body : Chat A) (handler : chat_exn -> Chat A)
  : Chat A :=
  fun w =>
    match body w with
    | (Answers a, w') => (Answers a, w')
    | (Throws e, w') => handler e w'
    end.

(** A call into the search service. *)
Definition call_search {A : Type} (c : M A) : Chat A :=
  fun w =>
    match c (search_service w) with
    | (Returns a, st') =>
        (Answers a, {| search_service := st'; cache_redis := cache_redis w;
                       printed := printed w |})
    | (Raises e, st') =>
        (Throws (SearchFailure e),
         {| search_service := st'; cache_redis := cache_redis w;
            printed := printed w |})
    end.

Definition print_error (e : chat_exn) : Chat unit :=
  fun w => (Answers tt, {| search_service := search_service w;
                           cache_redis := cache_redis w;
                           printed := printed w ++ [e] |}).

Module CacheService.

(** [self.cache_ttl] *)
Definition cache_ttl : nat := 3600.

Definition _generate_cache_key (query platform : string) : string :=
  let normalized_query := replace " " "-" (strip (lower query)) in
  "chat:response:" ++ lower platform ++ ":" ++ normalized_query.

Definition get_response (query platform : string) : Chat (option string) :=
  fun w =>
    let cache_key := _generate_cache_key query platform in
    if redis_alive (cache_redis w)
    then (Answers (redis_get (cache_redis w) cache_key), w)
    else (Throws RedisConnectionError, w).

Definition store_response (query platform response : string) : Chat unit :=
  fun w =>
    let cache_key := _generate_cache_key query platform in
    if redis_alive (cache_redis w)
    then (Answers tt,
          {| search_service := search_service w;
             cache_redis := redis_setex (cache_redis w) cache_key cache_ttl response;
             printed := printed w |})
    else (Throws RedisConnectionError, w).

End CacheService.

Module ChatService.

(** [self.templates], each with its [format] arguments. *)
Definition how_to (action platform steps : string) : string :=
  "Here's how to " ++ action ++ " in " ++ platform ++ ":" ++ nl ++ nl ++ steps.

Definition not_found (action platform : string) : string :=
  "I couldn't find specific information about how to " ++ action ++ " in "
  ++ platform
  ++ ". Could you please rephrase your question or ask about a different topic?".

Definition non_cdp : string :=
  "I specialize in answering questions about CDP platforms (Segment, mParticle, Lytics, and Zeotap). Your question seems to be about something else. Could you please ask a CDP-related question?".

Definition error : string :=
  "I apologize, but I encountered an error while processing your request. Please try asking your question again.".

Definition cdp_keywords : list string :=
  ["segment"; "mparticle"; "lytics"; "zeotap";
   "source"; "destination"; "integration"; "track";
   "identify"; "audience"; "profile"; "data"; "sdk";
   "api"; "webhook"; "event"].

Definition _is_cdp_related (query platform : string) : bool :=
  let query_lower := lower query in
  existsb (fun keyword => contains keyword query_lower) cdp_keywords.

Definition _extract_action (query : string) : string :=
  let query := replace "how to " "" (replace "how do i " "" (lower query)) in
  let query := replace "what is the way to " "" (replace "how can i " "" query) in
  strip query.

Definition important_keywords : list string :=
  ["note"; "important"; "ensure"; "remember"; "tip"; "best practice"].

Definition _is_relevant_point (sentence : string) : bool :=
  existsb (fun keyword => contains keyword (lower sentence)) important_keywords.

(** The three characters in front of a point, as UTF-8 bytes, and a space. *)
Definition bullet : string :=
  String (ascii_of_nat 195) (String (ascii_of_nat 162)
  (String (ascii_of_nat 226) (String (ascii_of_nat 130) (String (ascii_of_nat 172)
  (String (ascii_of_nat 194) (String (ascii_of_nat 162) " ")))))).

(** The list [points] before it is cut and joined. *)
Definition relevant_points (results : list SearchResult) : list string :=
  flat_map (fun result =>
              map (fun sentence => bullet ++ strip sentence)
                  (filter _is_relevant_point (split ". " (content result))))
           results.

Definition _extract_relevant_points (results : list SearchResult) : string :=
  String.concat nl (firstn 3 (relevant_points results)).

(** Truth value of a string. *)
Definition nonempty (s : string) : bool :=
  match s with EmptyString => false | _ => true end.

Definition _format_response (search_results : list SearchResult)
    (action platform : string) : string :=
  match search_results with
  | [] => not_found action platform
  | first :: rest =>
      let main_content := content first in
      let supplementary_info :=
        match rest with
        | [] => ""
        | _ =>
            let points := _extract_relevant_points rest in
            if nonempty points
            then nl ++ nl ++ "Additional tips:" ++ nl ++ points
            else ""
        end in
      let response := how_to action platform main_content in
      if nonempty supplementary_info then response ++ supplementary_info
      else response
  end.

Definition get_response (query platform : string) : Chat string :=
  cached_response <~ CacheService.get_response query platform ;;
  match cached_response with
  | Some (String c s) => answer (String c s)
  | _ =>
      if negb (_is_cdp_related query platform) then answer non_cdp
      else
        let action := _extract_action query in
        try_except
          (search_results <~ call_search (search query platform 3) ;;
           match search_results with
           | [] => answer (not_found action platform)
           | _ =>
               let response := _format_response search_results action platform in
               _ <~ CacheService.store_response query platform response ;;
               answer response
           end)
          (fun e => _ <~ print_error e ;; answer error)
  end.

End ChatService.

(** ** Readings of [search] used by the statements *)

(** What a search answers and which requests it sends, on a service. *)
Definition search_outcome (s : SearchService) (query platform : string)
    (top_k : nat) : outcome (list SearchResult) :=
  fst (search query platform top_k (start s)).

Definition search_requests (s : SearchService) (query platform : string)
    (top_k : nat) : list event :=
  trace (snd (search query platform top_k (start s))).

(** ** More scenarios *)

Module Cases.

Definition short_doc : DocumentChunk :=
  {| chunk_content := "Add a source";
     chunk_platform := "Segment"; chunk_doc_type := "general";
     chunk_section := None; chunk_title := None; chunk_url := None |}.

(** Two documents of one platform, after a refresh. *)
Definition two_documents : SearchService :=
  refreshed (self (snd (index_documents [Scenario.segment_doc; short_doc]
                          (start Scenario.fresh)))).

(** A document of a platform whose name has a space. *)
Definition adobe_doc : DocumentChunk :=
  {| chunk_content := "Create a schema";
     chunk_platform := "Adobe Experience"; chunk_doc_type := "general";
     chunk_section := None; chunk_title := None; chunk_url := None |}.

(** An encoder of the wrong dimension. *)
Definition wide_encoder (text : string) : outcome vector := Returns [1; 2].

Definition misconfigured : SearchService :=
  new_service (Scenario.cluster true) 1 wide_encoder.

(** A reachable, empty Redis server at time 0, and one that is down. *)
Definition redis0 : Redis :=
  {| redis_data := []; redis_now := 0; redis_alive := true |}.

Definition redis_down : Redis :=
  {| redis_data := []; redis_now := 0; redis_alive := false |}.

Definition world_of (s : SearchService) (r : Redis) : world :=
  {| search_service := start s; cache_redis := r; printed := [] |}.

End Cases.

(** [r] seen from a request that spelled the platform [p]. *)
Definition with_platform (p : string) (r : SearchResult) : SearchResult :=
  {| content := content r; platform := p; score := score r;
     doc_type := doc_type r; section := section r |}.

(** [r] shows a document stored in the partition of [p]. *)
Definition shows_document_of (s : SearchService) (p : string) (r : SearchResult)
  : Prop :=
  platform r = p
  /\ exists id src,
       In ((docs_index p, id), src) (es_docs (es s))
       /\ content r = src_content src.

Definition relabel_item (f : SearchResult -> SearchResult) (it : item) : item :=
  {| item_result := f (item_result it); item_score := item_score it |}.

Definition dict_map {V W : Type} (g : V -> W) (dict : pydict V) : pydict W :=
  map (fun kv => (fst kv, g (snd kv))) dict.

(** The answer of a search with every result relabelled. *)
Definition relabelled (p : string) (o : outcome (list SearchResult))
  : outcome (list SearchResult) :=
  match o with
  | Returns results => Returns (map (with_platform p) results)
  | Raises e => Raises e
  end.

(** The sum of the scores of a list of results. *)
Definition score_sum (l : list SearchResult) : Q :=
  fold_right Qplus 0 (map score l).

(** Every character of [s] is white space. *)
Fixpoint all_space (s : string) : bool :=
  match s with
  | EmptyString => true
  | String c s' => is_space c && all_space s'
  end.

(** [s] with every character replaced by its image. *)
Fixpoint smap (f : ascii -> ascii) (s : string) : string :=
  match s with
  | EmptyString => EmptyString
  | String c s' => String (f c) (smap f s')
  end.

(** A space becomes a dash. *)
Definition dash (c : ascii) : ascii := if Ascii.eqb c " " then "-"%char else c.

(** The world with the clock of the cache moved on. *)
Definition later (seconds : nat) (w : world) : world :=
  {| search_service := search_service w;
     cache_redis := elapse seconds (cache_redis w);
     printed := printed w |}.

(** The cached response that [ChatService.get_response] accepts: present,
    not expired and not empty. *)
Definition cache_hit (w : world) (query platform : string) : option string :=
  match redis_get (cache_redis w)
          (CacheService._generate_cache_key query platform) with
  | Some (String c s) => Some (String c s)
  | _ => None
  end.

(** The world after the search of [ChatService.get_response]. *)
Definition searched (w : world) (query platform : string) : world :=
  {| search_service :=
       logged (search_service w)
         (search_requests (self (search_service w)) query platform 3);
     cache_redis := cache_redis w;
     printed := printed w |}.

(** The world after a response was cached, too. *)
Definition cached (w : world) (query platform response : string) : world :=
  {| search_service := search_service (searched w query platform);
     cache_redis :=
       redis_setex (cache_redis w)
         (CacheService._generate_cache_key query platform)
         CacheService.cache_ttl response;
     printed := printed w |}.

(** The world after the failure of the search was reported. *)
Definition reported (w : world) (query platform : string) (e : exn) : world :=
  {| search_service := search_service (searched w query platform);
     cache_redis := cache_redis w;
     printed := printed w ++ [SearchFailure e] |}.

Module Talks.

(** A world whose cache holds a response for a greeting. *)
Definition greeted : world :=
  snd (CacheService.store_response "hello there" "Segment" "Hi!"
         (Cases.world_of Scenario.fresh Cases.redis0)).

End Talks.
(** * Properties *)

(** ** Comparison of scores *)

Lemma Qltb_lt (x y : Q) : Qltb x y = true <-> x < y.
Proof.
  unfold Qltb. rewrite negb_true_iff. split; intro H.
  - apply Qnot_le_lt. intro Hle. apply Qle_bool_iff in Hle. congruence.
  - destruct (Qle_bool y x) eqn:E; [|reflexivity].
    apply Qle_bool_iff in E. exfalso. apply (Qlt_not_le _ _ H E).
Qed.

Lemma Qltb_ge (x y : Q) : Qltb x y = false <-> y <= x.
Proof.
  unfold Qltb. rewrite negb_false_iff. apply Qle_bool_iff.
Qed.

#[global] Instance Qltb_comp : Proper (Qeq ==> Qeq ==> eq) Qltb.
Proof.
  intros x x' Hx y y' Hy. unfold Qltb. now rewrite Hx, Hy.
Qed.

(** ** The sort *)

Section SortFacts.
Context {A : Type} (key : A -> Q).

Lemma insort_perm (x : A) (l : list A) : Permutation (insort key x l) (x :: l).
Proof.
  induction l as [|y l IH]; simpl.
  - apply Permutation_refl.
  - destruct (Qltb (key y) (key x)).
    + rewrite IH. apply perm_swap.
    + apply Permutation_refl.
Qed.

Lemma stable_sort_perm (l : list A) : Permutation (stable_sort key l) l.
Proof.
  induction l as [|x l IH]; simpl.
  - apply perm_nil.
  - rewrite insort_perm. now apply perm_skip.
Qed.

Lemma insort_sorted (x : A) (l : list A) :
  ascending key l -> ascending key (insort key x l).
Proof.
  unfold ascending. induction 1 as [|y l Hs IH Hy]; simpl.
  - repeat constructor.
  - destruct (Qltb (key y) (key x)) eqn:E.
    + constructor; [exact IH|].
      rewrite insort_perm. constructor; [|exact Hy].
      apply Qltb_lt in E. now apply Qlt_le_weak.
    + apply Qltb_ge in E. constructor.
      * now constructor.
      * constructor; [exact E|].
        eapply Forall_impl; [|exact Hy].
        intros z Hz. simpl in Hz. eapply Qle_trans; eassumption.
Qed.

Lemma stable_sort_sorted (l : list A) : ascending key (stable_sort key l).
Proof.
  induction l as [|x l IH]; simpl.
  - constructor.
  - now apply insort_sorted.
Qed.

Lemma insort_front (x : A) (l : list A) :
  Forall (fun y => key x <= key y) l -> insort key x l = x :: l.
Proof.
  destruct 1 as [|y l Hy _]; simpl; [reflexivity|].
  apply Qltb_ge in Hy. now rewrite Hy.
Qed.

Lemma filter_insort (p : A -> bool) (x : A) (l : list A) :
  ascending key l ->
  filter p (insort key x l) =
  if p x then insort key x (filter p l) else filter p l.
Proof.
  unfold ascending. induction 1 as [|y l Hs IH Hy]; simpl.
  - now destruct (p x).
  - destruct (Qltb (key y) (key x)) eqn:E; simpl.
    + rewrite IH. destruct (p y), (p x); simpl; try reflexivity.
      now rewrite E.
    + destruct (p x) eqn:Px; [|reflexivity].
      apply Qltb_ge in E.
      symmetry. apply insort_front.
      assert (Hall : Forall (fun z => key x <= key z) (y :: l)).
      { constructor; [exact E|].
        eapply Forall_impl; [|exact Hy].
        intros z Hz. simpl in Hz. eapply Qle_trans; eassumption. }
      apply Forall_forall. intros z Hz.
      rewrite Forall_forall in Hall. apply Hall.
      change (In z (filter p (y :: l))) in Hz.
      apply filter_In in Hz. tauto.
Qed.

(** Sorting and selecting commute: the sort never swaps two elements unless
    their keys force it. *)
Lemma filter_stable_sort (p : A -> bool) (l : list A) :
  filter p (stable_sort key l) = stable_sort key (filter p l).
Proof.
  induction l as [|x l IH]; simpl; [reflexivity|].
  rewrite filter_insort by apply stable_sort_sorted.
  rewrite IH. now destruct (p x).
Qed.




Lemma sorted_reverse_perm (l : list A) : Permutation (sorted_reverse key l) l.
Proof.
  unfold sorted_reverse.
  rewrite <- Permutation_rev, stable_sort_perm. symmetry. apply Permutation_rev.
Qed.


Lemma filter_sorted_reverse (p : A -> bool) (l : list A) :
  filter p (sorted_reverse key l) = sorted_reverse key (filter p l).
Proof.
  unfold sorted_reverse.
  now rewrite filter_rev, filter_stable_sort, filter_rev.
Qed.


End SortFacts.

(** The sort reads its input through the values of the keys only: two lists
    that agree element by element, up to equality of the keys as numbers,
    are sorted in the same way. *)
Section SortCompat.
Context {A B : Type} (keyA : A -> Q) (keyB : B -> Q) (R : A -> B -> Prop).
Hypothesis R_key : forall a b, R a b -> keyA a == keyB b.

Lemma insort_Forall2 (x : A) (y : B) (l : list A) (l' : list B) :
  R x y -> Forall2 R l l' -> Forall2 R (insort keyA x l) (insort keyB y l').
Proof.
  intros Hxy. induction 1 as [|a b l l' Hab Hl IH]; simpl.
  - repeat constructor. exact Hxy.
  - rewrite (Qltb_comp _ _ (R_key _ _ Hab) _ _ (R_key _ _ Hxy)).
    destruct (Qltb (keyB b) (keyB y)); repeat (constructor; try assumption).
Qed.

Lemma stable_sort_Forall2 (l : list A) (l' : list B) :
  Forall2 R l l' -> Forall2 R (stable_sort keyA l) (stable_sort keyB l').
Proof.
  induction 1; simpl; [constructor|]. now apply insort_Forall2.
Qed.

Lemma Forall2_rev_intro (l : list A) (l' : list B) :
  Forall2 R l l' -> Forall2 R (rev l) (rev l').
Proof.
  induction 1; simpl; [constructor|].
  apply Forall2_app; [assumption|]. now repeat constructor.
Qed.

Lemma sorted_reverse_Forall2 (l : list A) (l' : list B) :
  Forall2 R l l' -> Forall2 R (sorted_reverse keyA l) (sorted_reverse keyB l').
Proof.
  intro H. unfold sorted_reverse.
  now apply Forall2_rev_intro, stable_sort_Forall2, Forall2_rev_intro.
Qed.

End SortCompat.

(** ** The dictionary *)

Section DictFacts.
Context {V : Type}.
Implicit Types (dict : pydict V) (k : string) (v : V).

Lemma dict_get_set dict k v k' :
  dict_get (dict_set dict k v) k' =
  if String.eqb k k' then Some v else dict_get dict k'.
Proof.
  induction dict as [|[k0 v0] dict IH]; simpl.
  - reflexivity.
  - destruct (String.eqb_spec k0 k) as [->|Hne]; simpl.
    + destruct (String.eqb k k'); reflexivity.
    + rewrite IH. destruct (String.eqb_spec k0 k') as [->|Hne'].
      * destruct (String.eqb_spec k k'); [congruence|reflexivity].
      * reflexivity.
Qed.

Lemma dict_get_None dict k : dict_get dict k = None <-> ~ In k (dict_keys dict).
Proof.
  induction dict as [|[k0 v0] dict IH]; simpl.
  - tauto.
  - destruct (String.eqb_spec k0 k) as [->|Hne].
    + split; [discriminate|]. intros H. exfalso. apply H. now left.
    + rewrite IH. tauto.
Qed.

(** Assigning to a key that is present keeps every position. *)
Lemma dict_set_present dict k v :
  In k (dict_keys dict) -> dict_keys (dict_set dict k v) = dict_keys dict.
Proof.
  induction dict as [|[k0 v0] dict IH]; simpl; [tauto|].
  destruct (String.eqb_spec k0 k) as [->|Hne]; simpl; [reflexivity|].
  intros [H|H]; [congruence|]. now rewrite IH.
Qed.

(** Assigning to a new key appends it. *)
Lemma dict_set_absent dict k v :
  ~ In k (dict_keys dict) -> dict_set dict k v = (dict ++ [(k, v)])%list.
Proof.
  induction dict as [|[k0 v0] dict IH]; simpl; [reflexivity|].
  destruct (String.eqb_spec k0 k) as [->|Hne]; [tauto|].
  intros H. rewrite IH; [reflexivity|tauto].
Qed.

Lemma dict_set_NoDup dict k v :
  NoDup (dict_keys dict) -> NoDup (dict_keys (dict_set dict k v)).
Proof.
  intro H. destruct (in_dec string_dec k (dict_keys dict)) as [Hin|Hout].
  - now rewrite dict_set_present.
  - rewrite dict_set_absent by assumption. unfold dict_keys in *.
    rewrite map_app. simpl.
    apply Permutation_NoDup with (l := k :: map fst dict).
    + apply Permutation_cons_append.
    + now constructor.
Qed.

(** The entries stored under one key: at most one. *)
Lemma filter_key dict k :
  NoDup (dict_keys dict) ->
  filter (fun kv => String.eqb (fst kv) k) dict =
  match dict_get dict k with Some v => [(k, v)] | None => [] end.
Proof.
  induction dict as [|[k0 v0] dict IH]; simpl; [reflexivity|].
  intro H. inversion H as [|? ? Hout Hnd]; subst.
  destruct (String.eqb_spec k0 k) as [->|Hne].
  - f_equal. apply dict_get_None in Hout. rewrite IH, Hout by assumption.
    reflexivity.
  - now apply IH.
Qed.

End DictFacts.

(** ** Fusion *)

Lemma fold_left_filter {A B : Type} (p : B -> bool) (f : A -> B -> A)
    (l : list B) (a : A) :
  fold_left (fun a b => if p b then f a b else a) l a = fold_left f (filter p l) a.
Proof.
  revert a. induction l as [|b l IH]; intro a; simpl; [reflexivity|].
  destruct (p b); simpl; apply IH.
Qed.

Lemma semantic_step_at (w : Q) (combined : pydict item) (r : SearchResult)
    (c : string) :
  dict_get (semantic_step w combined r) c =
  if has_content c r then semantic_at w (dict_get combined c) r
  else dict_get combined c.
Proof.
  unfold semantic_step, has_content. now rewrite dict_get_set.
Qed.

Lemma keyword_step_at (kw : Q) (combined : pydict item) (r : SearchResult)
    (c : string) :
  dict_get (keyword_step kw combined r) c =
  if has_content c r then keyword_at kw (dict_get combined c) r
  else dict_get combined c.
Proof.
  unfold keyword_step, has_content, keyword_at.
  destruct (String.eqb_spec (content r) c) as [<-|Hne].
  - destruct (dict_get combined (content r));
      now rewrite dict_get_set, String.eqb_refl.
  - destruct (dict_get combined (content r)); rewrite dict_get_set;
      now destruct (String.eqb_spec (content r) c).
Qed.

Lemma fold_step_at (step : pydict item -> SearchResult -> pydict item)
    (at_key : option item -> SearchResult -> option item) (c : string) :
  (forall combined r,
      dict_get (step combined r) c =
      if has_content c r then at_key (dict_get combined c) r
      else dict_get combined c) ->
  forall l combined,
    dict_get (fold_left step l combined) c =
    fold_left at_key (filter (has_content c) l) (dict_get combined c).
Proof.
  intros Hstep l. induction l as [|r l IH]; intro combined; simpl; [reflexivity|].
  rewrite IH, Hstep. now destruct (has_content c r).
Qed.

(** The entry of a content depends on the results with that content only:
    the semantic ones are replayed first, then the keyword ones. *)
Lemma combined_scores_at (sem kw : list SearchResult) (w : Q) (c : string) :
  dict_get (combined_scores sem kw w) c =
  fold_left (keyword_at (1 - w)) (filter (has_content c) kw)
    (fold_left (semantic_at w) (filter (has_content c) sem) None).
Proof.
  unfold combined_scores.
  rewrite (fold_step_at _ _ c (fun combined r => keyword_step_at (1 - w) combined r c)).
  now rewrite (fold_step_at _ _ c (fun combined r => semantic_step_at w combined r c)).
Qed.

Lemma dict_ok_nil : dict_ok [].
Proof. split; constructor. Qed.

Lemma dict_set_ok (combined : pydict item) (it : item) :
  dict_ok combined ->
  dict_ok (dict_set combined (content (item_result it)) it).
Proof.
  intros [Hnd Hc]. split; [now apply dict_set_NoDup|].
  clear Hnd. induction Hc as [|[k0 v0] l Hk Hl IH]; simpl.
  - now repeat constructor.
  - destruct (String.eqb_spec k0 (content (item_result it))) as [->|Hne];
      constructor; auto.
Qed.

Lemma semantic_step_ok (w : Q) (combined : pydict item) (r : SearchResult) :
  dict_ok combined -> dict_ok (semantic_step w combined r).
Proof.
  intro H. unfold semantic_step.
  apply (dict_set_ok combined {| item_result := r; item_score := score r * w |} H).
Qed.

Lemma dict_get_ok (combined : pydict item) (c : string) (it : item) :
  dict_ok combined -> dict_get combined c = Some it ->
  content (item_result it) = c.
Proof.
  intros [_ Hc]. induction Hc as [|[k0 v0] l Hk Hl IH]; simpl; [discriminate|].
  destruct (String.eqb_spec k0 c) as [->|Hne]; [|exact IH].
  intros [= <-]. exact Hk.
Qed.

Lemma keyword_step_ok (kw : Q) (combined : pydict item) (r : SearchResult) :
  dict_ok combined -> dict_ok (keyword_step kw combined r).
Proof.
  intro H. unfold keyword_step.
  destruct (dict_get combined (content r)) as [it|] eqn:E.
  - pose proof (dict_get_ok _ _ _ H E) as Hc.
    pose proof (dict_set_ok combined
      {| item_result := item_result it;
         item_score := item_score it + score r * kw |} H) as H'.
    simpl in H'. now rewrite Hc in H'.
  - apply (dict_set_ok combined
      {| item_result := r; item_score := score r * kw |} H).
Qed.

Lemma fold_left_invariant {A B : Type} (P : A -> Prop) (f : A -> B -> A) :
  (forall a b, P a -> P (f a b)) ->
  forall l a, P a -> P (fold_left f l a).
Proof.
  intros Hf l. induction l as [|b l IH]; simpl; auto.
Qed.

Lemma combined_scores_ok (sem kw : list SearchResult) (w : Q) :
  dict_ok (combined_scores sem kw w).
Proof.
  unfold combined_scores.
  apply fold_left_invariant; [intros; now apply keyword_step_ok|].
  apply fold_left_invariant; [intros; now apply semantic_step_ok|].
  apply dict_ok_nil.
Qed.

Lemma filter_map_comm {A B : Type} (p : B -> bool) (f : A -> B) (l : list A) :
  filter p (map f l) = map f (filter (fun a => p (f a)) l).
Proof.
  induction l as [|a l IH]; simpl; [reflexivity|].
  rewrite IH. now destruct (p (f a)).
Qed.

(** The fused entries of one content: the entry of the dictionary, if any. *)
Lemma items_with_content (sem kw : list SearchResult) (w : Q) (c : string) :
  filter (fun it => has_content c (item_result it)) (sorted_results sem kw w) =
  match dict_get (combined_scores sem kw w) c with
  | Some it => [it]
  | None => []
  end.
Proof.
  unfold sorted_results. rewrite filter_sorted_reverse.
  unfold dict_values. rewrite filter_map_comm.
  destruct (combined_scores_ok sem kw w) as [Hnd Hc].
  rewrite (filter_ext_in _ (fun kv => String.eqb (fst kv) c)).
  - rewrite filter_key by exact Hnd.
    now destruct (dict_get (combined_scores sem kw w) c).
  - intros kv Hin. rewrite Forall_forall in Hc. unfold has_content.
    now rewrite (Hc kv Hin).
Qed.

Lemma results_with_content (sem kw : list SearchResult) (w : Q) (c : string) :
  filter (has_content c) (_combine_search_results sem kw w) =
  match dict_get (combined_scores sem kw w) c with
  | Some it => [item_result it]
  | None => []
  end.
Proof.
  unfold _combine_search_results.
  rewrite filter_map_comm, items_with_content.
  now destruct (dict_get (combined_scores sem kw w) c).
Qed.

(** C2, as amended. When [s] is the one semantic result and [r] the one
    keyword result with some content, the fused list holds exactly one
    result with that content: it is [s] itself, still carrying its own
    score, and the entry it is ranked under has the accumulated score
    [s.score * w + r.score * (1 - w)]. *)
Theorem dedup_law (sem kw : list SearchResult) (w : Q) (s r : SearchResult) :
  filter (has_content (content s)) sem = [s] ->
  filter (has_content (content s)) kw = [r] ->
  filter (has_content (content s)) (_combine_search_results sem kw w) = [s]
  /\ filter (fun it => has_content (content s) (item_result it))
       (sorted_results sem kw w)
     = [ {| item_result := s;
            item_score := score s * w + score r * (1 - w) |} ].
Proof.
  intros Hs Hr.
  rewrite results_with_content, items_with_content, combined_scores_at.
  rewrite Hs, Hr. simpl. split; reflexivity.
Qed.

(** ** Insertion order *)

Lemma existsb_eqb_In (k : string) (keys : list string) :
  existsb (String.eqb k) keys = true <-> In k keys.
Proof.
  rewrite existsb_exists. split.
  - intros [x [Hin Hx]]. apply String.eqb_eq in Hx. now subst.
  - intro H. exists k. split; [exact H|apply String.eqb_refl].
Qed.

Lemma dict_keys_set {V : Type} (dict : pydict V) (k : string) (v : V) :
  dict_keys (dict_set dict k v) = add_key (dict_keys dict) k.
Proof.
  unfold add_key. destruct (existsb (String.eqb k) (dict_keys dict)) eqn:E.
  - apply dict_set_present. now apply existsb_eqb_In.
  - rewrite dict_set_absent.
    + unfold dict_keys. now rewrite map_app.
    + intro H. apply existsb_eqb_In in H. congruence.
Qed.

Lemma semantic_step_keys (w : Q) (combined : pydict item) (r : SearchResult) :
  dict_keys (semantic_step w combined r) = add_key (dict_keys combined) (content r).
Proof. apply dict_keys_set. Qed.

Lemma keyword_step_keys (kw : Q) (combined : pydict item) (r : SearchResult) :
  dict_keys (keyword_step kw combined r) = add_key (dict_keys combined) (content r).
Proof.
  unfold keyword_step.
  destruct (dict_get combined (content r)); apply dict_keys_set.
Qed.

Lemma fold_step_keys (step : pydict item -> SearchResult -> pydict item) :
  (forall combined r,
      dict_keys (step combined r) = add_key (dict_keys combined) (content r)) ->
  forall l combined,
    dict_keys (fold_left step l combined) =
    fold_left add_key (map content l) (dict_keys combined).
Proof.
  intros Hstep l. induction l as [|r l IH]; intro combined; simpl; [reflexivity|].
  now rewrite IH, Hstep.
Qed.

(** The dictionary lists the contents in the order they are first met,
    semantic results before keyword results. *)
Lemma combined_scores_keys (sem kw : list SearchResult) (w : Q) :
  dict_keys (combined_scores sem kw w) = insertion_order (map content (sem ++ kw)).
Proof.
  unfold combined_scores, insertion_order.
  rewrite (fold_step_keys _ (keyword_step_keys (1 - w))).
  rewrite (fold_step_keys _ (semantic_step_keys w)).
  now rewrite map_app, fold_left_app.
Qed.

Lemma add_keys_grow (l keys : list string) :
  exists extra,
    fold_left add_key l keys = (keys ++ extra)%list
    /\ Forall (fun k => ~ In k keys /\ In k l) extra.
Proof.
  revert keys. induction l as [|k l IH]; intro keys; simpl.
  - exists []. split; [now rewrite app_nil_r|constructor].
  - destruct (IH (add_key keys k)) as [extra [Heq Hex]]. unfold add_key in *.
    destruct (existsb (String.eqb k) keys) eqn:E.
    + exists extra. split; [exact Heq|].
      eapply Forall_impl; [|exact Hex]. simpl. tauto.
    + exists (k :: extra). split.
      * now rewrite Heq, <- app_assoc.
      * constructor.
        -- split; [|now left]. intro H. apply existsb_eqb_In in H. congruence.
        -- eapply Forall_impl; [|exact Hex]. simpl. intros a [Ha Hb].
           split; [|now right]. intro H. apply Ha. apply in_or_app. now left.
Qed.

Lemma add_keys_In (l keys : list string) (k : string) :
  In k (fold_left add_key l keys) <-> In k keys \/ In k l.
Proof.
  revert keys. induction l as [|k0 l IH]; intro keys; simpl; [tauto|].
  rewrite IH. unfold add_key.
  destruct (existsb (String.eqb k0) keys) eqn:E.
  - apply existsb_eqb_In in E. split; [tauto|].
    intros [H|[H|H]]; subst; tauto.
  - rewrite in_app_iff. simpl. tauto.
Qed.

Lemma found_in_In (l : list SearchResult) (c : string) :
  found_in l c = true <-> In c (map content l).
Proof.
  unfold found_in, has_content. rewrite existsb_exists, in_map_iff.
  split; intros [r [H1 H2]]; exists r.
  - apply String.eqb_eq in H2. tauto.
  - split; [tauto|]. now apply String.eqb_eq.
Qed.

(** ** Two runs of the loops, entry by entry *)

Section DictRel.
Context {V : Type} (R : V -> V -> Prop).

Lemma dict_get_Forall2 (a b : pydict V) (k : string) :
  Forall2 (keyed R) a b ->
  match dict_get a k, dict_get b k with
  | Some va, Some vb => R va vb
  | None, None => True
  | _, _ => False
  end.
Proof.
  induction 1 as [|[ka va] [kb vb] a b [Hk Hv] Hab IH]; simpl; [exact I|].
  simpl in Hk, Hv. subst kb. now destruct (String.eqb ka k).
Qed.

Lemma dict_set_Forall2 (a b : pydict V) (k : string) (va vb : V) :
  Forall2 (keyed R) a b -> R va vb ->
  Forall2 (keyed R) (dict_set a k va) (dict_set b k vb).
Proof.
  intros Hab Hv.
  induction Hab as [|[ka xa] [kb xb] a b [Hk Hx] Hab IH]; simpl.
  - repeat constructor; assumption.
  - simpl in Hk, Hx. subst kb.
    destruct (String.eqb ka k); constructor; try assumption; now split.
Qed.

Lemma dict_values_Forall2 (a b : pydict V) :
  Forall2 (keyed R) a b -> Forall2 R (dict_values a) (dict_values b).
Proof.
  induction 1 as [|x y a b [_ Hv] Hab IH]; simpl; constructor; assumption.
Qed.

End DictRel.

Section TwoRuns.
Context (R : item -> item -> Prop) (w w' k k' : Q).
Hypothesis R_semantic : forall r : SearchResult,
  R {| item_result := r; item_score := score r * w |}
    {| item_result := r; item_score := score r * w' |}.
Hypothesis R_keyword : forall r : SearchResult,
  R {| item_result := r; item_score := score r * k |}
    {| item_result := r; item_score := score r * k' |}.
Hypothesis R_add : forall (it it' : item) (r : SearchResult),
  R it it' ->
  R {| item_result := item_result it; item_score := item_score it + score r * k |}
    {| item_result := item_result it';
       item_score := item_score it' + score r * k' |}.

Lemma fold_semantic_Forall2 (sem : list SearchResult) (a b : pydict item) :
  Forall2 (keyed R) a b ->
  Forall2 (keyed R) (fold_left (semantic_step w) sem a)
                    (fold_left (semantic_step w') sem b).
Proof.
  revert a b. induction sem as [|r sem IH]; intros a b Hab; simpl; [exact Hab|].
  apply IH. unfold semantic_step. now apply dict_set_Forall2.
Qed.

Lemma keyword_step_Forall2 (r : SearchResult) (a b : pydict item) :
  Forall2 (keyed R) a b ->
  Forall2 (keyed R) (keyword_step k a r) (keyword_step k' b r).
Proof.
  intro Hab. unfold keyword_step.
  pose proof (dict_get_Forall2 R a b (content r) Hab) as Hget.
  destruct (dict_get a (content r)) as [it|], (dict_get b (content r)) as [it'|];
    try contradiction; apply dict_set_Forall2; auto.
Qed.

Lemma fold_keyword_Forall2 (kw : list SearchResult) (a b : pydict item) :
  Forall2 (keyed R) a b ->
  Forall2 (keyed R) (fold_left (keyword_step k) kw a)
                    (fold_left (keyword_step k') kw b).
Proof.
  revert a b. induction kw as [|r kw IH]; intros a b Hab; simpl; [exact Hab|].
  apply IH. now apply keyword_step_Forall2.
Qed.

End TwoRuns.

(** The results held by the dictionary do not depend on the weight. *)
Lemma combined_scores_same_result (sem kw : list SearchResult) (w w' : Q) :
  Forall2 (keyed same_result) (combined_scores sem kw w) (combined_scores sem kw w').
Proof.
  unfold combined_scores.
  apply fold_keyword_Forall2; try (intros; reflexivity).
  - intros it it' r H. exact H.
  - apply fold_semantic_Forall2; [intros; reflexivity|constructor].
Qed.


Lemma Forall2_map_eq {A B C : Type} (R : A -> B -> Prop) (f : A -> C) (g : B -> C)
    (l : list A) (l' : list B) :
  (forall a b, R a b -> f a = g b) -> Forall2 R l l' -> map f l = map g l'.
Proof.
  intros H. induction 1; simpl; [reflexivity|]. f_equal; auto.
Qed.


(** ** Where the fused results come from *)

Lemma fold_left_invariant_in {A B : Type} (P : A -> Prop) (f : A -> B -> A)
    (l : list B) :
  (forall a b, In b l -> P a -> P (f a b)) ->
  forall a, P a -> P (fold_left f l a).
Proof.
  induction l as [|b l IH]; intros Hf a Ha; simpl; [exact Ha|].
  apply IH.
  - intros a' b' Hb'. apply Hf. now right.
  - apply Hf; [now left|exact Ha].
Qed.

Lemma dict_set_Forall {V : Type} (P : V -> Prop) (dict : pydict V) (k : string)
    (v : V) :
  Forall (fun kv => P (snd kv)) dict -> P v ->
  Forall (fun kv => P (snd kv)) (dict_set dict k v).
Proof.
  intros Hd Hv. induction Hd as [|[k0 v0] dict H0 Hd IH]; simpl.
  - now repeat constructor.
  - destruct (String.eqb k0 k); constructor; assumption.
Qed.

Lemma dict_get_Forall {V : Type} (P : V -> Prop) (dict : pydict V) (k : string)
    (v : V) :
  Forall (fun kv => P (snd kv)) dict -> dict_get dict k = Some v -> P v.
Proof.
  induction 1 as [|[k0 v0] dict H0 Hd IH]; simpl; [discriminate|].
  destruct (String.eqb k0 k); [|exact IH]. now intros [= <-].
Qed.

Lemma combined_scores_sources (sem kw : list SearchResult) (w : Q) :
  Forall (fun kv => In (item_result (snd kv)) sem \/ In (item_result (snd kv)) kw)
         (combined_scores sem kw w).
Proof.
  unfold combined_scores.
  apply fold_left_invariant_in.
  - intros a r Hr Ha. unfold keyword_step.
    destruct (dict_get a (content r)) as [it|] eqn:E.
    + apply (dict_set_Forall (fun it => In (item_result it) sem \/ In (item_result it) kw));
        [exact Ha|]. simpl.
      apply (dict_get_Forall
               (fun it => In (item_result it) sem \/ In (item_result it) kw)
               _ _ _ Ha E).
    + apply (dict_set_Forall (fun it => In (item_result it) sem \/ In (item_result it) kw));
        [exact Ha|]. simpl. now right.
  - apply fold_left_invariant_in; [|constructor].
    intros a r Hr Ha. unfold semantic_step.
    apply (dict_set_Forall (fun it => In (item_result it) sem \/ In (item_result it) kw));
      [exact Ha|]. simpl. now left.
Qed.

(** C10. Every result of the fused list is one of the results handed in,
    with all its fields as the sub-search produced them (its [score] is not
    replaced by the accumulated score); and the results returned under two
    weights are the same up to their order, so that the accumulated score
    decides the order only. *)
Theorem fusion_returns_originals (sem kw : list SearchResult) (w : Q) :
  Forall (fun r => In r sem \/ In r kw) (_combine_search_results sem kw w)
  /\ (forall w' : Q,
        Permutation (_combine_search_results sem kw w)
                    (_combine_search_results sem kw w')).
Proof.
  split.
  - unfold _combine_search_results. apply Forall_map.
    apply Forall_forall. intros it Hit.
    pose proof (combined_scores_sources sem kw w) as Hsrc.
    rewrite Forall_forall in Hsrc.
    unfold sorted_results in Hit.
    apply (Permutation_in _ (sorted_reverse_perm item_score _)) in Hit.
    unfold dict_values in Hit. apply in_map_iff in Hit.
    destruct Hit as [kv [<- Hkv]]. now apply Hsrc.
  - intro w'. unfold _combine_search_results, sorted_results.
    rewrite !sorted_reverse_perm.
    rewrite (Forall2_map_eq same_result item_result item_result
               (dict_values (combined_scores sem kw w))
               (dict_values (combined_scores sem kw w'))).
    + apply Permutation_refl.
    + now intros a b H.
    + apply dict_values_Forall2, combined_scores_same_result.
Qed.

(** ** Order of the fused list *)

Lemma dict_ok_contents (combined : pydict item) :
  dict_ok combined ->
  map item_content (dict_values combined) = dict_keys combined.
Proof.
  intros [_ Hc]. unfold dict_values, dict_keys, item_content.
  induction Hc as [|kv l Hk Hl IH]; simpl; [reflexivity|]. now rewrite Hk, IH.
Qed.

Lemma combined_scores_contents (sem kw : list SearchResult) (w : Q) :
  map item_content (dict_values (combined_scores sem kw w)) =
  insertion_order (map content (sem ++ kw)).
Proof.
  rewrite dict_ok_contents by apply combined_scores_ok.
  apply combined_scores_keys.
Qed.

(** The entries of the semantic results come first. *)
Lemma combined_scores_split (sem kw : list SearchResult) (w : Q) :
  exists first second,
    dict_values (combined_scores sem kw w) = (first ++ second)%list
    /\ map item_content first = insertion_order (map content sem)
    /\ Forall (fun it => found_in sem (item_content it) = true) first
    /\ Forall (fun it => found_in sem (item_content it) = false
                         /\ found_in kw (item_content it) = true) second.
Proof.
  pose proof (combined_scores_contents sem kw w) as Hc.
  unfold insertion_order in Hc. rewrite map_app, fold_left_app in Hc.
  destruct (add_keys_grow (map content kw) (fold_left add_key (map content sem) []))
    as [extra [Hex Hextra]].
  rewrite Hex in Hc. apply map_eq_app in Hc.
  destruct Hc as [first [second [Hsplit [Hfirst Hsecond]]]].
  exists first, second. split; [exact Hsplit|]. split; [exact Hfirst|]. split.
  - apply Forall_forall. intros it Hit. apply found_in_In.
    assert (Hin : In (item_content it) (fold_left add_key (map content sem) [])).
    { rewrite <- Hfirst. now apply in_map. }
    apply add_keys_In in Hin. simpl in Hin. tauto.
  - apply Forall_forall. intros it Hit.
    assert (Hin : In (item_content it) extra).
    { rewrite <- Hsecond. now apply in_map. }
    rewrite Forall_forall in Hextra. destruct (Hextra _ Hin) as [Hout Hkw].
    split; [|now apply found_in_In].
    destruct (found_in sem (item_content it)) eqn:E; [|reflexivity].
    exfalso. apply Hout. apply add_keys_In. right. now apply found_in_In.
Qed.


(** ** The extreme weights *)

Lemma In_dict_get {V : Type} (dict : pydict V) (k : string) (v : V) :
  NoDup (dict_keys dict) -> In (k, v) dict -> dict_get dict k = Some v.
Proof.
  induction dict as [|[k0 v0] dict IH]; simpl; [tauto|].
  intros Hnd [H|H].
  - injection H as -> ->. now rewrite String.eqb_refl.
  - inversion Hnd as [|? ? Hout Hnd']; subst.
    destruct (String.eqb_spec k0 k) as [->|Hne].
    + exfalso. apply Hout. unfold dict_keys.
      change k with (fst (k, v)). now apply in_map.
    + now apply IH.
Qed.

Lemma dict_ok_get (combined : pydict item) (it : item) :
  dict_ok combined -> In it (dict_values combined) ->
  dict_get combined (item_content it) = Some it.
Proof.
  intros [Hnd Hc] Hin. unfold dict_values in Hin. apply in_map_iff in Hin.
  destruct Hin as [[k v] [Hv Hin]]. simpl in Hv. subst v.
  rewrite Forall_forall in Hc. pose proof (Hc _ Hin) as Hk. simpl in Hk.
  unfold item_content. rewrite Hk. now apply In_dict_get.
Qed.

Lemma Forall2_by_content (R : item -> item -> Prop) (l l' : list item) :
  map item_content l = map item_content l' ->
  (forall it it', In it l -> In it' l' ->
                  item_content it = item_content it' -> R it it') ->
  Forall2 R l l'.
Proof.
  revert l'. induction l as [|a l IH]; intros [|b l'] Hmap HR;
    try discriminate; constructor.
  - injection Hmap as Hab _. apply HR; simpl; auto.
  - injection Hmap as _ Hmap. apply IH; [exact Hmap|].
    intros it it' Hit Hit'. apply HR; simpl; auto.
Qed.

(** Keyword results weighted by zero leave an entry as it is. *)
Lemma keyword_at_zero (k : Q) (l : list SearchResult) (it : item) :
  k == 0 ->
  exists it', fold_left (keyword_at k) l (Some it) = Some it' /\ same_item it' it.
Proof.
  intro Hk. revert it. induction l as [|r l IH]; intro it; simpl.
  - exists it. split; [reflexivity|]. split; reflexivity.
  - destruct (IH {| item_result := item_result it;
                    item_score := item_score it + score r * k |})
      as [it' [Heq [H1 H2]]].
    exists it'. split; [exact Heq|]. simpl in *. split; [exact H1|].
    rewrite H2, Hk. ring.
Qed.

(** An entry made of keyword results alone, all weighted by zero. *)
Lemma keyword_at_zero_new (k : Q) (l : list SearchResult) :
  k == 0 ->
  match fold_left (keyword_at k) l None with
  | Some it => item_score it == 0
  | None => True
  end.
Proof.
  intro Hk. destruct l as [|r l]; simpl; [exact I|].
  destruct (keyword_at_zero k l
              {| item_result := r; item_score := score r * k |} Hk)
    as [it' [Heq [_ H2]]].
  rewrite Heq, H2. simpl. rewrite Hk. ring.
Qed.

Lemma semantic_at_last (w : Q) (l : list SearchResult) (o : option item) :
  fold_left (semantic_at w) l o =
  match rev l with
  | r :: _ => Some {| item_result := r; item_score := score r * w |}
  | [] => o
  end.
Proof.
  revert o. induction l as [|r l IH]; intro o; simpl; [reflexivity|].
  rewrite IH. destruct (rev l) eqn:E; simpl; reflexivity.
Qed.

Lemma filter_nil_found_in (l : list SearchResult) (c : string) :
  found_in l c = false <-> filter (has_content c) l = [].
Proof.
  unfold found_in. induction l as [|r l IH]; simpl; [tauto|].
  destruct (has_content c r); simpl; [|exact IH].
  split; discriminate.
Qed.

(** Keyword results added to an entry or opening it: the same sum. *)
Lemma keyword_at_same_score (k : Q) (l : list SearchResult) (a b : item) :
  item_score a == item_score b ->
  exists a' b',
    fold_left (keyword_at k) l (Some a) = Some a'
    /\ fold_left (keyword_at k) l (Some b) = Some b'
    /\ item_score a' == item_score b'.
Proof.
  revert a b. induction l as [|r l IH]; intros a b Hab; simpl.
  - now exists a, b.
  - apply IH. simpl. now rewrite Hab.
Qed.

Lemma filter_all {A : Type} (p : A -> bool) (l : list A) :
  Forall (fun a => p a = true) l -> filter p l = l.
Proof.
  induction 1 as [|a l Ha Hl IH]; simpl; [reflexivity|]. now rewrite Ha, IH.
Qed.

Lemma filter_none {A : Type} (p : A -> bool) (l : list A) :
  Forall (fun a => p a = false) l -> filter p l = [].
Proof.
  induction 1 as [|a l Ha Hl IH]; simpl; [reflexivity|]. now rewrite Ha, IH.
Qed.

Lemma sorted_results_In (sem kw : list SearchResult) (w : Q) (it : item) :
  In it (sorted_results sem kw w) ->
  dict_get (combined_scores sem kw w) (item_content it) = Some it.
Proof.
  intro Hin. apply dict_ok_get; [apply combined_scores_ok|].
  apply (Permutation_in _ (sorted_reverse_perm item_score _)). exact Hin.
Qed.

(** With keyword weight zero, the entries of the semantic contents are the
    entries of semantic-only fusion, in the same order. *)
Lemma semantic_entries_kept (sem kw : list SearchResult) (w : Q) :
  1 - w == 0 ->
  Forall2 same_item
    (filter (fun it => found_in sem (item_content it)) (sorted_results sem kw w))
    (sorted_results sem [] w).
Proof.
  intro Hk. unfold sorted_results at 1. rewrite filter_sorted_reverse.
  destruct (combined_scores_split sem kw w)
    as [first [second [Hsplit [Hfirst [Htrue Hfalse]]]]].
  rewrite Hsplit, filter_app.
  rewrite (filter_all _ first) by exact Htrue.
  rewrite (filter_none _ second)
    by (eapply Forall_impl; [|exact Hfalse]; simpl; tauto).
  rewrite app_nil_r. unfold sorted_results.
  apply (sorted_reverse_Forall2 item_score item_score same_item);
    [now intros a b [_ H]|].
  apply Forall2_by_content.
  - rewrite Hfirst, combined_scores_contents. now rewrite app_nil_r.
  - intros it it0 Hit Hit0 Hc.
    assert (H1 : dict_get (combined_scores sem kw w) (item_content it) = Some it).
    { apply dict_ok_get; [apply combined_scores_ok|].
      rewrite Hsplit. apply in_or_app. now left. }
    assert (H0 : dict_get (combined_scores sem [] w) (item_content it) = Some it0).
    { rewrite Hc. apply dict_ok_get; [apply combined_scores_ok|exact Hit0]. }
    rewrite combined_scores_at in H1, H0. simpl in H0. rewrite H0 in H1.
    destruct (keyword_at_zero (1 - w)
                (filter (has_content (item_content it)) kw) it0 Hk)
      as [it' [Heq Hsame]].
    rewrite Heq in H1. injection H1 as <-. exact Hsame.
Qed.

(** C4, as amended. With weight 1 every keyword result adds zero: the
    fused list, restricted to the contents found by the semantic search, is
    the fused list of the semantic results alone, entry by entry under the
    same accumulated scores; the contents that only the keyword search found
    are still returned, ranked under the accumulated score 0.  With weight 0
    every semantic result adds zero: a content found by the keyword search
    is ranked under the accumulated score it has in the fusion of the
    keyword results alone, and the contents that only the semantic search
    found are still returned, ranked under the accumulated score 0. *)
Theorem fusion_weight_law (sem kw : list SearchResult) :
  Forall2 same_item
    (filter (fun it => found_in sem (item_content it)) (sorted_results sem kw 1))
    (sorted_results sem [] 1)
  /\ filter (fun r => found_in sem (content r)) (_combine_search_results sem kw 1)
     = _combine_search_results sem [] 1
  /\ Forall (fun it => found_in sem (item_content it) = false -> item_score it == 0)
       (sorted_results sem kw 1)
  /\ (forall c : string,
        found_in kw c = true ->
        exists it it',
          dict_get (combined_scores sem kw 0) c = Some it
          /\ dict_get (combined_scores [] kw 0) c = Some it'
          /\ item_score it == item_score it')
  /\ Forall (fun it => found_in kw (item_content it) = false -> item_score it == 0)
       (sorted_results sem kw 0).
Proof.
  assert (H11 : 1 - 1 == 0) by ring.
  split; [now apply semantic_entries_kept|].
  split.
  { unfold _combine_search_results. rewrite filter_map_comm.
    apply (Forall2_map_eq same_item); [now intros a b [H _]|].
    now apply semantic_entries_kept. }
  split.
  { apply Forall_forall. intros it Hit Hout.
    apply sorted_results_In in Hit. rewrite combined_scores_at in Hit.
    apply filter_nil_found_in in Hout. rewrite Hout in Hit. simpl in Hit.
    pose proof (keyword_at_zero_new (1 - 1)
                  (filter (has_content (item_content it)) kw) H11) as Hz.
    now rewrite Hit in Hz. }
  split.
  { intros c Hc. rewrite !combined_scores_at. simpl (filter _ []).
    simpl (fold_left _ [] None).
    destruct (filter (has_content c) kw) as [|r l] eqn:Ekw.
    { apply filter_nil_found_in in Ekw. congruence. }
    rewrite semantic_at_last. simpl.
    destruct (rev (filter (has_content c) sem)) as [|s _].
    - destruct (keyword_at_same_score (1 - 0) l
                  {| item_result := r; item_score := score r * (1 - 0) |}
                  {| item_result := r; item_score := score r * (1 - 0) |})
        as [a' [b' [Ha [Hb Hab]]]]; [reflexivity|].
      exists a', b'. split; [exact Ha|]. split; [exact Hb|exact Hab].
    - destruct (keyword_at_same_score (1 - 0) l
                  {| item_result := s;
                     item_score := score s * 0 + score r * (1 - 0) |}
                  {| item_result := r; item_score := score r * (1 - 0) |})
        as [a' [b' [Ha [Hb Hab]]]]; [simpl; ring|].
      exists a', b'. split; [exact Ha|]. split; [exact Hb|exact Hab]. }
  apply Forall_forall. intros it Hit Hout.
  apply sorted_results_In in Hit. rewrite combined_scores_at in Hit.
  apply filter_nil_found_in in Hout. rewrite Hout in Hit. simpl in Hit.
  rewrite semantic_at_last in Hit.
  destruct (rev (filter (has_content (item_content it)) sem)); [discriminate|].
  injection Hit as <-. simpl. ring.
Qed.

(** C2, the claim as stated fails: the one fused result for the shared
    content carries the score of the semantic result, not the weighted
    sum. *)
Lemma dedup_law_counterexample :
  content Scenario.sem_a = content Scenario.kw_a
  /\ _combine_search_results [Scenario.sem_a] [Scenario.kw_a] (1 # 2)
     = [Scenario.sem_a]
  /\ ~ score Scenario.sem_a
       == score Scenario.sem_a * (1 # 2) + score Scenario.kw_a * (1 - (1 # 2)).
Proof.
  split; [reflexivity|]. split; [reflexivity|].
  intro H. vm_compute in H. discriminate H.
Qed.

Lemma dedup_law_witness :
  filter (has_content (content Scenario.sem_a))
    (_combine_search_results [Scenario.sem_b; Scenario.sem_a]
       [Scenario.kw_c; Scenario.kw_a] (1 # 2))
  = [Scenario.sem_a]
  /\ filter (fun it => has_content (content Scenario.sem_a) (item_result it))
       (sorted_results [Scenario.sem_b; Scenario.sem_a]
          [Scenario.kw_c; Scenario.kw_a] (1 # 2))
     = [ {| item_result := Scenario.sem_a;
            item_score := score Scenario.sem_a * (1 # 2)
                          + score Scenario.kw_a * (1 - (1 # 2)) |} ].
Proof.
  apply (dedup_law [Scenario.sem_b; Scenario.sem_a]
           [Scenario.kw_c; Scenario.kw_a] (1 # 2) Scenario.sem_a Scenario.kw_a);
    reflexivity.
Defined.

(** C4, the claim as stated fails: under either extreme weight the results
    of the other path are still in the fused list. *)
Lemma fusion_weight_law_counterexample :
  _combine_search_results [Scenario.sem_a] [Scenario.kw_c] 1
  = [Scenario.sem_a; Scenario.kw_c]
  /\ _combine_search_results [Scenario.sem_a] [] 1 = [Scenario.sem_a]
  /\ _combine_search_results [Scenario.sem_a] [Scenario.kw_c] 1
     <> _combine_search_results [Scenario.sem_a] [] 1
  /\ _combine_search_results [Scenario.sem_a] [Scenario.kw_c] 0
     = [Scenario.kw_c; Scenario.sem_a]
  /\ _combine_search_results [] [Scenario.kw_c] 0 = [Scenario.kw_c]
  /\ _combine_search_results [Scenario.sem_a] [Scenario.kw_c] 0
     <> _combine_search_results [] [Scenario.kw_c] 0.
Proof.
  repeat split; try reflexivity; intro H; vm_compute in H; discriminate H.
Qed.

(** ** Runs of the collaborators *)

Lemma logged_logged (st : state) (evs evs' : list event) :
  logged (logged st evs) evs' = logged st (evs ++ evs').
Proof. unfold logged. simpl. now rewrite app_assoc. Qed.

Lemma logged_nil (st : state) : logged st [] = st.
Proof. destruct st. unfold logged. simpl. now rewrite app_nil_r. Qed.

Lemma encode_run (text : string) (st : state) :
  encode text st = (encoder (self st) text, logged st [Encode text]).
Proof. reflexivity. Qed.

Lemma es_get_run (index_name id : string) (st : state) :
  es_get index_name id st =
  (got (self st) index_name id, logged st [EsGet index_name id]).
Proof.
  unfold es_get, got, bind, emit, get_self, logged. simpl.
  destruct (es_alive (es (self st))); [|reflexivity].
  now destruct (es_lookup (es_docs (es (self st))) (index_name, id)).
Qed.

Lemma faiss_search_run (x : vector) (k : nat) (st : state) :
  faiss_search x k st = (faiss_answer (self st) x k, logged st [FaissSearch k]).
Proof.
  unfold faiss_search, faiss_answer, bind, emit, get_self, logged. simpl.
  now destruct (Nat.eqb (length x) (d (index (self st))) && negb (Nat.eqb k 0)).
Qed.

Lemma es_search_run (index_name : string) (q : BoolQuery) (size : nat)
    (st : state) :
  es_search index_name q size st =
  (es_answer (self st) index_name q size, logged st [EsSearch index_name q size]).
Proof.
  unfold es_search, es_answer, bind, emit, get_self, logged. simpl.
  destruct (es_alive (es (self st))); [|reflexivity].
  destruct (index_exists (es (self st)) index_name); [|reflexivity].
  now destruct (Z.of_nat size <=? max_result_window)%Z.
Qed.

(** The loop of the semantic search leaves the service as it is; its
    outcome and its requests are functions of the service. *)
Lemma semantic_loop_run (platform : string) (hits : list (Z * Q))
    (results : list SearchResult) (st : state) :
  semantic_loop platform hits results st =
  (fetch_results (self st) platform hits results,
   logged st (fetch_requests (self st) platform hits)).
Proof.
  revert results st.
  induction hits as [|[idx distance] hits IH]; intros results st; simpl.
  - unfold ret. now rewrite logged_nil.
  - unfold valid. simpl. destruct (negb (idx =? -1)%Z).
    + unfold bind. rewrite es_get_run.
      destruct (got (self st) (docs_index platform) (str idx)) as [doc|e].
      * rewrite IH, logged_logged. reflexivity.
      * reflexivity.
    + apply IH.
Qed.

Lemma _semantic_search_run (x : vector) (platform : string) (k : nat)
    (st : state) :
  _semantic_search x platform k st =
  match faiss_answer (self st) x k with
  | Returns hits =>
      (fetch_results (self st) platform hits [],
       logged st (FaissSearch k :: fetch_requests (self st) platform hits))
  | Raises e => (Raises e, logged st [FaissSearch k])
  end.
Proof.
  unfold _semantic_search, bind. rewrite faiss_search_run.
  destruct (faiss_answer (self st) x k) as [hits|e]; [|reflexivity].
  rewrite semantic_loop_run, logged_logged. reflexivity.
Qed.

Lemma faiss_answer_hits (s : SearchService) (x : vector) (k : nat)
    (hits : list (Z * Q)) :
  faiss_answer s x k = Returns hits -> hits = knn (index s) x k.
Proof.
  unfold faiss_answer.
  destruct (Nat.eqb (length x) (d (index s)) && negb (Nat.eqb k 0));
    [|discriminate].
  now intros [= <-].
Qed.

Lemma faiss_answer_ok (s : SearchService) (x : vector) (k : nat) :
  length x = d (index s) -> k <> 0%nat ->
  faiss_answer s x k = Returns (knn (index s) x k).
Proof.
  intros Hlen Hk. unfold faiss_answer.
  rewrite Hlen, Nat.eqb_refl.
  apply Nat.eqb_neq in Hk. now rewrite Hk.
Qed.

Lemma _keyword_search_run (query platform : string) (k : nat) (st : state) :
  _keyword_search query platform k st =
  (match es_answer (self st) (docs_index platform) (search_query query platform) k
   with
   | Returns hits => Returns (map (keyword_result platform) hits)
   | Raises e => Raises e
   end,
   logged st [EsSearch (docs_index platform) (search_query query platform) k]).
Proof.
  unfold _keyword_search, bind. rewrite es_search_run.
  now destruct (es_answer (self st) (docs_index platform)
                  (search_query query platform) k).
Qed.

Lemma es_answer_hits (s : SearchService) (index_name : string) (q : BoolQuery)
    (size : nat) (hits : list (Source * Q)) :
  es_answer s index_name q size = Returns hits ->
  hits = es_hits (es s) index_name q size.
Proof.
  unfold es_answer.
  destruct (es_alive (es s)); [|discriminate].
  destruct (index_exists (es s) index_name); [|discriminate].
  destruct (Z.of_nat size <=? max_result_window)%Z; [|discriminate].
  now intros [= <-].
Qed.

(** ** Failures *)

(** C8. [search] has no handler: an exception of the encoder, of the
    semantic sub-search or of the keyword sub-search is the outcome of the
    whole call, and a list is returned only when all three have returned. *)
Theorem failure_propagates (query platform : string) (top_k : nat) (st : state) :
  (forall e st1,
      encode query st = (Raises e, st1) ->
      search query platform top_k st = (Raises e, st1))
  /\ (forall v st1 e st2,
        encode query st = (Returns v, st1) ->
        _semantic_search v platform top_k st1 = (Raises e, st2) ->
        search query platform top_k st = (Raises e, st2))
  /\ (forall v st1 sem st2 e st3,
        encode query st = (Returns v, st1) ->
        _semantic_search v platform top_k st1 = (Returns sem, st2) ->
        _keyword_search query platform top_k st2 = (Raises e, st3) ->
        search query platform top_k st = (Raises e, st3))
  /\ (forall results st',
        search query platform top_k st = (Returns results, st') ->
        exists v st1 sem st2 kw,
          encode query st = (Returns v, st1)
          /\ _semantic_search v platform top_k st1 = (Returns sem, st2)
          /\ _keyword_search query platform top_k st2 = (Returns kw, st')
          /\ results = _combine_search_results sem kw default_semantic_weight).
Proof.
  unfold search, bind. repeat split.
  - intros e st1 H. now rewrite H.
  - intros v st1 e st2 H1 H2. now rewrite H1, H2.
  - intros v st1 sem st2 e st3 H1 H2 H3. now rewrite H1, H2, H3.
  - intros results st'.
    destruct (encode query st) as [[v|e] st1]; [|discriminate].
    destruct (_semantic_search v platform top_k st1) as [[sem|e] st2] eqn:Hsem;
      [|discriminate].
    destruct (_keyword_search query platform top_k st2) as [[kw|e] st3] eqn:Hkw;
      [|discriminate].
    unfold ret. intros [= <- <-].
    now exists v, st1, sem, st2, kw.
Qed.

Lemma failure_propagates_witness :
  fst (search "add a source" "Segment" 3 (start Scenario.no_model))
  = Raises (EncoderError "model not loaded")
  /\ fst (search "add a source" "Segment" 3 (start Scenario.two_platforms))
     = Raises NotFoundError
  /\ fst (search "add a source" "Segment" 3 (start Scenario.unplugged))
     = Raises ConnectionError.
Proof.
  split; [|split].
  - destruct (failure_propagates "add a source" "Segment" 3
                (start Scenario.no_model)) as [H _].
    exact (f_equal fst (H _ _ eq_refl)).
  - destruct (failure_propagates "add a source" "Segment" 3
                (start Scenario.two_platforms)) as [_ [H _]].
    exact (f_equal fst (H _ _ _ _ eq_refl eq_refl)).
  - destruct (failure_propagates "add a source" "Segment" 3
                (start Scenario.unplugged)) as [_ [_ [H _]]].
    exact (f_equal fst (H _ _ _ _ _ _ eq_refl eq_refl eq_refl)).
Defined.

(** ** Order of the requests *)

Lemma fetch_requests_no_keyword (s : SearchService) (platform : string)
    (hits : list (Z * Q)) :
  existsb is_keyword_request (fetch_requests s platform hits) = false.
Proof.
  induction hits as [|hit hits IH]; simpl; [reflexivity|].
  destruct (valid hit); [|exact IH]. simpl.
  now destruct (got s (docs_index platform) (str (fst hit))).
Qed.

Lemma semantic_phase_run (query platform : string) (top_k : nat) (st : state) :
  exists evs,
    snd (semantic_phase query platform top_k st) = logged st evs
    /\ existsb is_keyword_request evs = false.
Proof.
  unfold semantic_phase, bind. rewrite encode_run.
  destruct (encoder (self st) query) as [v|e].
  - rewrite _semantic_search_run. simpl.
    destruct (faiss_answer (self st) v top_k) as [hits|e]; simpl.
    + rewrite logged_logged. eexists. split; [reflexivity|].
      simpl. apply fetch_requests_no_keyword.
    + rewrite logged_logged. eexists. split; reflexivity.
  - eexists. split; reflexivity.
Qed.

(** C9, what the code does instead. The two sub-searches run one after the
    other: the request of the keyword search is sent once the embedding and
    the semantic sub-search have returned, after every request they made,
    and it is never sent when one of them raises. *)
Theorem search_is_sequential (query platform : string) (top_k : nat) (st : state) :
  match semantic_phase query platform top_k st with
  | (Returns sem, st1) =>
      snd (search query platform top_k st) =
      logged st1 [EsSearch (docs_index platform) (search_query query platform) top_k]
  | (Raises e, st1) => search query platform top_k st = (Raises e, st1)
  end
  /\ (exists evs,
        snd (semantic_phase query platform top_k st) = logged st evs
        /\ existsb is_keyword_request evs = false).
Proof.
  split; [|apply semantic_phase_run].
  unfold semantic_phase, search, bind.
  destruct (encode query st) as [[v|e] st1]; [|reflexivity].
  destruct (_semantic_search v platform top_k st1) as [[sem|e] st2];
    [|reflexivity].
  rewrite _keyword_search_run.
  now destruct (es_answer (self st2) (docs_index platform)
                  (search_query query platform) top_k).
Qed.

(** The requests of one search over one indexed document, and of one that
    meets a position of another platform. *)
Lemma requests_in_sequence_example :
  trace (snd (search "add a source" "Segment" 3 (start Scenario.one_document)))
  = [Encode "add a source"; FaissSearch 3; EsGet "segment_docs" "0";
     EsSearch "segment_docs" (search_query "add a source" "Segment") 3]
  /\ trace (snd (search "add a source" "Segment" 3 (start Scenario.two_platforms)))
     = [Encode "add a source"; FaissSearch 3; EsGet "segment_docs" "1"].
Proof. split; vm_compute; reflexivity. Qed.

(** ** The empty service *)







(** ** Positions without a document *)

Lemma fetch_results_stale (s : SearchService) (platform : string)
    (hits : list (Z * Q)) (results : list SearchResult) (P : Z) (distance : Q) :
  es_alive (es s) = true ->
  In (P, distance) hits -> P <> (-1)%Z ->
  es_lookup (es_docs (es s)) (docs_index platform, str P) = None ->
  fetch_results s platform hits results = Raises NotFoundError.
Proof.
  intros Halive Hin HP Hnone. revert results.
  induction hits as [|hit hits IH]; intro results; [contradiction|].
  simpl. destruct Hin as [->|Hin].
  - unfold valid, got. simpl.
    destruct (Z.eqb_spec P (-1)) as [|_]; [contradiction|]. simpl.
    now rewrite Halive, Hnone.
  - destruct (valid hit); [|now apply IH].
    unfold got. rewrite Halive.
    destruct (es_lookup (es_docs (es s)) (docs_index platform, str (fst hit)));
      [now apply IH|reflexivity].
Qed.

(** C1, as amended. When the encoder and the cluster answer and the index
    returns a position [P] other than the padding label [-1] for which the
    partition of the platform holds no document under [str(P)], the fetch
    raises and the search call ends with [NotFoundError]: no fused list is
    returned. *)
Theorem stale_pointer_raises (query platform : string) (top_k : nat)
    (st : state) (v : vector) (P : Z) (distance : Q) :
  encoder (self st) query = Returns v ->
  length v = d (index (self st)) ->
  es_alive (es (self st)) = true ->
  In (P, distance) (knn (index (self st)) v top_k) ->
  P <> (-1)%Z ->
  es_lookup (es_docs (es (self st))) (docs_index platform, str P) = None ->
  fst (search query platform top_k st) = Raises NotFoundError.
Proof.
  intros Henc Hdim Halive Hin HP Hnone.
  assert (Hk : top_k <> 0%nat) by (intros ->; contradiction).
  unfold search, bind. rewrite encode_run, Henc.
  rewrite _semantic_search_run. simpl.
  rewrite faiss_answer_ok by assumption.
  now rewrite (fetch_results_stale _ _ _ _ P distance Halive Hin HP Hnone).
Qed.

(** C1, the claim as stated fails: after one document was indexed for each
    of two platforms, the index returns position 1, the Segment partition
    holds nothing under "1", and the search raises. *)
Lemma stale_pointer_counterexample :
  In (1%Z, 49) (knn (index Scenario.two_platforms) [12] 3)
  /\ Scenario.length_encoder "add a source" = Returns [12]
  /\ es_lookup (es_docs (es Scenario.two_platforms)) (docs_index "Segment", str 1)
     = None
  /\ fst (search "add a source" "Segment" 3 (start Scenario.two_platforms))
     = Raises NotFoundError.
Proof.
  split; [left; reflexivity|]. repeat split; reflexivity.
Qed.

Lemma stale_pointer_raises_witness :
  fst (search "add a source" "Segment" 3 (start Scenario.two_platforms))
  = Raises NotFoundError.
Proof.
  apply (stale_pointer_raises "add a source" "Segment" 3
           (start Scenario.two_platforms) [12] 1%Z 49);
    try reflexivity.
  - left. reflexivity.
  - discriminate.
Defined.

(** ** Rounding to float32 *)

Lemma rne_bounds (x : Q) : (Qfloor x <= rne x <= Qfloor x + 1)%Z.
Proof.
  unfold rne. destruct (Qcompare (x - inject_Z (Qfloor x)) (1 # 2)); try lia.
  destruct (Z.even (Qfloor x)); lia.
Qed.

Lemma rne_inject_Z (k : Z) : rne (inject_Z k) = k.
Proof.
  unfold rne. rewrite Qfloor_Z.
  destruct (Qcompare_spec (inject_Z k - inject_Z k) (1 # 2)) as [H|H|H];
    [lra|reflexivity|lra].
Qed.

Lemma rne_mono (x y : Q) : x <= y -> (rne x <= rne y)%Z.
Proof.
  intro Hxy. pose proof (Qfloor_resp_le x y Hxy) as Hf.
  destruct (Z.eq_dec (Qfloor x) (Qfloor y)) as [E|NE].
  - unfold rne. rewrite <- E.
    destruct (Qcompare_spec (x - inject_Z (Qfloor x)) (1 # 2)) as [Hx|Hx|Hx];
    destruct (Qcompare_spec (y - inject_Z (Qfloor x)) (1 # 2)) as [Hy|Hy|Hy];
      try lia; try (destruct (Z.even (Qfloor x)); lia); lra.
  - pose proof (rne_bounds x). pose proof (rne_bounds y). lia.
Qed.

(** The nearest integer is within one half. *)
Lemma rne_near (x : Q) :
  x - (1 # 2) <= inject_Z (rne x) /\ inject_Z (rne x) <= x + (1 # 2).
Proof.
  pose proof (Qfloor_le x) as Hlo. pose proof (Qlt_floor x) as Hhi.
  rewrite inject_Z_plus in Hhi. change (inject_Z 1) with 1 in Hhi.
  unfold rne.
  destruct (Qcompare_spec (x - inject_Z (Qfloor x)) (1 # 2)) as [H|H|H].
  - destruct (Z.even (Qfloor x));
      [|rewrite inject_Z_plus; change (inject_Z 1) with 1]; lra.
  - lra.
  - rewrite inject_Z_plus. change (inject_Z 1) with 1. lra.
Qed.

Lemma pow2_pos (e : Z) : 0 < 2 ^ e.
Proof. apply Qpower_0_lt. lra. Qed.

Lemma pow2_plus (a b : Z) : 2 ^ (a + b) == 2 ^ a * 2 ^ b.
Proof. apply Qpower_plus. lra. Qed.

Lemma pow2_le (a b : Z) : (a <= b)%Z -> 2 ^ a <= 2 ^ b.
Proof. intro H. apply Qpower_le_compat_l; [exact H|lra]. Qed.

Lemma pow2_lt_inv (a b : Z) : 2 ^ a < 2 ^ b -> (a < b)%Z.
Proof. intro H. apply (Qpower_lt_compat_l_inv 2); [exact H|lra]. Qed.

Lemma pow2_Z (n : Z) : (0 <= n)%Z -> 2 ^ n == inject_Z (2 ^ n).
Proof. intro H. now rewrite Zpower_Qpower. Qed.

Lemma ilog2_spec (x : Q) : 0 < x -> 2 ^ ilog2 x <= x /\ x < 2 ^ (ilog2 x + 1).
Proof.
  intro Hx. destruct x as [n dd]. unfold ilog2. simpl Qnum. simpl Qden.
  assert (Hn : (0 < n)%Z).
  { unfold Qlt in Hx. simpl in Hx. lia. }
  set (ln := Z.log2 n). set (ld := Z.log2 (Z.pos dd)).
  pose proof (Z.log2_spec n Hn) as [Hn1 Hn2].
  pose proof (Z.log2_spec (Z.pos dd) eq_refl) as [Hd1 Hd2].
  fold ln in Hn1, Hn2. fold ld in Hd1, Hd2.
  assert (Hln : (0 <= ln)%Z) by apply Z.log2_nonneg.
  assert (Hld : (0 <= ld)%Z) by apply Z.log2_nonneg.
  assert (Hx' : n # dd == inject_Z n / inject_Z (Z.pos dd)) by apply Qmake_Qdiv.
  assert (Hdpos : 0 < inject_Z (Z.pos dd)).
  { unfold Qlt. simpl. lia. }
  assert (Qn1 : 2 ^ ln <= inject_Z n).
  { rewrite pow2_Z by exact Hln. rewrite <- Zle_Qle. exact Hn1. }
  assert (Qn2 : inject_Z n < 2 ^ (ln + 1)).
  { rewrite pow2_Z by lia. rewrite <- Zlt_Qlt. unfold Z.succ in Hn2. exact Hn2. }
  assert (Qd1 : 2 ^ ld <= inject_Z (Z.pos dd)).
  { rewrite pow2_Z by exact Hld. rewrite <- Zle_Qle. exact Hd1. }
  assert (Qd2 : inject_Z (Z.pos dd) < 2 ^ (ld + 1)).
  { rewrite pow2_Z by lia. rewrite <- Zlt_Qlt. unfold Z.succ in Hd2. exact Hd2. }
  assert (Hup : n # dd < 2 ^ (ln - ld + 1)).
  { rewrite Hx'. apply Qlt_shift_div_r; [exact Hdpos|].
    apply Qlt_le_trans with (2 ^ (ln + 1)); [exact Qn2|].
    replace (ln + 1)%Z with ((ln - ld + 1) + ld)%Z by lia.
    rewrite pow2_plus.
    apply Qmult_le_l; [apply pow2_pos|exact Qd1]. }
  assert (Hlow : 2 ^ (ln - ld - 1) <= n # dd).
  { rewrite Hx'. apply Qle_shift_div_l; [exact Hdpos|].
    apply Qle_trans with (2 ^ ln); [|exact Qn1].
    replace ln with ((ln - ld - 1) + (ld + 1))%Z at 2 by lia.
    rewrite pow2_plus.
    apply Qmult_le_l; [apply pow2_pos|]. now apply Qlt_le_weak. }
  destruct (Qle_bool (2 ^ (ln - ld)) (n # dd)) eqn:E.
  - apply Qle_bool_iff in E. split; assumption.
  - assert (Hlt : n # dd < 2 ^ (ln - ld)).
    { apply Qnot_le_lt. intro H. apply Qle_bool_iff in H. congruence. }
    split; [exact Hlow|].
    now replace (ln - ld - 1 + 1)%Z with (ln - ld)%Z by lia.
Qed.

Lemma ilog2_mono (x y : Q) : 0 < x -> x <= y -> (ilog2 x <= ilog2 y)%Z.
Proof.
  intros Hx Hxy.
  destruct (ilog2_spec x Hx) as [Hx1 _].
  destruct (ilog2_spec y) as [_ Hy2]; [lra|].
  assert (H : 2 ^ ilog2 x < 2 ^ (ilog2 y + 1)) by lra.
  apply pow2_lt_inv in H. lia.
Qed.

Lemma ilog2_unique (x : Q) (e : Z) :
  2 ^ e <= x -> x < 2 ^ (e + 1) -> ilog2 x = e.
Proof.
  intros H1 H2.
  assert (Hx : 0 < x) by (pose proof (pow2_pos e); lra).
  destruct (ilog2_spec x Hx) as [H3 H4].
  assert (Ha : 2 ^ e < 2 ^ (ilog2 x + 1)) by lra.
  assert (Hb : 2 ^ ilog2 x < 2 ^ (e + 1)) by lra.
  apply pow2_lt_inv in Ha, Hb. lia.
Qed.

Lemma round_on_eq (q : Z) (x : Q) :
  round_on q x == inject_Z (rne (x / 2 ^ q)) * 2 ^ q.
Proof. unfold round_on. apply Qred_correct. Qed.

Lemma round_on_mono (q : Z) (x y : Q) : x <= y -> round_on q x <= round_on q y.
Proof.
  intro H. rewrite !round_on_eq.
  apply Qmult_le_compat_r; [|apply Qlt_le_weak, pow2_pos].
  rewrite <- Zle_Qle. apply rne_mono.
  unfold Qdiv. apply Qmult_le_compat_r; [exact H|].
  apply Qlt_le_weak, Qinv_lt_0_compat, pow2_pos.
Qed.

(** A multiple of the step is its own rounding. *)
Lemma round_on_grid (q k : Z) : round_on q (inject_Z k * 2 ^ q) == inject_Z k * 2 ^ q.
Proof.
  rewrite round_on_eq.
  assert (H : inject_Z k * 2 ^ q / 2 ^ q == inject_Z k).
  { field. pose proof (pow2_pos q). lra. }
  assert (E : rne (inject_Z k * 2 ^ q / 2 ^ q) = k).
  { rewrite <- (rne_inject_Z k) at 2. unfold rne.
    rewrite (Qfloor_comp _ _ H). now rewrite H. }
  now rewrite E.
Qed.

(** The rounding is within half a step. *)
Lemma round_on_near (q : Z) (x : Q) :
  x - 2 ^ (q - 1) <= round_on q x /\ round_on q x <= x + 2 ^ (q - 1).
Proof.
  rewrite round_on_eq.
  pose proof (pow2_pos q) as Hq.
  assert (Hh : 2 ^ (q - 1) == (1 # 2) * 2 ^ q).
  { unfold Z.sub. rewrite pow2_plus. change (2 ^ (- (1))) with (1 # 2). ring. }
  assert (Hx : x == x / 2 ^ q * 2 ^ q) by (field; lra).
  destruct (rne_near (x / 2 ^ q)) as [H1 H2].
  rewrite Hh. clear Hh.
  revert H1 H2 Hx Hq.
  generalize (x / 2 ^ q). intro z. generalize (rne z). intro k.
  generalize (2 ^ q). intros P H1 H2 Hx HP.
  assert (A : (z - (1 # 2)) * P <= inject_Z k * P)
    by (apply Qmult_le_compat_r; lra).
  assert (B : inject_Z k * P <= (z + (1 # 2)) * P)
    by (apply Qmult_le_compat_r; lra).
  split; lra.
Qed.

Lemma round_on_nonneg (q : Z) (x : Q) : 0 <= x -> 0 <= round_on q x.
Proof.
  intro H. assert (E : 0 == inject_Z 0 * 2 ^ q) by ring.
  rewrite E at 1. rewrite <- round_on_grid. apply round_on_mono.
  now rewrite <- E.
Qed.

Lemma round_pos_mono (x y : Q) : 0 < x -> x <= y -> round_pos x <= round_pos y.
Proof.
  intros Hx Hxy. unfold round_pos.
  assert (Hy : 0 < y) by lra.
  pose proof (ilog2_mono x y Hx Hxy) as He.
  destruct (ilog2_spec x Hx) as [_ Hx2].
  destruct (ilog2_spec y Hy) as [Hy1 _].
  unfold ulp_exponent.
  set (ex := ilog2 x) in *. set (ey := ilog2 y) in *.
  destruct (Z.eq_dec (Z.max (ex - 23) (-149)) (Z.max (ey - 23) (-149))) as [E|NE].
  - rewrite E. now apply round_on_mono.
  - assert (Hq : (Z.max (ex - 23) (-149) < Z.max (ey - 23) (-149))%Z) by lia.
    assert (Hqy : Z.max (ey - 23) (-149) = (ey - 23)%Z) by lia.
    set (qx := Z.max (ex - 23) (-149)) in *.
    set (m := Z.max (ex + 1) qx).
    apply Qle_trans with (2 ^ m).
    + assert (Hm : 2 ^ m == inject_Z (2 ^ (m - qx)) * 2 ^ qx).
      { rewrite <- pow2_Z by lia. rewrite <- pow2_plus.
        now replace (m - qx + qx)%Z with m by lia. }
      rewrite Hm. rewrite <- round_on_grid. apply round_on_mono.
      rewrite <- Hm. apply Qle_trans with (2 ^ (ex + 1)); [lra|].
      apply pow2_le. lia.
    + rewrite Hqy. apply Qle_trans with (2 ^ ey); [apply pow2_le; lia|].
      assert (Hg : 2 ^ ey == inject_Z (2 ^ 23) * 2 ^ (ey - 23)).
      { rewrite <- pow2_Z by lia. rewrite <- pow2_plus.
        now replace (23 + (ey - 23))%Z with ey by lia. }
      rewrite Hg. rewrite <- round_on_grid. apply round_on_mono.
      now rewrite <- Hg.
Qed.

Lemma round32_pos (x : Q) : 0 < x -> round32 x = round_pos x.
Proof.
  intro H. unfold round32.
  destruct (Qcompare_spec x 0) as [E|E|E]; [lra|lra|reflexivity].
Qed.

(** Rounding keeps the order. *)
Lemma round32_mono (x y : Q) : 0 < x -> x <= y -> round32 x <= round32 y.
Proof.
  intros Hx Hxy. rewrite !round32_pos by lra. now apply round_pos_mono.
Qed.

Lemma round32_nonneg (x : Q) : 0 < x -> 0 <= round32 x.
Proof.
  intro H. rewrite round32_pos by exact H. apply round_on_nonneg. lra.
Qed.

(** The rounding of a positive number is within half a unit in its last
    place. *)
Lemma round32_near (x : Q) :
  0 < x ->
  x - 2 ^ (ulp_exponent x - 1) <= round32 x
  /\ round32 x <= x + 2 ^ (ulp_exponent x - 1).
Proof.
  intro H. rewrite round32_pos by exact H. apply round_on_near.
Qed.

(** ** The float32 score *)

Lemma reciprocal_le (a b : Q) : 0 < a -> a <= b -> 1 / b <= 1 / a.
Proof.
  intros Ha Hab. apply Qle_shift_div_r; [lra|].
  setoid_replace (1 / a * b) with (b / a) by (field; lra).
  apply Qle_shift_div_l; lra.
Qed.

Lemma round32_1 : round32 1 = 1.
Proof. reflexivity. Qed.

Lemma round32_sum_ge_1 (x : Q) : 0 <= x -> 1 <= round32 (1 + x).
Proof.
  intro H. apply Qle_trans with (round32 1); [rewrite round32_1; lra|].
  apply round32_mono; lra.
Qed.

Lemma score32_nonneg (x : Q) : 0 <= x -> 0 <= round32 (1 / round32 (1 + x)).
Proof.
  intro H. pose proof (round32_sum_ge_1 x H) as Hr.
  apply round32_nonneg. apply Qlt_shift_div_l; lra.
Qed.

Lemma score32_le_1 (x : Q) : 0 <= x -> round32 (1 / round32 (1 + x)) <= 1.
Proof.
  intro H. pose proof (round32_sum_ge_1 x H) as Hr.
  apply Qle_trans with (round32 1); [|rewrite round32_1; lra].
  apply round32_mono.
  - apply Qlt_shift_div_l; lra.
  - apply Qle_shift_div_r; lra.
Qed.

Lemma score32_positive (x : Q) :
  0 <= x -> x <= FLT_MAX -> 0 < round32 (1 / round32 (1 + x)).
Proof.
  intros H Hmax. pose proof (round32_sum_ge_1 x H) as Hr.
  assert (Hup : round32 (1 + x) <= FLT_MAX).
  { apply Qle_trans with (round32 (1 + FLT_MAX)).
    - apply round32_mono; lra.
    - vm_compute. discriminate. }
  apply Qlt_le_trans with (round32 (1 / FLT_MAX)).
  - vm_compute. reflexivity.
  - apply round32_mono; [vm_compute; reflexivity|].
    apply reciprocal_le; [lra|exact Hup].
Qed.

Lemma score32_mono (x y : Q) :
  0 <= x -> x <= y ->
  round32 (1 / round32 (1 + y)) <= round32 (1 / round32 (1 + x)).
Proof.
  intros H Hxy.
  pose proof (round32_sum_ge_1 x H) as Hrx.
  assert (Hy : 0 <= y) by lra.
  pose proof (round32_sum_ge_1 y Hy) as Hry.
  assert (Hle : round32 (1 + x) <= round32 (1 + y)) by (apply round32_mono; lra).
  apply round32_mono.
  - apply Qlt_shift_div_l; lra.
  - apply reciprocal_le; [lra|exact Hle].
Qed.

(** Up to [2^-24] the sum [1 + x] rounds to 1; above, to at least the
    next float32. *)
Lemma round32_sum_eq_1 (x : Q) :
  0 <= x -> x <= 1 # 16777216 -> round32 (1 + x) == 1.
Proof.
  intros H Hx. apply Qle_antisym.
  - apply Qle_trans with (round32 (1 + (1 # 16777216))).
    + apply round32_mono; lra.
    + vm_compute. discriminate.
  - now apply round32_sum_ge_1.
Qed.

Lemma round32_sum_gt_1 (x : Q) :
  1 # 16777216 < x -> 1 + (1 # 8388608) <= round32 (1 + x).
Proof.
  intro Hx. destruct (Qlt_le_dec x 1) as [Hlt|Hge].
  - assert (He : ilog2 (1 + x) = 0%Z).
    { apply ilog2_unique.
      - change (2 ^ 0) with 1. lra.
      - change (2 ^ (0 + 1)) with 2. lra. }
    assert (Hq : ulp_exponent (1 + x) = (-23)%Z).
    { unfold ulp_exponent. rewrite He. reflexivity. }
    rewrite round32_pos by lra. unfold round_pos. rewrite Hq.
    rewrite round_on_eq.
    change (2 ^ (-23)) with (1 # 8388608).
    destruct (rne_near ((1 + x) / (1 # 8388608))) as [Hlo _].
    assert (Hz : (8388608 < rne ((1 + x) / (1 # 8388608)))%Z).
    { rewrite Zlt_Qlt.
      apply Qlt_le_trans with ((1 + x) / (1 # 8388608) - (1 # 2)); [|exact Hlo].
      apply Qlt_minus_iff.
      setoid_replace ((1 + x) / (1 # 8388608) - (1 # 2) + - inject_Z 8388608)
        with ((x - (1 # 16777216)) * 8388608) by (unfold inject_Z; field).
      apply Qmult_lt_0_compat; lra. }
    assert (Hz' : inject_Z 8388609 <= inject_Z (rne ((1 + x) / (1 # 8388608)))).
    { rewrite <- Zle_Qle. lia. }
    apply Qle_trans with (inject_Z 8388609 * (1 # 8388608)).
    + vm_compute. discriminate.
    + apply Qmult_le_compat_r; [exact Hz'|lra].
  - apply Qle_trans with (round32 2).
    + vm_compute. discriminate.
    + apply round32_mono; lra.
Qed.

(** The score is 1 exactly up to the distance [2^-24]. *)
Lemma score32_eq_1 (x : Q) :
  0 <= x -> (round32 (1 / round32 (1 + x)) == 1 <-> x <= 1 # 16777216).
Proof.
  intro H. split.
  - intro E. apply Qnot_lt_le. intro Hx.
    pose proof (round32_sum_gt_1 x Hx) as Hr.
    assert (Hs : round32 (1 / round32 (1 + x))
                 <= round32 (1 / (1 + (1 # 8388608)))).
    { apply round32_mono.
      - apply Qlt_shift_div_l; lra.
      - apply reciprocal_le; [lra|exact Hr]. }
    assert (Hc : round32 (1 / (1 + (1 # 8388608))) < 1) by (vm_compute; reflexivity).
    lra.
  - intro Hx. apply Qle_antisym; [now apply score32_le_1|].
    pose proof (round32_sum_eq_1 x H Hx) as Hr.
    apply Qle_trans with (round32 1); [rewrite round32_1; lra|].
    apply round32_mono; [lra|].
    apply Qle_shift_div_l; lra.
Qed.

(** The rounding of a sum [a >= 1] is within [a * 2^-24]. *)
Lemma round32_relative (a : Q) :
  1 <= a ->
  a - a * (1 # 16777216) <= round32 a /\ round32 a <= a + a * (1 # 16777216).
Proof.
  intro Ha.
  assert (Hpos : 0 < a) by lra.
  destruct (ilog2_spec a Hpos) as [Hlo _].
  assert (He : (0 <= ilog2 a)%Z).
  { assert (H : 2 ^ 0 < 2 ^ (ilog2 a + 1)).
    { destruct (ilog2_spec a Hpos) as [_ Hhi]. change (2 ^ 0) with 1. lra. }
    apply pow2_lt_inv in H. lia. }
  assert (Hq : ulp_exponent a = (ilog2 a - 23)%Z) by (unfold ulp_exponent; lia).
  destruct (round32_near a Hpos) as [H1 H2]. rewrite Hq in H1, H2.
  assert (Hstep : 2 ^ (ilog2 a - 23 - 1) <= a * (1 # 16777216)).
  { replace (ilog2 a - 23 - 1)%Z with (ilog2 a + -24)%Z by lia.
    rewrite pow2_plus. change (2 ^ (-24)) with (1 # 16777216).
    apply Qmult_le_compat_r; [exact Hlo|lra]. }
  split; lra.
Qed.

(** The rounding of a quotient [0 < y <= 1] is within [2^-24]. *)
Lemma round32_absolute (y : Q) :
  0 < y -> y <= 1 ->
  y - (1 # 16777216) <= round32 y /\ round32 y <= y + (1 # 16777216).
Proof.
  intros Hy Hy1.
  assert (He : (ilog2 y <= 0)%Z).
  { destruct (ilog2_spec y Hy) as [Hlo _].
    assert (H : 2 ^ ilog2 y < 2 ^ 1) by (change (2 ^ 1) with 2; lra).
    apply pow2_lt_inv in H. lia. }
  destruct (round32_near y Hy) as [H1 H2].
  assert (Hstep : 2 ^ (ulp_exponent y - 1) <= 1 # 16777216).
  { change (1 # 16777216) with (2 ^ (-24)). apply pow2_le.
    unfold ulp_exponent. lia. }
  split; lra.
Qed.

Lemma reciprocal_near (a r : Q) :
  1 <= a -> 1 <= r ->
  a - a * (1 # 16777216) <= r -> r <= a + a * (1 # 16777216) ->
  1 / a - (1 # 16777216) <= 1 / r /\ 1 / r <= 1 / a + (1 # 16777216).
Proof.
  intros Ha Hr H1 H2.
  assert (Hu : 0 < 1 / r) by (apply Qlt_shift_div_l; lra).
  assert (Hw : 0 < 1 / a) by (apply Qlt_shift_div_l; lra).
  assert (Hu1 : 1 / r <= 1) by (apply Qle_shift_div_r; lra).
  assert (Huw : 0 <= 1 / r * (1 / a)).
  { apply Qmult_le_0_compat; lra. }
  assert (E1 : 1 / r - 1 / a == 1 / r * (1 / a) * (a - r)) by (field; lra).
  assert (E2 : 1 / r * (1 / a) * (a * (1 # 16777216)) == 1 / r * (1 # 16777216))
    by (field; lra).
  assert (B : 1 / r * (1 # 16777216) <= 1 # 16777216).
  { setoid_replace (1 # 16777216) with (1 * (1 # 16777216)) at 2 by ring.
    apply Qmult_le_compat_r; lra. }
  assert (B1 : 1 / r * (1 / a) * (a - r)
               <= 1 / r * (1 / a) * (a * (1 # 16777216))).
  { rewrite !(Qmult_comm (1 / r * (1 / a))).
    apply Qmult_le_compat_r; lra. }
  assert (B2 : 1 / r * (1 / a) * (r - a)
               <= 1 / r * (1 / a) * (a * (1 # 16777216))).
  { rewrite !(Qmult_comm (1 / r * (1 / a))).
    apply Qmult_le_compat_r; lra. }
  assert (E3 : 1 / r * (1 / a) * (r - a) == - (1 / r * (1 / a) * (a - r))) by ring.
  split; lra.
Qed.

(** The score is within [2^-23] of the exact quotient. *)
Lemma score32_accuracy (x : Q) :
  0 <= x ->
  1 / (1 + x) - (1 # 8388608) <= round32 (1 / round32 (1 + x))
  /\ round32 (1 / round32 (1 + x)) <= 1 / (1 + x) + (1 # 8388608).
Proof.
  intro H.
  pose proof (round32_sum_ge_1 x H) as Hr.
  assert (Ha : 1 <= 1 + x) by lra.
  destruct (round32_relative (1 + x) Ha) as [H1 H2].
  destruct (reciprocal_near (1 + x) (round32 (1 + x)) Ha Hr H1 H2) as [H3 H4].
  assert (Hy : 0 < 1 / round32 (1 + x)) by (apply Qlt_shift_div_l; lra).
  assert (Hy1 : 1 / round32 (1 + x) <= 1) by (apply Qle_shift_div_r; lra).
  destruct (round32_absolute _ Hy Hy1) as [H5 H6].
  split; lra.
Qed.

(** ** Distance and similarity *)

Lemma l2sq_nonneg (x y : vector) : 0 <= l2sq x y.
Proof.
  unfold l2sq. induction (combine x y) as [|p l IH]; simpl; [lra|].
  generalize (fst p - snd p). intro t.
  assert (0 <= t * t) by nra.
  lra.
Qed.

Lemma firstn_incl {A : Type} (n : nat) (l : list A) (a : A) :
  In a (firstn n l) -> In a l.
Proof.
  revert l. induction n as [|n IH]; intros [|b l]; simpl; try tauto.
  intros [H|H]; [now left|right; now apply IH].
Qed.

(** [enumerate(l, start)] pairs every element with its position. *)
Lemma In_enumerate {A : Type} (l : list A) (start : nat) (i : nat) (y : A) :
  In (i, y) (combine (seq start (length l)) l) ->
  (start <= i)%nat /\ nth_error l (i - start) = Some y.
Proof.
  revert start. induction l as [|a l IH]; intro start; simpl; [tauto|].
  intros [H|H].
  - injection H as <- <-. split; [lia|]. now rewrite Nat.sub_diag.
  - apply IH in H. destruct H as [Hle Hnth]. split; [lia|].
    replace (i - start)%nat with (S (i - S start)) by lia. exact Hnth.
Qed.

(** A hit of the index is the padding label or the position of a stored
    vector with its distance to the query. *)
Lemma knn_In (ix : IndexFlatL2) (x : vector) (k : nat) (idx : Z) (distance : Q) :
  In (idx, distance) (knn ix x k) ->
  (idx = (-1)%Z /\ distance = FLT_MAX)
  \/ (exists i y, idx = Z.of_nat i /\ nth_error (xb ix) i = Some y
                  /\ distance = l2sq x y).
Proof.
  unfold knn. intro H. apply in_app_or in H. destruct H as [H|H].
  - right. apply firstn_incl in H.
    apply (Permutation_in _ (stable_sort_perm snd _)) in H.
    apply in_map_iff in H. destruct H as [[i y] [Heq Hin]].
    simpl in Heq. injection Heq as <- <-. exists i, y.
    split; [reflexivity|]. split; [|reflexivity].
    unfold ntotal in Hin. apply In_enumerate in Hin.
    now rewrite Nat.sub_0_r in Hin.
  - left. apply repeat_spec in H. now injection H.
Qed.

Lemma knn_distance_nonneg (ix : IndexFlatL2) (x : vector) (k : nat) :
  Forall (fun hit => 0 <= snd hit) (knn ix x k).
Proof.
  apply Forall_forall. intros [idx distance] H. simpl.
  apply knn_In in H. destruct H as [[_ ->]|[i [y [_ [_ ->]]]]].
  - unfold FLT_MAX. lra.
  - apply l2sq_nonneg.
Qed.

(** The loop turns the valid hits, in their order, into results scored by
    the conversion. *)
Lemma fetch_results_scores (s : SearchService) (platform : string)
    (hits : list (Z * Q)) (results out : list SearchResult) :
  fetch_results s platform hits results = Returns out ->
  exists new,
    out = (results ++ new)%list
    /\ Forall2 (fun hit r => score r = round32 (1 / round32 (1 + snd hit)))
         (filter valid hits) new.
Proof.
  revert results. induction hits as [|hit hits IH]; intro results; simpl.
  - intros [= <-]. exists []. split; [now rewrite app_nil_r|constructor].
  - destruct (valid hit).
    + destruct (got s (docs_index platform) (str (fst hit))) as [doc|e];
        [|discriminate].
      intro H. apply IH in H. destruct H as [new [-> HF]].
      exists (semantic_result platform doc (snd hit) :: new). split.
      * now rewrite <- app_assoc.
      * constructor; [reflexivity|exact HF].
    + apply IH.
Qed.

(** C3, as amended. Every result of the semantic search carries the
    float32 score of the hit it comes from: the rounded quotient of 1 by
    the rounded sum [1 + distance], a number between 0 and 1.  For a
    distance [0 <= dist] the score is within [2^-23] of [1 / (1 + dist)];
    it is positive when [dist] is at most the largest float32; it is 1
    exactly when [dist <= 2^-24]; and a larger distance never gives a
    larger score. *)
Theorem similarity_law :
  (forall (x : vector) (p : string) (k : nat) (st st' : state)
          (rs : list SearchResult),
      _semantic_search x p k st = (Returns rs, st') ->
      Forall2 (fun hit r => score r = round32 (1 / round32 (1 + snd hit)))
              (filter valid (knn (index (self st)) x k)) rs
      /\ Forall (fun r => 0 <= score r /\ score r <= 1) rs)
  /\ (forall (p : string) (doc : Source) (dist : Q),
        0 <= dist ->
        score (semantic_result p doc dist) = round32 (1 / round32 (1 + dist))
        /\ 0 <= score (semantic_result p doc dist)
        /\ score (semantic_result p doc dist) <= 1
        /\ 1 / (1 + dist) - (1 # 8388608) <= score (semantic_result p doc dist)
        /\ score (semantic_result p doc dist) <= 1 / (1 + dist) + (1 # 8388608)
        /\ (dist <= FLT_MAX -> 0 < score (semantic_result p doc dist))
        /\ (score (semantic_result p doc dist) == 1 <-> dist <= 1 # 16777216))
  /\ (forall (p : string) (doc doc' : Source) (dist dist' : Q),
        0 <= dist -> dist <= dist' ->
        score (semantic_result p doc' dist') <= score (semantic_result p doc dist)).
Proof.
  split; [|split].
  - intros x p k st st' rs H. rewrite _semantic_search_run in H.
    destruct (faiss_answer (self st) x k) as [hits|e] eqn:Hhits; [|discriminate].
    apply faiss_answer_hits in Hhits. subst hits.
    injection H as H _. apply fetch_results_scores in H.
    destruct H as [new [-> HF]]. simpl. split; [exact HF|].
    assert (Hpos : Forall (fun hit => 0 <= snd hit)
                     (filter valid (knn (index (self st)) x k))).
    { apply Forall_forall. intros hit Hin. apply filter_In in Hin.
      pose proof (knn_distance_nonneg (index (self st)) x k) as Hall.
      rewrite Forall_forall in Hall. apply Hall. tauto. }
    clear - HF Hpos. induction HF as [|hit r hits new Hr HF IH]; [constructor|].
    inversion Hpos as [|? ? Hhit Hrest]; subst. constructor; [|now apply IH].
    rewrite Hr. split; [now apply score32_nonneg|now apply score32_le_1].
  - intros p doc dist H. simpl.
    destruct (score32_accuracy dist H) as [Hlo Hhi].
    split; [reflexivity|]. split; [now apply score32_nonneg|].
    split; [now apply score32_le_1|]. split; [exact Hlo|]. split; [exact Hhi|].
    split; [now apply score32_positive|now apply score32_eq_1].
  - intros p doc doc' dist dist' H H'. simpl. now apply score32_mono.
Qed.

Lemma similarity_law_witness :
  Forall2 (fun hit r => score r = round32 (1 / round32 (1 + snd hit)))
          (filter valid (knn (index Scenario.one_document) [12] 3))
          [semantic_result "Segment" (document_of Scenario.segment_doc) 625]
  /\ score (semantic_result "Segment" (document_of Scenario.segment_doc) 3)
     <= 1
  /\ score (semantic_result "Segment" (document_of Scenario.segment_doc) 4)
     <= score (semantic_result "Segment" (document_of Scenario.segment_doc) 3).
Proof.
  destruct similarity_law as [H1 [H2 H3]]. split; [|split].
  - apply (H1 [12] "Segment" 3%nat (start Scenario.one_document)
              (logged (start Scenario.one_document)
                 [FaissSearch 3; EsGet "segment_docs" "0"])).
    vm_compute. reflexivity.
  - apply (H2 "Segment" (document_of Scenario.segment_doc) 3). lra.
  - apply (H3 "Segment" (document_of Scenario.segment_doc)
              (document_of Scenario.segment_doc) 3 4); lra.
Defined.

(** C3, the claim as stated fails: the distance [2^-60] is not 0, and its
    score is 1, which is not [1 / (1 + 2^-60)]; the smaller distance
    [2^-61] has the same score.  A search whose query vector is at that
    distance of the one stored vector returns the score 1. *)
Lemma similarity_law_counterexample :
  0 < 1 # 1152921504606846976
  /\ score (semantic_result "Segment" (document_of Scenario.segment_doc)
             (1 # 1152921504606846976)) == 1
  /\ ~ score (semantic_result "Segment" (document_of Scenario.segment_doc)
               (1 # 1152921504606846976))
       == 1 / (1 + (1 # 1152921504606846976))
  /\ (1 # 2305843009213693952) < 1 # 1152921504606846976
  /\ ~ score (semantic_result "Segment" (document_of Scenario.segment_doc)
               (1 # 1152921504606846976))
       < score (semantic_result "Segment" (document_of Scenario.segment_doc)
                  (1 # 2305843009213693952))
  /\ knn (index Scenario.near_document) [1 # 1073741824] 1
     = [(0%Z, 1 # 1152921504606846976)]
  /\ fst (_semantic_search [1 # 1073741824] "Segment" 1
            (start Scenario.near_document))
     = Returns [semantic_result "Segment" (document_of Scenario.segment_doc)
                  (1 # 1152921504606846976)].
Proof.
  split; [reflexivity|]. split; [vm_compute; reflexivity|].
  split; [vm_compute; discriminate|]. split; [reflexivity|].
  split; [vm_compute; discriminate|]. split; vm_compute; reflexivity.
Qed.

(** ** Indexing *)

(** [str] maps different integers to different numerals. *)
Lemma str_inj (a b : Z) : str a = str b -> a = b.
Proof.
  unfold str. intro H.
  assert (Hn : forall z,
             DecimalString.NilZero.int_of_string
               (DecimalString.NilZero.string_of_int (Z.to_int z))
             = Some (Z.to_int z)).
  { intro z. apply DecimalString.NilZero.isi; intro E;
      pose proof (DecimalZ.to_of (Z.to_int z)) as Hz;
      rewrite DecimalZ.of_to, E in Hz; discriminate Hz. }
  apply DecimalZ.to_int_inj.
  pose proof (Hn a) as Ha. rewrite H, Hn in Ha. now injection Ha.
Qed.

Lemma same_key_true (k k' : string * string) : same_key k k' = true <-> k = k'.
Proof.
  destruct k as [a b], k' as [a' b']. unfold same_key. simpl.
  rewrite andb_true_iff, !String.eqb_eq. split.
  - now intros [-> ->].
  - now intros [= -> ->].
Qed.

Lemma es_lookup_store_same (docs : list ((string * string) * Source))
    (k : string * string) (s : Source) :
  es_lookup (es_store docs k s) k = Some s.
Proof.
  induction docs as [|[k0 s0] docs IH]; simpl.
  - now rewrite (proj2 (same_key_true k k) eq_refl).
  - destruct (same_key k0 k) eqn:E; simpl; now rewrite E.
Qed.

Lemma es_lookup_store_other (docs : list ((string * string) * Source))
    (k k' : string * string) (s : Source) :
  k <> k' -> es_lookup (es_store docs k s) k' = es_lookup docs k'.
Proof.
  intro Hne. induction docs as [|[k0 s0] docs IH]; simpl.
  - destruct (same_key k k') eqn:E; [|reflexivity].
    apply same_key_true in E. contradiction.
  - destruct (same_key k0 k) eqn:E; simpl.
    + apply same_key_true in E. subst k0.
      destruct (same_key k k') eqn:E'; [|reflexivity].
      apply same_key_true in E'. contradiction.
    + now rewrite IH.
Qed.

(** One call of [index_document] whose collaborators answer: the vector
    goes to the next position and the document is written under the numeral
    of that position. *)
Lemma index_document_run (doc : DocumentChunk) (st : state) (v : vector) :
  encoder (self st) (chunk_content doc) = Returns v ->
  length v = d (index (self st)) ->
  es_alive (es (self st)) = true ->
  valid_index_name (docs_index (chunk_platform doc)) = true ->
  index_document doc st =
  (Returns tt,
   {| self := indexed (self st) doc v;
      trace := trace st ++ index_requests (ntotal (index (self st))) [doc] |}).
Proof.
  intros Henc Hdim Halive Hname.
  unfold index_document, bind. rewrite encode_run, Henc.
  unfold faiss_add, faiss_ntotal, es_index, bind, emit, get_self, set_self, ret.
  unfold indexed, ntotal. simpl. rewrite Hdim, Nat.eqb_refl. simpl.
  destruct (es_alive (es (self st))); [|discriminate].
  rewrite Hname.
  rewrite length_app. simpl.
  replace (Z.of_nat (length (xb (index (self st))) + 1) - 1)%Z
    with (Z.of_nat (length (xb (index (self st))))) by lia.
  rewrite <- !app_assoc. reflexivity.
Qed.

(** A run of [index_document] calls whose collaborators answer, from any
    state of the service. *)
Lemma index_documents_run (docs : list DocumentChunk) (st : state) :
  es_alive (es (self st)) = true ->
  Forall (fun doc => exists v, encoder (self st) (chunk_content doc) = Returns v
                               /\ length v = d (index (self st))) docs ->
  Forall (fun doc => valid_index_name (docs_index (chunk_platform doc)) = true)
         docs ->
  exists st' vs,
    index_documents docs st = (Returns tt, st')
    /\ trace st' = (trace st ++ index_requests (ntotal (index (self st))) docs)%list
    /\ xb (index (self st')) = (xb (index (self st)) ++ vs)%list
    /\ Forall2 (fun doc v => encoder (self st) (chunk_content doc) = Returns v)
               docs vs
    /\ (forall i doc,
          nth_error docs i = Some doc ->
          es_lookup (es_docs (es (self st')))
            (docs_index (chunk_platform doc),
             str (Z.of_nat (ntotal (index (self st)) + i)))
          = Some (document_of doc))
    /\ (forall key,
          (forall i, (i < length docs)%nat ->
                     snd key <> str (Z.of_nat (ntotal (index (self st)) + i))) ->
          es_lookup (es_docs (es (self st'))) key
          = es_lookup (es_docs (es (self st))) key).
Proof.
  revert st. induction docs as [|doc docs IH]; intros st Halive Henc Hnames.
  - exists st, []. simpl. rewrite !app_nil_r.
    repeat split; try reflexivity; try constructor.
    intros [|i] doc H; discriminate H.
  - inversion Henc as [|? ? [v [Hv Hdim]] Hrest]; subst.
    inversion Hnames as [|? ? Hname Hnames']; subst.
    pose proof (index_document_run doc st v Hv Hdim Halive Hname) as Hrun.
    set (st1 := {| self := indexed (self st) doc v;
                   trace := trace st ++ index_requests (ntotal (index (self st))) [doc] |})
      in Hrun.
    assert (Hn : ntotal (index (self st1)) = S (ntotal (index (self st)))).
    { unfold ntotal. simpl. rewrite length_app. simpl. lia. }
    destruct (IH st1) as [st' [vs [Hdocs [Htrace [Hxb [Hvs [Hput Hframe]]]]]]].
    + exact Halive.
    + exact Hrest.
    + exact Hnames'.
    + exists st', (v :: vs). rewrite Hn in *. split; [|split; [|split; [|split; [|split]]]].
      * simpl. unfold bind. now rewrite Hrun.
      * rewrite Htrace. simpl. now rewrite <- app_assoc.
      * rewrite Hxb. simpl. now rewrite <- app_assoc.
      * constructor; [exact Hv|exact Hvs].
      * intros [|i] doc' Hnth; simpl in Hnth.
        -- injection Hnth as <-. rewrite Nat.add_0_r. rewrite Hframe.
           ++ simpl. apply es_lookup_store_same.
           ++ intros i _ Heq. simpl in Heq. apply str_inj in Heq. lia.
        -- replace (ntotal (index (self st)) + S i)%nat
             with (S (ntotal (index (self st))) + i)%nat by lia.
           now apply Hput.
      * intros key Hkey. rewrite Hframe.
        -- simpl. apply es_lookup_store_other.
           intro Heq. apply (Hkey 0%nat); [simpl; lia|].
           rewrite <- Heq. simpl. now rewrite Nat.add_0_r.
        -- intros i Hi.
           replace (S (ntotal (index (self st))) + i)%nat
             with (ntotal (index (self st)) + S i)%nat by lia.
           apply Hkey. simpl. lia.
Qed.



(** ** Worked examples *)

(** Ties in the fused list: "c" (semantic, 2 * 1/2) is ahead of "d"
    (keyword, 2 * 1/2), and "a" is ahead of "b" as in the semantic list. *)
Lemma fusion_example :
  map content
    (_combine_search_results
       [Scenario.hit "a" 1; Scenario.hit "b" 1; Scenario.hit "c" 2]
       [Scenario.hit "d" 2; Scenario.hit "e" 4] (1 # 2))
  = ["e"; "c"; "d"; "a"; "b"].
Proof. reflexivity. Qed.

(** A later semantic result with the same content replaces the earlier one
    at its position; keyword results with that content all add up. *)
Lemma repeated_content_example :
  sorted_results
    [Scenario.hit "a" 1; Scenario.hit "b" 1; Scenario.hit "a" (1 # 4)]
    [Scenario.hit "a" 2; Scenario.hit "a" 2] (1 # 2)
  = [ {| item_result := Scenario.hit "a" (1 # 4);
         item_score := (1 # 4) * (1 # 2) + 2 * (1 - (1 # 2)) + 2 * (1 - (1 # 2)) |};
      {| item_result := Scenario.hit "b" 1; item_score := 1 * (1 # 2) |} ].
Proof. reflexivity. Qed.

(** One indexed document, found by both paths: a single result with the
    content of the document and a positive score. *)
Lemma one_document_example :
  exists r,
    fst (search "add a source" "Segment" 3 (start Scenario.one_document))
    = Returns [r]
    /\ content r = "Go to Settings > Sources > Add Source"
    /\ 0 < score r.
Proof.
  eexists. split; [vm_compute; reflexivity|]. split; reflexivity.
Qed.

(** * Further properties of the search service *)

Lemma logged_start (st : state) : logged (start (self st)) (trace st) = st.
Proof. destruct st. reflexivity. Qed.

(** A search leaves the service as it is; its answer and its requests are
    decided by the service alone. *)
Lemma search_run (query platform : string) (top_k : nat) (st : state) :
  search query platform top_k st =
  (search_outcome (self st) query platform top_k,
   logged st (search_requests (self st) query platform top_k)).
Proof.
  unfold search_outcome, search_requests, search, bind.
  rewrite !encode_run. simpl.
  destruct (encoder (self st) query) as [v|e]; [|reflexivity].
  rewrite !_semantic_search_run. simpl.
  destruct (faiss_answer (self st) v top_k) as [hits|e];
    [|unfold logged; simpl; rewrite <- ?app_assoc; reflexivity].
  destruct (fetch_results (self st) platform hits []) as [sem|e];
    [|unfold logged; simpl; rewrite <- ?app_assoc; reflexivity].
  rewrite !_keyword_search_run. simpl.
  destruct (es_answer (self st) (docs_index platform)
              (search_query query platform) top_k);
    unfold ret, logged; simpl; rewrite <- ?app_assoc; reflexivity.
Qed.

(** X1. [search] only reads: the service object is the same afterwards,
    the log of requests is extended, and the same search asked again gives
    the same answer. *)
Theorem search_reads_only (query platform : string) (top_k : nat) (st : state) :
  self (snd (search query platform top_k st)) = self st
  /\ (exists evs, trace (snd (search query platform top_k st)) = (trace st ++ evs)%list)
  /\ fst (search query platform top_k (snd (search query platform top_k st)))
     = fst (search query platform top_k st).
Proof.
  rewrite !search_run. simpl. split; [reflexivity|].
  split; [eexists; reflexivity|reflexivity].
Qed.

(** ** Size of the answer *)

Lemma knn_length (ix : IndexFlatL2) (x : vector) (k : nat) :
  length (knn ix x k) = k.
Proof.
  unfold knn. rewrite length_app, repeat_length.
  pose proof (firstn_le_length k
    (stable_sort snd
       (map (fun p => (Z.of_nat (fst p), l2sq x (snd p)))
            (combine (seq 0 (ntotal ix)) (xb ix))))).
  lia.
Qed.

Lemma filter_length_le {A : Type} (p : A -> bool) (l : list A) :
  (length (filter p l) <= length l)%nat.
Proof.
  induction l as [|a l IH]; simpl; [lia|]. destruct (p a); simpl; lia.
Qed.

Lemma dict_set_length {V : Type} (dict : pydict V) (k : string) (v : V) :
  (length (dict_set dict k v) <= S (length dict))%nat.
Proof.
  induction dict as [|[k0 v0] dict IH]; simpl; [lia|].
  destruct (String.eqb k0 k); simpl; lia.
Qed.

Lemma fold_step_length (step : pydict item -> SearchResult -> pydict item) :
  (forall combined r, (length (step combined r) <= S (length combined))%nat) ->
  forall l combined,
    (length (fold_left step l combined) <= length combined + length l)%nat.
Proof.
  intros Hstep l. induction l as [|r l IH]; intro combined; simpl; [lia|].
  pose proof (IH (step combined r)). pose proof (Hstep combined r). lia.
Qed.

Lemma combine_length (sem kw : list SearchResult) (w : Q) :
  (length (_combine_search_results sem kw w) <= length sem + length kw)%nat.
Proof.
  unfold _combine_search_results, sorted_results.
  rewrite length_map, (Permutation_length (sorted_reverse_perm item_score _)).
  unfold dict_values. rewrite length_map. unfold combined_scores.
  pose proof (fold_step_length (keyword_step (1 - w))) as Hkw.
  pose proof (fold_step_length (semantic_step w)) as Hsem.
  assert (H1 : forall combined r,
             (length (keyword_step (1 - w) combined r) <= S (length combined))%nat).
  { intros combined r. unfold keyword_step.
    destruct (dict_get combined (content r)); apply dict_set_length. }
  assert (H2 : forall combined r,
             (length (semantic_step w combined r) <= S (length combined))%nat).
  { intros combined r. apply dict_set_length. }
  pose proof (Hkw H1 kw (fold_left (semantic_step w) sem [])).
  pose proof (Hsem H2 sem []). simpl in *. lia.
Qed.

Lemma fetch_results_length (s : SearchService) (platform : string)
    (hits : list (Z * Q)) (out : list SearchResult) :
  fetch_results s platform hits [] = Returns out ->
  (length out <= length hits)%nat.
Proof.
  intro H. apply fetch_results_scores in H. destruct H as [new [-> HF]].
  simpl. rewrite <- (Forall2_length HF). apply filter_length_le.
Qed.

(** X2. A search that returns gives at most [2 * top_k] results: up to
    [top_k] from each sub-search, and the fusion does not cut the list. *)
Theorem search_length (query platform : string) (top_k : nat) (st st' : state)
    (results : list SearchResult) :
  search query platform top_k st = (Returns results, st') ->
  (length results <= 2 * top_k)%nat.
Proof.
  unfold search, bind. rewrite encode_run.
  destruct (encoder (self st) query) as [v|e]; [|discriminate].
  rewrite _semantic_search_run. simpl.
  destruct (faiss_answer (self st) v top_k) as [hits|e] eqn:Hhits; [|discriminate].
  apply faiss_answer_hits in Hhits. subst hits.
  destruct (fetch_results (self st) platform (knn (index (self st)) v top_k) [])
    as [sem|e] eqn:Hsem; [|discriminate].
  rewrite _keyword_search_run. simpl.
  destruct (es_answer (self st) (docs_index platform)
              (search_query query platform) top_k) as [found|e] eqn:Hfound;
    [|discriminate].
  apply es_answer_hits in Hfound. subst found.
  unfold ret. intros [= <- _].
  apply fetch_results_length in Hsem. rewrite knn_length in Hsem.
  pose proof (combine_length sem
    (map (keyword_result platform)
       (es_hits (es (self st)) (docs_index platform)
          (search_query query platform) top_k)) default_semantic_weight) as Hlen.
  rewrite length_map in Hlen.
  assert (Hk : (length (es_hits (es (self st)) (docs_index platform)
                         (search_query query platform) top_k) <= top_k)%nat).
  { unfold es_hits. apply firstn_le_length. }
  lia.
Qed.

Lemma search_length_witness :
  (length
     [ {| content := "Add a source"; platform := "Segment"; score := 1;
          doc_type := "general"; section := None |};
       {| content := "Go to Settings > Sources > Add Source";
          platform := "Segment"; score := 1;
          doc_type := "general"; section := None |} ]
   <= 2 * 1)%nat.
Proof.
  apply (search_length "add a source" "Segment" 1 (start Cases.two_documents)
           (snd (search "add a source" "Segment" 1 (start Cases.two_documents)))).
  vm_compute. reflexivity.
Defined.

(** ** Where the results come from *)

Lemma es_lookup_In (docs : list ((string * string) * Source))
    (k : string * string) (src : Source) :
  es_lookup docs k = Some src -> In (k, src) docs.
Proof.
  induction docs as [|[k0 s0] docs IH]; simpl; [discriminate|].
  destruct (same_key k0 k) eqn:E.
  - apply same_key_true in E. subst k0. intros [= ->]. now left.
  - intro H. right. now apply IH.
Qed.

Lemma fetch_results_documents (s : SearchService) (p : string)
    (hits : list (Z * Q)) (results out : list SearchResult) :
  Forall (shows_document_of s p) results ->
  fetch_results s p hits results = Returns out ->
  Forall (shows_document_of s p) out.
Proof.
  revert results. induction hits as [|hit hits IH]; intros results Hres; simpl.
  - now intros [= <-].
  - destruct (valid hit); [|now apply IH].
    unfold got. destruct (es_alive (es s)); [|discriminate].
    destruct (es_lookup (es_docs (es s)) (docs_index p, str (fst hit)))
      as [doc|] eqn:E; [|discriminate].
    apply IH. apply Forall_app. split; [exact Hres|].
    constructor; [|constructor]. split; [reflexivity|].
    exists (str (fst hit)), doc. split; [now apply es_lookup_In|reflexivity].
Qed.

Lemma es_hits_documents (es0 : Elasticsearch) (index_name : string)
    (q : BoolQuery) (size : nat) (hit : Source * Q) :
  In hit (es_hits es0 index_name q size) ->
  exists id,
    In ((index_name, id), fst hit) (es_docs es0)
    /\ src_platform (fst hit) = must_term_platform q
    /\ es_match es0 (must_match_content q) (src_content (fst hit)) = true
    /\ snd hit = es_score es0 q (fst hit).
Proof.
  unfold es_hits. intro H. apply firstn_incl in H.
  apply (Permutation_in _ (sorted_reverse_perm snd _)) in H.
  apply in_map_iff in H. destruct H as [[[ix id] src] [<- Hin]].
  apply filter_In in Hin. destruct Hin as [Hin Hp]. simpl in *.
  apply andb_true_iff in Hp. destruct Hp as [Hp Hplat].
  apply andb_true_iff in Hp. destruct Hp as [Hp Hmatch].
  apply andb_true_iff in Hp. destruct Hp as [Hix _].
  apply String.eqb_eq in Hix, Hplat. subst ix.
  exists id. repeat split; assumption.
Qed.

Lemma combine_In (sem kw : list SearchResult) (w : Q) (r : SearchResult) :
  In r (_combine_search_results sem kw w) -> In r sem \/ In r kw.
Proof.
  unfold _combine_search_results, sorted_results. intro H.
  apply in_map_iff in H. destruct H as [it [<- Hit]].
  apply (Permutation_in _ (sorted_reverse_perm item_score _)) in Hit.
  unfold dict_values in Hit. apply in_map_iff in Hit.
  destruct Hit as [kv [<- Hkv]].
  pose proof (combined_scores_sources sem kw w) as Hsrc.
  rewrite Forall_forall in Hsrc. now apply Hsrc.
Qed.

(** X3. Every result of a search shows a document that is stored in the
    partition of the platform asked for, and carries the platform as the
    caller spelled it: positions of other platforms make the search fail,
    they never leak into an answer. *)
Theorem search_platform_isolation (query platform : string) (top_k : nat)
    (st st' : state) (results : list SearchResult) :
  search query platform top_k st = (Returns results, st') ->
  Forall (shows_document_of (self st) platform) results.
Proof.
  unfold search, bind. rewrite encode_run.
  destruct (encoder (self st) query) as [v|e]; [|discriminate].
  rewrite _semantic_search_run. simpl.
  destruct (faiss_answer (self st) v top_k) as [hits|e]; [|discriminate].
  destruct (fetch_results (self st) platform hits []) as [sem|e] eqn:Hsem;
    [|discriminate].
  rewrite _keyword_search_run. simpl.
  destruct (es_answer (self st) (docs_index platform)
              (search_query query platform) top_k) as [found|e] eqn:Hfound;
    [|discriminate].
  apply es_answer_hits in Hfound. subst found.
  unfold ret. intros [= <- _].
  apply fetch_results_documents in Hsem; [|constructor].
  apply Forall_forall. intros r Hr. apply combine_In in Hr.
  destruct Hr as [Hr|Hr].
  - rewrite Forall_forall in Hsem. now apply Hsem.
  - apply in_map_iff in Hr. destruct Hr as [hit [<- Hhit]].
    apply es_hits_documents in Hhit. destruct Hhit as [id [Hin _]].
    split; [reflexivity|]. now exists id, (fst hit).
Qed.

Lemma search_platform_isolation_witness :
  Forall (shows_document_of Cases.two_documents "Segment")
    [ {| content := "Add a source"; platform := "Segment"; score := 1;
         doc_type := "general"; section := None |};
      {| content := "Go to Settings > Sources > Add Source";
         platform := "Segment"; score := 1;
         doc_type := "general"; section := None |} ].
Proof.
  apply (search_platform_isolation "add a source" "Segment" 1
           (start Cases.two_documents)
           (snd (search "add a source" "Segment" 1 (start Cases.two_documents)))).
  vm_compute. reflexivity.
Defined.

(** ** Fusion reads content and score only *)

Section SortMap.
Context {A B : Type} (keyA : A -> Q) (keyB : B -> Q) (g : A -> B).
Hypothesis key_g : forall a, keyB (g a) = keyA a.

Lemma insort_map (x : A) (l : list A) :
  insort keyB (g x) (map g l) = map g (insort keyA x l).
Proof.
  induction l as [|y l IH]; simpl; [reflexivity|].
  rewrite !key_g. destruct (Qltb (keyA y) (keyA x)); simpl; [|reflexivity].
  now rewrite IH.
Qed.

Lemma stable_sort_map (l : list A) :
  stable_sort keyB (map g l) = map g (stable_sort keyA l).
Proof.
  induction l as [|x l IH]; simpl; [reflexivity|].
  now rewrite IH, insort_map.
Qed.

Lemma sorted_reverse_map (l : list A) :
  sorted_reverse keyB (map g l) = map g (sorted_reverse keyA l).
Proof.
  unfold sorted_reverse. now rewrite <- map_rev, stable_sort_map, map_rev.
Qed.

End SortMap.

Lemma dict_get_map {V W : Type} (g : V -> W) (dict : pydict V) (k : string) :
  dict_get (dict_map g dict) k = option_map g (dict_get dict k).
Proof.
  induction dict as [|[k0 v0] dict IH]; simpl; [reflexivity|].
  now destruct (String.eqb k0 k).
Qed.

Lemma dict_set_map {V W : Type} (g : V -> W) (dict : pydict V) (k : string)
    (v : V) :
  dict_set (dict_map g dict) k (g v) = dict_map g (dict_set dict k v).
Proof.
  induction dict as [|[k0 v0] dict IH]; simpl; [reflexivity|].
  destruct (String.eqb k0 k); simpl; [reflexivity|]. now rewrite IH.
Qed.

Section Relabel.
Context (f : SearchResult -> SearchResult).
Hypothesis f_content : forall r, content (f r) = content r.
Hypothesis f_score : forall r, score (f r) = score r.

Lemma semantic_step_relabel (w : Q) (combined : pydict item) (r : SearchResult) :
  semantic_step w (dict_map (relabel_item f) combined) (f r)
  = dict_map (relabel_item f) (semantic_step w combined r).
Proof.
  unfold semantic_step. rewrite f_content, f_score.
  apply (dict_set_map (relabel_item f) combined (content r)
           {| item_result := r; item_score := score r * w |}).
Qed.

Lemma keyword_step_relabel (k : Q) (combined : pydict item) (r : SearchResult) :
  keyword_step k (dict_map (relabel_item f) combined) (f r)
  = dict_map (relabel_item f) (keyword_step k combined r).
Proof.
  unfold keyword_step. rewrite f_content, f_score, dict_get_map.
  destruct (dict_get combined (content r)) as [it|]; simpl.
  - apply (dict_set_map (relabel_item f) combined (content r)
             {| item_result := item_result it;
                item_score := item_score it + score r * k |}).
  - apply (dict_set_map (relabel_item f) combined (content r)
             {| item_result := r; item_score := score r * k |}).
Qed.

Lemma fold_step_relabel (step : pydict item -> SearchResult -> pydict item) :
  (forall combined r,
      step (dict_map (relabel_item f) combined) (f r)
      = dict_map (relabel_item f) (step combined r)) ->
  forall l combined,
    fold_left step (map f l) (dict_map (relabel_item f) combined)
    = dict_map (relabel_item f) (fold_left step l combined).
Proof.
  intros Hstep l. induction l as [|r l IH]; intro combined; simpl; [reflexivity|].
  now rewrite Hstep, IH.
Qed.

(** The fusion looks at the content and the score of a result only: a
    change of the other fields of every input shows in the output as the
    same change, with the same order. *)
Lemma combine_relabel (sem kw : list SearchResult) (w : Q) :
  _combine_search_results (map f sem) (map f kw) w
  = map f (_combine_search_results sem kw w).
Proof.
  unfold _combine_search_results, sorted_results, combined_scores.
  change (@nil (string * item)) with (dict_map (relabel_item f) []) at 1.
  rewrite (fold_step_relabel _ (semantic_step_relabel w)).
  rewrite (fold_step_relabel _ (keyword_step_relabel (1 - w))).
  unfold dict_values, dict_map. rewrite map_map. simpl.
  rewrite <- (map_map snd (relabel_item f)).
  rewrite (sorted_reverse_map item_score item_score (relabel_item f))
    by reflexivity.
  rewrite map_map. simpl. now rewrite <- map_map.
Qed.

End Relabel.

(** ** The spelling of the platform *)

Lemma fetch_results_platform (s : SearchService) (p p' : string)
    (hits : list (Z * Q)) (results : list SearchResult) :
  docs_index p' = docs_index p ->
  fetch_results s p' hits (map (with_platform p') results)
  = relabelled p' (fetch_results s p hits results).
Proof.
  intro Hix. revert results.
  induction hits as [|hit hits IH]; intro results; simpl; [reflexivity|].
  destruct (valid hit); [|apply IH]. rewrite Hix.
  destruct (got s (docs_index p) (str (fst hit))) as [doc|e]; [|reflexivity].
  rewrite <- IH. now rewrite map_app.
Qed.

Lemma fetch_requests_platform (s : SearchService) (p p' : string)
    (hits : list (Z * Q)) :
  docs_index p' = docs_index p ->
  fetch_requests s p' hits = fetch_requests s p hits.
Proof.
  intro Hix. induction hits as [|hit hits IH]; simpl; [reflexivity|].
  rewrite Hix, IH. reflexivity.
Qed.

(** X4. Platforms that differ in the case of their letters are one
    platform for retrieval: the search sends the same requests and gives
    the same answer, each result carrying the spelling of its caller. *)
Theorem search_platform_case (query p p' : string) (top_k : nat) (st : state) :
  lower p' = lower p ->
  search query p' top_k st
  = (relabelled p' (fst (search query p top_k st)),
     snd (search query p top_k st)).
Proof.
  intro Hlow.
  assert (Hix : docs_index p' = docs_index p).
  { unfold docs_index. now rewrite Hlow. }
  assert (Hq : search_query query p' = search_query query p).
  { unfold search_query. now rewrite Hlow. }
  unfold search, bind. rewrite !encode_run.
  destruct (encoder (self st) query) as [v|e]; [|reflexivity].
  rewrite !_semantic_search_run. simpl.
  destruct (faiss_answer (self st) v top_k) as [hits|e]; [|reflexivity].
  rewrite (fetch_requests_platform _ p p' _ Hix).
  pose proof (fetch_results_platform (self st) p p' hits [] Hix) as Hsem.
  simpl in Hsem. rewrite Hsem.
  destruct (fetch_results (self st) p hits []) as [sem|e]; [|reflexivity].
  simpl. rewrite !_keyword_search_run. simpl. rewrite Hix, Hq.
  destruct (es_answer (self st) (docs_index p) (search_query query p) top_k)
    as [found|e]; [|reflexivity].
  unfold ret. simpl. f_equal. f_equal.
  rewrite <- (combine_relabel (with_platform p')) by reflexivity.
  f_equal. rewrite map_map. reflexivity.
Qed.

Lemma search_platform_case_witness :
  search "add a source" "SEGMENT" 1 (start Cases.two_documents)
  = (relabelled "SEGMENT"
       (fst (search "add a source" "Segment" 1 (start Cases.two_documents))),
     snd (search "add a source" "Segment" 1 (start Cases.two_documents))).
Proof.
  apply (search_platform_case "add a source" "Segment" "SEGMENT" 1
           (start Cases.two_documents)).
  reflexivity.
Defined.

(** ** Failures of [index_document] *)

(** X5. When the cluster cannot be reached, [index_document] raises after
    the vector was added: the index is one vector longer and no document
    was written, and nothing takes the vector back. *)
Theorem index_document_store_failure (doc : DocumentChunk) (st : state)
    (v : vector) :
  encoder (self st) (chunk_content doc) = Returns v ->
  length v = d (index (self st)) ->
  es_alive (es (self st)) = false ->
  exists st',
    index_document doc st = (Raises ConnectionError, st')
    /\ xb (index (self st')) = (xb (index (self st)) ++ [v])%list
    /\ es_docs (es (self st')) = es_docs (es (self st))
    /\ trace st'
       = (trace st ++ index_requests (ntotal (index (self st))) [doc])%list.
Proof.
  intros Henc Hdim Hdown.
  unfold index_document, bind. rewrite encode_run, Henc.
  unfold faiss_add, faiss_ntotal, es_index, bind, emit, get_self, set_self, ret.
  simpl. rewrite Hdim, Nat.eqb_refl. simpl. rewrite Hdown.
  eexists. split; [reflexivity|]. simpl. split; [reflexivity|].
  split; [reflexivity|].
  unfold ntotal. simpl. rewrite length_app. simpl.
  replace (Z.of_nat (length (xb (index (self st))) + 1) - 1)%Z
    with (Z.of_nat (length (xb (index (self st))))) by lia.
  now rewrite <- !app_assoc.
Qed.

Lemma index_document_store_failure_witness :
  exists st',
    index_document Scenario.segment_doc (start Scenario.unplugged)
    = (Raises ConnectionError, st')
    /\ xb (index (self st')) = (xb (index (self (start Scenario.unplugged))) ++ [[37]])%list
    /\ es_docs (es (self st')) = es_docs (es (self (start Scenario.unplugged)))
    /\ trace st'
       = (trace (start Scenario.unplugged)
          ++ index_requests (ntotal (index (self (start Scenario.unplugged))))
               [Scenario.segment_doc])%list.
Proof.
  apply (index_document_store_failure Scenario.segment_doc
           (start Scenario.unplugged) [37]); reflexivity.
Defined.

(** X6. When the encoder raises, or gives a vector whose length is not the
    dimension of the index, [index_document] raises before anything is
    stored: the service is as it was. *)
Theorem index_document_rejects (doc : DocumentChunk) (st : state) :
  (forall e,
      encoder (self st) (chunk_content doc) = Raises e ->
      index_document doc st
      = (Raises e, logged st [Encode (chunk_content doc)]))
  /\ (forall v,
        encoder (self st) (chunk_content doc) = Returns v ->
        length v <> d (index (self st)) ->
        index_document doc st
        = (Raises AssertionError,
           logged st [Encode (chunk_content doc); FaissAdd])).
Proof.
  split.
  - intros e Henc. unfold index_document, bind. now rewrite encode_run, Henc.
  - intros v Henc Hdim. unfold index_document, bind. rewrite encode_run, Henc.
    unfold faiss_add, bind, emit, get_self, raise. simpl.
    apply Nat.eqb_neq in Hdim. rewrite Hdim.
    unfold logged. simpl. now rewrite <- app_assoc.
Qed.

Lemma index_document_rejects_witness :
  index_document Scenario.segment_doc (start Scenario.no_model)
  = (Raises (EncoderError "model not loaded"),
     logged (start Scenario.no_model)
       [Encode (chunk_content Scenario.segment_doc)])
  /\ index_document Scenario.segment_doc (start Cases.misconfigured)
     = (Raises AssertionError,
        logged (start Cases.misconfigured)
          [Encode (chunk_content Scenario.segment_doc); FaissAdd]).
Proof.
  split.
  - apply (proj1 (index_document_rejects Scenario.segment_doc
                    (start Scenario.no_model))).
    reflexivity.
  - apply (proj2 (index_document_rejects Scenario.segment_doc
                    (start Cases.misconfigured)) [1; 2]).
    + reflexivity.
    + discriminate.
Defined.

(** X23. When the platform does not give a name that Elasticsearch
    accepts for an index, [index_document] raises after the vector was
    added: the index is one vector longer and no document was written. *)
Theorem index_document_bad_name (doc : DocumentChunk) (st : state)
    (v : vector) :
  encoder (self st) (chunk_content doc) = Returns v ->
  length v = d (index (self st)) ->
  es_alive (es (self st)) = true ->
  valid_index_name (docs_index (chunk_platform doc)) = false ->
  exists st',
    index_document doc st = (Raises BadRequestError, st')
    /\ xb (index (self st')) = (xb (index (self st)) ++ [v])%list
    /\ es_docs (es (self st')) = es_docs (es (self st))
    /\ trace st'
       = (trace st ++ index_requests (ntotal (index (self st))) [doc])%list.
Proof.
  intros Henc Hdim Hup Hname.
  unfold index_document, bind. rewrite encode_run, Henc.
  unfold faiss_add, faiss_ntotal, es_index, bind, emit, get_self, set_self, ret.
  simpl. rewrite Hdim, Nat.eqb_refl. simpl. rewrite Hup, Hname.
  eexists. split; [reflexivity|]. simpl. split; [reflexivity|].
  split; [reflexivity|].
  unfold ntotal. simpl. rewrite length_app. simpl.
  replace (Z.of_nat (length (xb (index (self st))) + 1) - 1)%Z
    with (Z.of_nat (length (xb (index (self st))))) by lia.
  now rewrite <- !app_assoc.
Qed.

Lemma index_document_bad_name_witness :
  docs_index (chunk_platform Cases.adobe_doc) = "adobe experience_docs"
  /\ exists st',
       index_document Cases.adobe_doc (start Scenario.fresh)
       = (Raises BadRequestError, st')
       /\ xb (index (self st')) = [[15]]
       /\ es_docs (es (self st')) = []
       /\ trace st'
          = [Encode "Create a schema"; FaissAdd;
             EsIndex "adobe experience_docs" "0"].
Proof.
  split; [reflexivity|].
  apply (index_document_bad_name Cases.adobe_doc (start Scenario.fresh) [15]);
    reflexivity.
Defined.

(** ** Contents of the fused list *)

Lemma combine_contents (sem kw : list SearchResult) (w : Q) :
  Permutation (map content (_combine_search_results sem kw w))
              (dict_keys (combined_scores sem kw w)).
Proof.
  unfold _combine_search_results. rewrite map_map.
  change (fun x => content (item_result x)) with item_content.
  unfold sorted_results. rewrite (sorted_reverse_perm item_score).
  rewrite dict_ok_contents by apply combined_scores_ok. apply Permutation_refl.
Qed.

(** X7. The fused list holds every content of the two inputs, each once:
    the fusion loses no content and repeats none. *)
Theorem fusion_contents (sem kw : list SearchResult) (w : Q) :
  NoDup (map content (_combine_search_results sem kw w))
  /\ Permutation (map content (_combine_search_results sem kw w))
                 (insertion_order (map content (sem ++ kw)))
  /\ (forall c : string,
        In c (map content (_combine_search_results sem kw w))
        <-> In c (map content sem) \/ In c (map content kw)).
Proof.
  pose proof (combine_contents sem kw w) as Hperm.
  split; [|split].
  - apply (Permutation_NoDup (Permutation_sym Hperm)).
    apply (proj1 (combined_scores_ok sem kw w)).
  - now rewrite Hperm, combined_scores_keys.
  - intro c. rewrite Hperm, combined_scores_keys. unfold insertion_order.
    rewrite add_keys_In, map_app, in_app_iff. simpl. tauto.
Qed.

(** ** Repeated contents *)

Lemma keyword_at_sum (k : Q) (l : list SearchResult) (it : item) :
  exists it',
    fold_left (keyword_at k) l (Some it) = Some it'
    /\ item_result it' = item_result it
    /\ item_score it' == item_score it + score_sum l * k.
Proof.
  revert it. induction l as [|r l IH]; intro it; simpl.
  - exists it. split; [reflexivity|]. split; [reflexivity|].
    unfold score_sum. simpl. ring.
  - destruct (IH {| item_result := item_result it;
                    item_score := item_score it + score r * k |})
      as [it' [Heq [Hres Hscore]]].
    exists it'. split; [exact Heq|]. split; [exact Hres|].
    rewrite Hscore. unfold score_sum. simpl. ring.
Qed.

(** X8. What the fused list holds for a content [c].  If semantic results
    have the content, the last of them is returned, ranked under its score
    times [w] plus the scores of all keyword results with the content
    times [1 - w]; if only keyword results have it, the first of them is
    returned, ranked under the sum of their scores times [1 - w]. *)
Theorem repeated_contents (sem kw : list SearchResult) (w : Q) (c : string) :
  match rev (filter (has_content c) sem), filter (has_content c) kw with
  | s :: _, kws =>
      exists it,
        filter (fun it => has_content c (item_result it)) (sorted_results sem kw w)
        = [it]
        /\ item_result it = s
        /\ item_score it == score s * w + score_sum kws * (1 - w)
  | [], r :: kws =>
      exists it,
        filter (fun it => has_content c (item_result it)) (sorted_results sem kw w)
        = [it]
        /\ item_result it = r
        /\ item_score it == score_sum (r :: kws) * (1 - w)
  | [], [] =>
      filter (fun it => has_content c (item_result it)) (sorted_results sem kw w)
      = []
  end.
Proof.
  rewrite items_with_content, combined_scores_at, semantic_at_last.
  destruct (rev (filter (has_content c) sem)) as [|s earlier].
  - destruct (filter (has_content c) kw) as [|r kws]; [reflexivity|].
    simpl.
    destruct (keyword_at_sum (1 - w) kws
                {| item_result := r; item_score := score r * (1 - w) |})
      as [it [Heq [Hres Hscore]]].
    rewrite Heq. exists it. split; [reflexivity|]. split; [exact Hres|].
    rewrite Hscore. unfold score_sum. simpl. ring.
  - destruct (keyword_at_sum (1 - w) (filter (has_content c) kw)
                {| item_result := s; item_score := score s * w |})
      as [it [Heq [Hres Hscore]]].
    rewrite Heq. exists it. split; [reflexivity|]. split; [exact Hres|].
    exact Hscore.
Qed.

(** ** Sign of the accumulated scores *)

Lemma score_sum_nonneg (l : list SearchResult) :
  Forall (fun r => 0 <= score r) l -> 0 <= score_sum l.
Proof.
  unfold score_sum. induction 1 as [|r l Hr Hl IH]; simpl; [lra|lra].
Qed.

Lemma Forall_filter {A : Type} (P : A -> Prop) (p : A -> bool) (l : list A) :
  Forall P l -> Forall P (filter p l).
Proof.
  intro H. apply Forall_forall. intros a Ha. apply filter_In in Ha.
  rewrite Forall_forall in H. now apply H.
Qed.

(** X9. With a weight between 0 and 1 and scores that are not negative,
    no result is ranked under a negative accumulated score. *)
Theorem fusion_scores_nonneg (sem kw : list SearchResult) (w : Q) :
  0 <= w -> w <= 1 ->
  Forall (fun r => 0 <= score r) sem ->
  Forall (fun r => 0 <= score r) kw ->
  Forall (fun it => 0 <= item_score it) (sorted_results sem kw w).
Proof.
  intros Hw0 Hw1 Hsem Hkw. apply Forall_forall. intros it Hit.
  apply sorted_results_In in Hit.
  rewrite combined_scores_at, semantic_at_last in Hit.
  set (c := item_content it) in *.
  pose proof (score_sum_nonneg _ (Forall_filter _ (has_content c) _ Hkw)) as Hsum.
  assert (Hk : 0 <= 1 - w) by lra.
  destruct (rev (filter (has_content c) sem)) as [|s earlier] eqn:Erev.
  - destruct (filter (has_content c) kw) as [|r kws] eqn:Ekw; [discriminate|].
    simpl in Hit.
    destruct (keyword_at_sum (1 - w) kws
                {| item_result := r; item_score := score r * (1 - w) |})
      as [it' [Heq [_ Hscore]]].
    rewrite Heq in Hit. injection Hit as <-. rewrite Hscore. simpl.
    unfold score_sum in Hsum. simpl in Hsum.
    assert (Hr : 0 <= score r).
    { assert (Hin : In r (filter (has_content c) kw)) by (rewrite Ekw; now left).
      apply filter_In in Hin. rewrite Forall_forall in Hkw. now apply Hkw. }
    assert (Hrest : 0 <= score_sum kws).
    { apply score_sum_nonneg.
      pose proof (Forall_filter _ (has_content c) _ Hkw) as Hall.
      rewrite Ekw in Hall. now inversion Hall. }
    pose proof (Qmult_le_0_compat _ _ Hr Hk).
    pose proof (Qmult_le_0_compat _ _ Hrest Hk). lra.
  - destruct (keyword_at_sum (1 - w) (filter (has_content c) kw)
                {| item_result := s; item_score := score s * w |})
      as [it' [Heq [_ Hscore]]].
    rewrite Heq in Hit. injection Hit as <-. rewrite Hscore. simpl.
    assert (Hs : 0 <= score s).
    { assert (Hin : In s (filter (has_content c) sem)).
      { apply in_rev. rewrite Erev. now left. }
      apply filter_In in Hin. rewrite Forall_forall in Hsem. now apply Hsem. }
    pose proof (Qmult_le_0_compat _ _ Hs Hw0).
    pose proof (Qmult_le_0_compat _ _ Hsum Hk). lra.
Qed.

Lemma fusion_scores_nonneg_witness :
  Forall (fun it => 0 <= item_score it)
    (sorted_results [Scenario.sem_b; Scenario.sem_a]
       [Scenario.kw_c; Scenario.kw_a] (1 # 2)).
Proof.
  apply (fusion_scores_nonneg [Scenario.sem_b; Scenario.sem_a]
           [Scenario.kw_c; Scenario.kw_a] (1 # 2)).
  - discriminate.
  - discriminate.
  - repeat constructor; discriminate.
  - repeat constructor; discriminate.
Defined.

(** * Properties of the response cache *)

(** ** Strings *)

Lemma is_space_lower (c : ascii) : is_space (lower_ascii c) = is_space c.
Proof. destruct c as [[] [] [] [] [] [] [] []]; reflexivity. Qed.

Lemma lower_ascii_idem (c : ascii) : lower_ascii (lower_ascii c) = lower_ascii c.
Proof. destruct c as [[] [] [] [] [] [] [] []]; reflexivity. Qed.

Lemma lower_idem (s : string) : lower (lower s) = lower s.
Proof.
  induction s as [|c s IH]; simpl; [reflexivity|].
  now rewrite lower_ascii_idem, IH.
Qed.

Lemma lower_app (a b : string) : lower (a ++ b) = lower a ++ lower b.
Proof.
  induction a as [|c a IH]; simpl; [reflexivity|]. now rewrite IH.
Qed.

Lemma all_space_lower (s : string) : all_space (lower s) = all_space s.
Proof.
  induction s as [|c s IH]; simpl; [reflexivity|].
  now rewrite is_space_lower, IH.
Qed.

Lemma lstrip_all_space (s : string) : all_space s = true -> lstrip s = "".
Proof.
  induction s as [|c s IH]; simpl; [reflexivity|].
  intro H. apply andb_true_iff in H. destruct H as [Hc Hs].
  rewrite Hc. now apply IH.
Qed.

Lemma lstrip_pad (pad s : string) :
  all_space pad = true -> lstrip (pad ++ s) = lstrip s.
Proof.
  induction pad as [|c pad IH]; simpl; [reflexivity|].
  intro H. apply andb_true_iff in H. destruct H as [Hc Hs].
  rewrite Hc. now apply IH.
Qed.

Lemma lstrip_solid (x z : string) :
  all_space x = false -> lstrip (x ++ z) = lstrip x ++ z.
Proof.
  induction x as [|c x IH]; simpl; [discriminate|].
  destruct (is_space c); simpl; [exact IH|reflexivity].
Qed.

Lemma all_space_lstrip (x : string) :
  all_space x = false -> all_space (lstrip x) = false.
Proof.
  induction x as [|c x IH]; simpl; [discriminate|].
  destruct (is_space c) eqn:E; simpl; [exact IH|]. now rewrite E.
Qed.

Lemma rstrip_all_space (s : string) : all_space s = true -> rstrip s = "".
Proof.
  induction s as [|c s IH]; simpl; [reflexivity|].
  intro H. apply andb_true_iff in H. destruct H as [Hc Hs].
  now rewrite (IH Hs), Hc.
Qed.

Lemma rstrip_pad (s pad : string) :
  all_space pad = true -> rstrip (s ++ pad) = rstrip s.
Proof.
  intro H. induction s as [|c s IH]; simpl.
  - now apply rstrip_all_space.
  - now rewrite IH.
Qed.

Lemma rstrip_solid_nonempty (y : string) :
  all_space y = false -> rstrip y <> "".
Proof.
  induction y as [|c y IH]; simpl; [discriminate|].
  destruct (is_space c) eqn:E; simpl; intro H.
  - destruct (rstrip y); [now apply IH|discriminate].
  - destruct (rstrip y); discriminate.
Qed.

Lemma rstrip_solid (u y : string) :
  all_space y = false -> rstrip (u ++ y) = u ++ rstrip y.
Proof.
  intro H. induction u as [|c u IH]; simpl; [reflexivity|].
  rewrite IH. pose proof (rstrip_solid_nonempty y H) as Hne.
  destruct (u ++ rstrip y) eqn:E; [|reflexivity].
  destruct u; simpl in E; [contradiction|discriminate].
Qed.

Lemma strip_pad (pad s pad' : string) :
  all_space pad = true -> all_space pad' = true ->
  strip (pad ++ s ++ pad') = strip s.
Proof.
  intros Hpad Hpad'. unfold strip. rewrite lstrip_pad by exact Hpad.
  destruct (all_space s) eqn:E.
  - rewrite (lstrip_all_space s E).
    rewrite lstrip_pad by exact E. now rewrite (lstrip_all_space pad' Hpad').
  - rewrite lstrip_solid by exact E. now apply rstrip_pad.
Qed.

Lemma all_space_app_solid (u y : string) :
  all_space y = false -> all_space (u ++ y) = false.
Proof.
  intro H. induction u as [|c u IH]; simpl; [exact H|].
  rewrite IH. apply andb_false_r.
Qed.

Lemma strip_around (x mid y : string) :
  all_space x = false -> all_space y = false ->
  strip (x ++ mid ++ y) = lstrip x ++ mid ++ rstrip y.
Proof.
  intros Hx Hy. unfold strip. rewrite lstrip_solid by exact Hx.
  rewrite <- (rstrip_solid mid y Hy).
  apply rstrip_solid. now apply all_space_app_solid.
Qed.

Lemma replace_space (s : string) : replace " " "-" s = smap dash s.
Proof.
  unfold replace. induction s as [|c s IH]; [reflexivity|].
  cbn [replace_from smap prefix String.length Nat.sub].
  unfold dash at 1.
  destruct (ascii_dec " " c) as [<-|Hne].
  - simpl. replace (prefix "" s) with true by (destruct s; reflexivity).
    now rewrite IH.
  - destruct (Ascii.eqb_spec c " ") as [->|_]; [contradiction|].
    now rewrite IH.
Qed.

Lemma smap_app (f : ascii -> ascii) (a b : string) :
  smap f (a ++ b) = smap f a ++ smap f b.
Proof.
  induction a as [|c a IH]; simpl; [reflexivity|]. now rewrite IH.
Qed.

(** ** Cache keys *)

(** X10. Two queries that differ in the case of their letters and in white
    space around them, asked for platforms that differ in the case of their
    letters, have the same cache key. *)
Theorem cache_key_normalizes (query query' platform platform' pad pad' : string) :
  all_space pad = true -> all_space pad' = true ->
  lower query' = lower (pad ++ query ++ pad') ->
  lower platform' = lower platform ->
  CacheService._generate_cache_key query' platform'
  = CacheService._generate_cache_key query platform.
Proof.
  intros Hpad Hpad' Hq Hp. unfold CacheService._generate_cache_key.
  rewrite Hq, Hp, !lower_app.
  rewrite strip_pad by (rewrite all_space_lower; assumption).
  reflexivity.
Qed.

Lemma cache_key_normalizes_witness :
  CacheService._generate_cache_key "  How do I ADD a Source " "SEGMENT"
  = CacheService._generate_cache_key "how do i add a source" "Segment".
Proof.
  apply (cache_key_normalizes "how do i add a source" "  How do I ADD a Source "
           "Segment" "SEGMENT" "  " " "); reflexivity.
Defined.

(** X11. A space and a dash inside a query are not told apart by the
    cache key: the two queries share one cache entry. *)
Theorem cache_key_space_dash (a b platform : string) :
  all_space a = false -> all_space b = false ->
  CacheService._generate_cache_key (a ++ " " ++ b) platform
  = CacheService._generate_cache_key (a ++ "-" ++ b) platform.
Proof.
  intros Ha Hb. unfold CacheService._generate_cache_key.
  rewrite !lower_app.
  change (lower " ") with " ". change (lower "-") with "-".
  rewrite !strip_around by (rewrite all_space_lower; assumption).
  rewrite !replace_space, !smap_app. reflexivity.
Qed.

Lemma cache_key_space_dash_witness :
  CacheService._generate_cache_key ("track" ++ " " ++ "events") "Segment"
  = CacheService._generate_cache_key ("track" ++ "-" ++ "events") "Segment".
Proof.
  apply (cache_key_space_dash "track" "events" "Segment"); reflexivity.
Defined.

(** ** Storing and reading *)

Lemma redis_lookup_others (data : list (string * (string * nat)))
    (key key' : string) :
  key <> key' ->
  redis_lookup (filter (fun kv => negb (String.eqb (fst kv) key)) data) key'
  = redis_lookup data key'.
Proof.
  intro Hne. induction data as [|[k v] data IH]; simpl; [reflexivity|].
  destruct (String.eqb_spec k key) as [->|Hk]; simpl.
  - destruct (String.eqb_spec key key'); [contradiction|exact IH].
  - now rewrite IH.
Qed.

(** X12. A stored response is read back under every query and platform
    with the same cache key for 3600 seconds, and no longer; the responses
    under other keys are not touched. *)
Theorem cache_round_trip (query platform response : string) (w : world)
    (seconds : nat) :
  redis_alive (cache_redis w) = true ->
  (forall query' platform',
      CacheService._generate_cache_key query' platform'
      = CacheService._generate_cache_key query platform ->
      fst (CacheService.get_response query' platform'
             (later seconds
                (snd (CacheService.store_response query platform response w))))
      = Answers (if (seconds <? CacheService.cache_ttl)%nat
                 then Some response else None))
  /\ (forall query' platform',
        CacheService._generate_cache_key query' platform'
        <> CacheService._generate_cache_key query platform ->
        fst (CacheService.get_response query' platform'
               (later seconds
                  (snd (CacheService.store_response query platform response w))))
        = fst (CacheService.get_response query' platform' (later seconds w))).
Proof.
  intro Halive. split; intros query' platform' Hkey;
    unfold CacheService.get_response, CacheService.store_response;
    generalize dependent (CacheService._generate_cache_key query' platform');
    generalize (CacheService._generate_cache_key query platform);
    intros k k' Hkey; rewrite Halive; simpl; rewrite Halive; simpl;
    unfold redis_get; simpl.
  - rewrite Hkey, String.eqb_refl.
    destruct (Nat.ltb_spec seconds CacheService.cache_ttl) as [Hlt|Hge].
    + assert (H : (redis_now (cache_redis w) + seconds
                   <? redis_now (cache_redis w) + CacheService.cache_ttl)%nat = true)
        by (apply Nat.ltb_lt; lia).
      now rewrite H.
    + assert (H : (redis_now (cache_redis w) + seconds
                   <? redis_now (cache_redis w) + CacheService.cache_ttl)%nat = false)
        by (apply Nat.ltb_ge; lia).
      now rewrite H.
  - destruct (String.eqb_spec k k') as [E|Hne]; [congruence|].
    now rewrite redis_lookup_others.
Qed.

Lemma cache_round_trip_witness :
  fst (CacheService.get_response " How do I add a source" "SEGMENT"
         (later 3599
            (snd (CacheService.store_response "how do i add a source" "Segment"
                    "Go to Sources"
                    (Cases.world_of Scenario.fresh Cases.redis0)))))
  = Answers (if (3599 <? CacheService.cache_ttl)%nat
             then Some "Go to Sources" else None).
Proof.
  apply (proj1 (cache_round_trip "how do i add a source" "Segment" "Go to Sources"
                  (Cases.world_of Scenario.fresh Cases.redis0) 3599 eq_refl)).
  reflexivity.
Defined.

(** * Properties of the chat service *)

Lemma call_search_run (query platform : string) (top_k : nat) (w : world) :
  call_search (search query platform top_k) w =
  (match search_outcome (self (search_service w)) query platform top_k with
   | Returns results => Answers results
   | Raises e => Throws (SearchFailure e)
   end,
   {| search_service :=
        logged (search_service w)
          (search_requests (self (search_service w)) query platform top_k);
      cache_redis := cache_redis w;
      printed := printed w |}).
Proof.
  unfold call_search. rewrite search_run.
  now destruct (search_outcome (self (search_service w)) query platform top_k).
Qed.

Lemma cache_lookup_run (query platform : string) (w : world) :
  redis_alive (cache_redis w) = true ->
  CacheService.get_response query platform w
  = (Answers (redis_get (cache_redis w)
                (CacheService._generate_cache_key query platform)), w).
Proof.
  intro H. unfold CacheService.get_response. now rewrite H.
Qed.

(** A call that finds nothing usable in the cache. *)
Lemma get_response_miss (query platform : string) (w : world) :
  redis_alive (cache_redis w) = true ->
  cache_hit w query platform = None ->
  ChatService.get_response query platform w
  = if negb (ChatService._is_cdp_related query platform)
    then (Answers ChatService.non_cdp, w)
    else
      match search_outcome (self (search_service w)) query platform 3 with
      | Raises e => (Answers ChatService.error, reported w query platform e)
      | Returns [] =>
          (Answers (ChatService.not_found (ChatService._extract_action query)
                      platform),
           searched w query platform)
      | Returns (r :: rs) =>
          (Answers (ChatService._format_response (r :: rs)
                      (ChatService._extract_action query) platform),
           cached w query platform
             (ChatService._format_response (r :: rs)
                (ChatService._extract_action query) platform))
      end.
Proof.
  intros Halive Hmiss. unfold ChatService.get_response, chat_bind.
  rewrite cache_lookup_run by exact Halive. unfold cache_hit in Hmiss.
  assert (Hbody :
    (if negb (ChatService._is_cdp_related query platform)
     then answer ChatService.non_cdp
     else
       try_except
         (search_results <~ call_search (search query platform 3) ;;
          match search_results with
          | [] => answer (ChatService.not_found
                            (ChatService._extract_action query) platform)
          | _ =>
              _ <~ CacheService.store_response query platform
                     (ChatService._format_response search_results
                        (ChatService._extract_action query) platform) ;;
              answer (ChatService._format_response search_results
                        (ChatService._extract_action query) platform)
          end)
         (fun e => _ <~ print_error e ;; answer ChatService.error)) w
    = if negb (ChatService._is_cdp_related query platform)
      then (Answers ChatService.non_cdp, w)
      else
        match search_outcome (self (search_service w)) query platform 3 with
        | Raises e => (Answers ChatService.error, reported w query platform e)
        | Returns [] =>
            (Answers (ChatService.not_found (ChatService._extract_action query)
                        platform),
             searched w query platform)
        | Returns (r :: rs) =>
            (Answers (ChatService._format_response (r :: rs)
                        (ChatService._extract_action query) platform),
             cached w query platform
               (ChatService._format_response (r :: rs)
                  (ChatService._extract_action query) platform))
        end).
  { destruct (negb (ChatService._is_cdp_related query platform));
      [reflexivity|].
    unfold try_except, chat_bind. rewrite call_search_run.
    destruct (search_outcome (self (search_service w)) query platform 3)
      as [[|r rs]|e]; try reflexivity.
    unfold CacheService.store_response. simpl. now rewrite Halive. }
  destruct (redis_get (cache_redis w)
              (CacheService._generate_cache_key query platform)) as [[|c s]|];
    try discriminate; exact Hbody.
Qed.

Lemma get_response_hit (query platform text : string) (w : world) :
  redis_alive (cache_redis w) = true ->
  cache_hit w query platform = Some text ->
  ChatService.get_response query platform w = (Answers text, w).
Proof.
  intros Halive Hhit. unfold ChatService.get_response, chat_bind.
  rewrite cache_lookup_run by exact Halive. unfold cache_hit in Hhit.
  destruct (redis_get (cache_redis w)
              (CacheService._generate_cache_key query platform)) as [[|c s]|];
    try discriminate.
  now injection Hhit as <-.
Qed.

Lemma get_response_down (query platform : string) (w : world) :
  redis_alive (cache_redis w) = false ->
  ChatService.get_response query platform w = (Throws RedisConnectionError, w).
Proof.
  intro H. unfold ChatService.get_response, chat_bind,
             CacheService.get_response.
  now rewrite H.
Qed.

Lemma get_response_answers (query platform : string) (w : world) :
  redis_alive (cache_redis w) = true ->
  exists text w',
    ChatService.get_response query platform w = (Answers text, w')
    /\ self (search_service w') = self (search_service w).
Proof.
  intro Halive. destruct (cache_hit w query platform) as [text|] eqn:E.
  - exists text, w. split; [now apply get_response_hit|reflexivity].
  - rewrite (get_response_miss query platform w Halive E).
    destruct (negb (ChatService._is_cdp_related query platform)).
    + now exists ChatService.non_cdp, w.
    + destruct (search_outcome (self (search_service w)) query platform 3)
        as [[|r rs]|e]; eexists; eexists; split; reflexivity.
Qed.

(** X13. [get_response] raises exactly when the cache lookup, which is
    made before the [try] block, cannot reach Redis, and then nothing else
    was asked; in every other case, also when the search raises, it
    returns a text. *)
Theorem get_response_outcome (query platform : string) (w : world) :
  (redis_alive (cache_redis w) = false ->
   ChatService.get_response query platform w = (Throws RedisConnectionError, w))
  /\ (redis_alive (cache_redis w) = true ->
      exists text w',
        ChatService.get_response query platform w = (Answers text, w')).
Proof.
  split; intro H.
  - now apply get_response_down.
  - destruct (get_response_answers query platform w H) as [text [w' [Heq _]]].
    now exists text, w'.
Qed.

Lemma get_response_outcome_witness :
  ChatService.get_response "How do I add a source" "Segment"
    (Cases.world_of Scenario.two_platforms Cases.redis_down)
  = (Throws RedisConnectionError,
     Cases.world_of Scenario.two_platforms Cases.redis_down)
  /\ exists text w',
       ChatService.get_response "How do I add a source" "Segment"
         (Cases.world_of Scenario.two_platforms Cases.redis0)
       = (Answers text, w').
Proof.
  split.
  - apply (proj1 (get_response_outcome "How do I add a source" "Segment"
                    (Cases.world_of Scenario.two_platforms Cases.redis_down))).
    reflexivity.
  - apply (proj2 (get_response_outcome "How do I add a source" "Segment"
                    (Cases.world_of Scenario.two_platforms Cases.redis0))).
    reflexivity.
Defined.

(** X14. A response found in the cache is returned as it is: no request
    goes to the search service, nothing is written, and whether the query
    is about a CDP is not looked at. *)
Theorem get_response_cache_hit (query platform text : string) (w : world) :
  redis_alive (cache_redis w) = true ->
  cache_hit w query platform = Some text ->
  ChatService.get_response query platform w = (Answers text, w).
Proof. apply get_response_hit. Qed.

Lemma get_response_cache_hit_witness :
  ChatService._is_cdp_related "Hello there" "segment" = false
  /\ ChatService.get_response "Hello there" "segment" Talks.greeted
     = (Answers "Hi!", Talks.greeted).
Proof.
  split; [reflexivity|].
  apply (get_response_cache_hit "Hello there" "segment" "Hi!" Talks.greeted);
    reflexivity.
Defined.

(** X15. A query without any of the CDP keywords, the platform argument
    not counting, gets the fixed refusal when the cache has nothing for it:
    no request goes to the search service and nothing is cached. *)
Theorem get_response_not_cdp (query platform : string) (w : world) :
  redis_alive (cache_redis w) = true ->
  cache_hit w query platform = None ->
  ChatService._is_cdp_related query platform = false ->
  ChatService.get_response query platform w = (Answers ChatService.non_cdp, w).
Proof.
  intros Halive Hmiss Hno. rewrite get_response_miss by assumption.
  now rewrite Hno.
Qed.

Lemma get_response_not_cdp_witness :
  ChatService.get_response "How do I add users" "Segment"
    (Cases.world_of Scenario.one_document Cases.redis0)
  = (Answers ChatService.non_cdp,
     Cases.world_of Scenario.one_document Cases.redis0).
Proof.
  apply (get_response_not_cdp "How do I add users" "Segment"
           (Cases.world_of Scenario.one_document Cases.redis0)); reflexivity.
Defined.

(** X16. When the search raises, the caller gets the fixed apology: the
    exception is reported on the standard output and goes no further, and
    nothing is cached. *)
Theorem get_response_search_failure (query platform : string) (w : world)
    (e : exn) :
  redis_alive (cache_redis w) = true ->
  cache_hit w query platform = None ->
  ChatService._is_cdp_related query platform = true ->
  search_outcome (self (search_service w)) query platform 3 = Raises e ->
  ChatService.get_response query platform w
  = (Answers ChatService.error, reported w query platform e)
  /\ cache_redis (reported w query platform e) = cache_redis w
  /\ printed (reported w query platform e) = (printed w ++ [SearchFailure e])%list.
Proof.
  intros Halive Hmiss Hcdp Hfail. rewrite get_response_miss by assumption.
  rewrite Hcdp, Hfail. repeat split.
Qed.

Lemma get_response_search_failure_witness :
  ChatService.get_response "How do I add a source" "Segment"
    (Cases.world_of Scenario.two_platforms Cases.redis0)
  = (Answers ChatService.error,
     reported (Cases.world_of Scenario.two_platforms Cases.redis0)
       "How do I add a source" "Segment" NotFoundError)
  /\ cache_redis (reported (Cases.world_of Scenario.two_platforms Cases.redis0)
                    "How do I add a source" "Segment" NotFoundError)
     = cache_redis (Cases.world_of Scenario.two_platforms Cases.redis0)
  /\ printed (reported (Cases.world_of Scenario.two_platforms Cases.redis0)
                "How do I add a source" "Segment" NotFoundError)
     = (printed (Cases.world_of Scenario.two_platforms Cases.redis0)
        ++ [SearchFailure NotFoundError])%list.
Proof.
  apply (get_response_search_failure "How do I add a source" "Segment"
           (Cases.world_of Scenario.two_platforms Cases.redis0) NotFoundError);
    reflexivity.
Defined.

(** ** Answers that are cached, and answers that are not *)

Lemma format_response_nonempty (r : SearchResult) (rs : list SearchResult)
    (action platform : string) :
  exists c s, ChatService._format_response (r :: rs) action platform = String c s.
Proof.
  unfold ChatService._format_response, ChatService.how_to.
  match goal with
  | |- context [if ?b then _ else _] => destruct b
  end; simpl; eexists; eexists; reflexivity.
Qed.

Lemma cache_hit_after_store (query platform response query' platform' : string)
    (w : world) (seconds : nat) (c : ascii) (s : string) :
  response = String c s ->
  CacheService._generate_cache_key query' platform'
  = CacheService._generate_cache_key query platform ->
  (seconds < CacheService.cache_ttl)%nat ->
  cache_hit (later seconds (cached w query platform response)) query' platform'
  = Some response.
Proof.
  intros -> Hkey Hlt.
  unfold cache_hit, later, cached, redis_get, elapse, redis_setex.
  rewrite Hkey.
  generalize (CacheService._generate_cache_key query platform). intro k.
  cbn [cache_redis redis_data redis_now redis_lookup fst snd].
  rewrite String.eqb_refl.
  assert (H : (redis_now (cache_redis w) + seconds
               <? redis_now (cache_redis w) + CacheService.cache_ttl)%nat = true)
    by (apply Nat.ltb_lt; lia).
  now rewrite H.
Qed.

(** X17. An answer built from search results is cached: for 3600 seconds
    every query and platform with the same cache key gets this very answer
    back, and no request goes to the search service for it. *)
Theorem get_response_replay (query platform : string) (w : world)
    (r : SearchResult) (rs : list SearchResult) :
  redis_alive (cache_redis w) = true ->
  cache_hit w query platform = None ->
  ChatService._is_cdp_related query platform = true ->
  search_outcome (self (search_service w)) query platform 3 = Returns (r :: rs) ->
  exists text w',
    ChatService.get_response query platform w = (Answers text, w')
    /\ text = ChatService._format_response (r :: rs)
                (ChatService._extract_action query) platform
    /\ (forall query' platform' seconds,
          CacheService._generate_cache_key query' platform'
          = CacheService._generate_cache_key query platform ->
          (seconds < CacheService.cache_ttl)%nat ->
          ChatService.get_response query' platform' (later seconds w')
          = (Answers text, later seconds w')).
Proof.
  intros Halive Hmiss Hcdp Hfound.
  rewrite get_response_miss by assumption. rewrite Hcdp, Hfound. simpl.
  eexists. eexists. split; [reflexivity|]. split; [reflexivity|].
  intros query' platform' seconds Hkey Hlt.
  destruct (format_response_nonempty r rs (ChatService._extract_action query)
              platform) as [c [s Hne]].
  apply get_response_hit; [exact Halive|].
  now apply (cache_hit_after_store query platform _ query' platform' w seconds c s).
Qed.

Lemma get_response_replay_witness :
  exists text w',
    ChatService.get_response "How do I add a source" "Segment"
      (Cases.world_of Cases.two_documents Cases.redis0)
    = (Answers text, w')
    /\ text = ChatService._format_response
                [ {| content := "Add a source"; platform := "Segment";
                     score := 3273603 # 268435456;
                     doc_type := "general"; section := None |};
                  {| content := "Go to Settings > Sources > Add Source";
                     platform := "Segment"; score := 16711935 # 4294967296;
                     doc_type := "general"; section := None |} ]
                (ChatService._extract_action "How do I add a source") "Segment"
    /\ (forall query' platform' seconds,
          CacheService._generate_cache_key query' platform'
          = CacheService._generate_cache_key "How do I add a source" "Segment" ->
          (seconds < CacheService.cache_ttl)%nat ->
          ChatService.get_response query' platform' (later seconds w')
          = (Answers text, later seconds w')).
Proof.
  apply (get_response_replay "How do I add a source" "Segment"
           (Cases.world_of Cases.two_documents Cases.redis0));
    vm_compute; reflexivity.
Defined.

(** X18. When the search finds nothing, the caller is told so with the
    action and the platform, and this answer is not cached: the same
    question asked again is searched again. *)
Theorem get_response_no_results (query platform : string) (w : world) :
  redis_alive (cache_redis w) = true ->
  cache_hit w query platform = None ->
  ChatService._is_cdp_related query platform = true ->
  search_outcome (self (search_service w)) query platform 3 = Returns [] ->
  ChatService.get_response query platform w
  = (Answers (ChatService.not_found (ChatService._extract_action query) platform),
     searched w query platform)
  /\ ChatService.get_response query platform (searched w query platform)
     = (Answers (ChatService.not_found (ChatService._extract_action query)
                   platform),
        searched (searched w query platform) query platform).
Proof.
  intros Halive Hmiss Hcdp Hnone. split.
  - rewrite get_response_miss by assumption. now rewrite Hcdp, Hnone.
  - rewrite (get_response_miss query platform (searched w query platform)
               Halive Hmiss).
    rewrite Hcdp. simpl. now rewrite Hnone.
Qed.

Lemma get_response_no_results_witness :
  ChatService.get_response "How do I add a source" "Segment"
    (Cases.world_of Scenario.empty_partition Cases.redis0)
  = (Answers (ChatService.not_found
                (ChatService._extract_action "How do I add a source") "Segment"),
     searched (Cases.world_of Scenario.empty_partition Cases.redis0)
       "How do I add a source" "Segment")
  /\ ChatService.get_response "How do I add a source" "Segment"
       (searched (Cases.world_of Scenario.empty_partition Cases.redis0)
          "How do I add a source" "Segment")
     = (Answers (ChatService.not_found
                   (ChatService._extract_action "How do I add a source")
                   "Segment"),
        searched (searched (Cases.world_of Scenario.empty_partition Cases.redis0)
                    "How do I add a source" "Segment")
          "How do I add a source" "Segment").
Proof.
  apply (get_response_no_results "How do I add a source" "Segment"
           (Cases.world_of Scenario.empty_partition Cases.redis0)); reflexivity.
Defined.

(** X19. Answering a question never changes the search service: the
    index, the stored documents and the encoder are as before, whatever
    the outcome. *)
Theorem get_response_reads_service (query platform : string) (w : world) :
  self (search_service (snd (ChatService.get_response query platform w)))
  = self (search_service w).
Proof.
  destruct (redis_alive (cache_redis w)) eqn:Halive.
  - destruct (get_response_answers query platform w Halive)
      as [text [w' [Heq Hself]]].
    now rewrite Heq.
  - now rewrite get_response_down.
Qed.

(** ** The text of an answer *)

Lemma prefix_app (a b : string) : prefix a (a ++ b) = true.
Proof.
  induction a as [|c a IH]; simpl; [now destruct b|].
  destruct (ascii_dec c c) as [_|Hne]; [exact IH|contradiction].
Qed.

Lemma prefix_refl (a : string) : prefix a a = true.
Proof.
  induction a as [|c a IH]; simpl; [reflexivity|].
  destruct (ascii_dec c c) as [_|Hne]; [exact IH|contradiction].
Qed.

(** X20. The answer built from search results starts with the header for
    the action and the platform and the whole content of the best result;
    of the other results it uses the first three relevant points and
    nothing else, and without such points it is the header and the content
    alone. *)
Theorem format_response_shape (first : SearchResult) (rest : list SearchResult)
    (action platform : string) :
  prefix (ChatService.how_to action platform (content first))
         (ChatService._format_response (first :: rest) action platform) = true
  /\ (ChatService.relevant_points rest = [] ->
      ChatService._format_response (first :: rest) action platform
      = ChatService.how_to action platform (content first))
  /\ (forall (first' : SearchResult) (rest' : list SearchResult),
        content first' = content first ->
        firstn 3 (ChatService.relevant_points rest')
        = firstn 3 (ChatService.relevant_points rest) ->
        ChatService._format_response (first' :: rest') action platform
        = ChatService._format_response (first :: rest) action platform).
Proof.
  assert (Hsupp : forall rs : list SearchResult,
    match rs with
    | [] => ""
    | _ =>
        if ChatService.nonempty (ChatService._extract_relevant_points rs)
        then nl ++ nl ++ "Additional tips:" ++ nl
             ++ ChatService._extract_relevant_points rs
        else ""
    end
    = if ChatService.nonempty
           (String.concat nl (firstn 3 (ChatService.relevant_points rs)))
      then nl ++ nl ++ "Additional tips:" ++ nl
           ++ String.concat nl (firstn 3 (ChatService.relevant_points rs))
      else "").
  { intros [|r rs]; reflexivity. }
  unfold ChatService._format_response. split; [|split].
  - rewrite Hsupp.
    destruct (ChatService.nonempty
                (String.concat nl (firstn 3 (ChatService.relevant_points rest)))).
    + simpl. apply prefix_app.
    + simpl. apply prefix_refl.
  - intro Hnone. rewrite Hsupp, Hnone. reflexivity.
  - intros first' rest' Hc Hpts. rewrite !Hsupp, Hc, Hpts. reflexivity.
Qed.

(** * Indexing, then searching *)

(** What [index_document] never touches, whatever its outcome. *)
Lemma index_document_frame (doc : DocumentChunk) (st : state) :
  es_alive (es (self (snd (index_document doc st)))) = es_alive (es (self st))
  /\ es_match (es (self (snd (index_document doc st)))) = es_match (es (self st))
  /\ es_score (es (self (snd (index_document doc st)))) = es_score (es (self st))
  /\ encoder (self (snd (index_document doc st))) = encoder (self st)
  /\ d (index (self (snd (index_document doc st)))) = d (index (self st)).
Proof.
  unfold index_document, bind. rewrite encode_run.
  destruct (encoder (self st) (chunk_content doc)) as [v|e];
    [|repeat split; reflexivity].
  unfold faiss_add, faiss_ntotal, es_index, bind, emit, get_self, set_self,
    ret, raise. simpl.
  destruct (Nat.eqb (length v) (d (index (self st))));
    [|repeat split; reflexivity].
  simpl. destruct (es_alive (es (self st))) eqn:E; simpl;
    [|repeat split; try reflexivity; exact E].
  destruct (valid_index_name (docs_index (chunk_platform doc))); simpl;
    repeat split; try reflexivity; exact E.
Qed.

Lemma es_store_length (docs : list ((string * string) * Source))
    (k : string * string) (s : Source) :
  (length (es_store docs k s) <= S (length docs))%nat.
Proof.
  induction docs as [|[k0 s0] docs IH]; simpl; [lia|].
  destruct (same_key k0 k); simpl; lia.
Qed.

(** A run of successful [index_document] calls keeps the cluster's
    analyzer and scores, and stores at most one document per call. *)
Lemma index_documents_store (docs : list DocumentChunk) (st st' : state) :
  index_documents docs st = (Returns tt, st') ->
  es_match (es (self st')) = es_match (es (self st))
  /\ es_score (es (self st')) = es_score (es (self st))
  /\ es_alive (es (self st')) = es_alive (es (self st))
  /\ encoder (self st') = encoder (self st)
  /\ d (index (self st')) = d (index (self st))
  /\ (length (es_docs (es (self st')))
      <= length (es_docs (es (self st))) + length docs)%nat.
Proof.
  revert st. induction docs as [|doc docs IH]; intro st; simpl.
  - unfold ret. intros [= <-]. repeat split; try reflexivity. lia.
  - unfold bind. destruct (index_document doc st) as [[[]|e] st1] eqn:E;
      [|discriminate].
    intro H. apply IH in H.
    destruct H as [H1 [H2 [H3 [H4 [H5 H6]]]]].
    pose proof (index_document_frame doc st) as Hf. rewrite E in Hf.
    simpl in Hf. destruct Hf as [F1 [F2 [F3 [F4 F5]]]].
    assert (Hlen : (length (es_docs (es (self st1)))
                    <= S (length (es_docs (es (self st)))))%nat).
    { clear - E. unfold index_document, bind in E. rewrite encode_run in E.
      destruct (encoder (self st) (chunk_content doc)) as [v|e0];
        [|discriminate].
      unfold faiss_add, faiss_ntotal, es_index, bind, emit, get_self, set_self,
        ret, raise in E. simpl in E.
      destruct (Nat.eqb (length v) (d (index (self st)))); [|discriminate].
      simpl in E. destruct (es_alive (es (self st))); [|discriminate].
      destruct (valid_index_name (docs_index (chunk_platform doc)));
        [|discriminate].
      injection E as <-. simpl. apply es_store_length. }
    repeat split; try congruence. lia.
Qed.

Lemma firstn_whole {A : Type} (n : nat) (l : list A) :
  (length l <= n)%nat -> firstn n l = l.
Proof.
  revert n. induction l as [|a l IH]; intros [|n] H; simpl in *;
    try reflexivity; try lia.
  f_equal. apply IH. lia.
Qed.

Lemma index_exists_In (e : Elasticsearch) (index_name id : string) (src : Source) :
  In ((index_name, id), src) (es_docs e) -> index_exists e index_name = true.
Proof.
  intro H. unfold index_exists. apply orb_true_iff. right.
  apply existsb_exists. exists ((index_name, id), src).
  split; [exact H|]. simpl. apply String.eqb_refl.
Qed.

(** A searchable document that satisfies the query is among the hits when
    there is room for every document. *)
Lemma es_hits_found (e : Elasticsearch) (index_name id : string) (src : Source)
    (q : BoolQuery) (size : nat) :
  In ((index_name, id), src) (es_docs e) ->
  searchable e (index_name, id) = true ->
  es_match e (must_match_content q) (src_content src) = true ->
  src_platform src = must_term_platform q ->
  (length (es_docs e) <= size)%nat ->
  In (src, es_score e q src) (es_hits e index_name q size).
Proof.
  intros Hin Hs Hm Hp Hroom. unfold es_hits. rewrite firstn_whole.
  - apply (Permutation_in _ (Permutation_sym (sorted_reverse_perm snd _))).
    apply in_map_iff. exists ((index_name, id), src).
    split; [reflexivity|]. apply filter_In. split; [exact Hin|].
    simpl. rewrite String.eqb_refl, Hs, Hm, Hp, String.eqb_refl. reflexivity.
  - rewrite (Permutation_length (sorted_reverse_perm snd _)), length_map.
    pose proof (filter_length_le
      (fun kd : string * string * Source =>
         String.eqb (fst (fst kd)) index_name
         && searchable e (fst kd)
         && es_match e (must_match_content q) (src_content (snd kd))
         && String.eqb (src_platform (snd kd)) (must_term_platform q))
      (es_docs e)).
    lia.
Qed.

(** X21. A document stored by [index_document] is found by the keyword
    search of its platform once the cluster has refreshed: on a service
    whose cluster holds no document, after the calls for [docs] have
    returned and a refresh, a keyword search for the platform of one of
    them, with a query that the analyzer matches to its content and room
    for every document, returns a result with that content. *)
Theorem indexed_document_is_found (es0 : Elasticsearch) (dim : nat)
    (enc : string -> outcome vector) (docs : list DocumentChunk)
    (doc : DocumentChunk) (i : nat) (query : string) (top_k : nat) :
  es_alive es0 = true ->
  es_docs es0 = [] ->
  Forall (fun doc => exists v, enc (chunk_content doc) = Returns v
                               /\ length v = dim) docs ->
  Forall (fun doc => valid_index_name (docs_index (chunk_platform doc)) = true)
         docs ->
  nth_error docs i = Some doc ->
  es_match es0 query (chunk_content doc) = true ->
  (length docs <= top_k)%nat ->
  (Z.of_nat top_k <= max_result_window)%Z ->
  exists st' results st'',
    index_documents docs (start (new_service es0 dim enc)) = (Returns tt, st')
    /\ _keyword_search query (chunk_platform doc) top_k (after_refresh st')
       = (Returns results, st'')
    /\ In (chunk_content doc) (map content results).
Proof.
  intros Halive Hempty Henc Hnames Hnth Hmatch Hroom Hwindow.
  destruct (index_documents_run docs (start (new_service es0 dim enc))
              Halive Henc Hnames)
    as [st' [vs [Hrun [_ [_ [_ [Hput _]]]]]]].
  pose proof (index_documents_store _ _ _ Hrun) as [Hm [_ [Ha [_ [_ Hlen]]]]].
  simpl in Hm, Ha, Hlen, Hput. rewrite Hempty in Hlen. simpl in Hlen.
  specialize (Hput i doc Hnth). apply es_lookup_In in Hput.
  exists st'. rewrite _keyword_search_run. unfold es_answer.
  cbn [after_refresh self refreshed es refresh es_alive].
  rewrite Ha, Halive.
  rewrite (index_exists_In (refresh (es (self st'))) _ _ _ Hput).
  apply Z.leb_le in Hwindow. rewrite Hwindow.
  eexists. eexists. split; [exact Hrun|]. split; [reflexivity|].
  rewrite map_map. apply in_map_iff.
  exists (document_of doc,
          es_score (refresh (es (self st')))
            (search_query query (chunk_platform doc)) (document_of doc)).
  split; [reflexivity|].
  apply (es_hits_found (refresh (es (self st'))) _ (str (Z.of_nat i))).
  - exact Hput.
  - reflexivity.
  - simpl. rewrite Hm. exact Hmatch.
  - reflexivity.
  - simpl. lia.
Qed.

Lemma indexed_document_is_found_witness :
  exists st' results st'',
    index_documents [Scenario.segment_doc; Scenario.mparticle_doc]
      (start (new_service (Scenario.cluster true) 1 Scenario.length_encoder))
    = (Returns tt, st')
    /\ _keyword_search "inputs" (chunk_platform Scenario.mparticle_doc) 2
         (after_refresh st')
       = (Returns results, st'')
    /\ In (chunk_content Scenario.mparticle_doc) (map content results).
Proof.
  apply (indexed_document_is_found (Scenario.cluster true) 1
           Scenario.length_encoder
           [Scenario.segment_doc; Scenario.mparticle_doc]
           Scenario.mparticle_doc 1 "inputs" 2); try reflexivity.
  - repeat constructor; eexists; split; reflexivity.
  - repeat constructor.
  - vm_compute. discriminate.
Defined.

Lemma fetch_results_ok (s : SearchService) (p : string) (hits : list (Z * Q))
    (results : list SearchResult) :
  es_alive (es s) = true ->
  Forall (fun hit =>
            valid hit = true ->
            exists src,
              es_lookup (es_docs (es s)) (docs_index p, str (fst hit)) = Some src)
         hits ->
  exists out, fetch_results s p hits results = Returns out.
Proof.
  intros Halive Hall. revert results.
  induction Hall as [|hit hits Hhit Hall IH]; intro results; simpl.
  - now exists results.
  - destruct (valid hit) eqn:E; [|apply IH].
    destruct (Hhit eq_refl) as [src Hsrc].
    unfold got. rewrite Halive, Hsrc. apply IH.
Qed.

(** X22. When every indexed document belongs to one platform, no position
    of the index is without its document in that partition: after the
    calls for one document or more have returned on a fresh service, a
    search for that platform, for between 1 and 10000 results and with a
    query that the encoder embeds, returns a list. *)
Theorem single_platform_search (es0 : Elasticsearch) (dim : nat)
    (enc : string -> outcome vector) (docs : list DocumentChunk)
    (platform query : string) (top_k : nat) (v : vector) :
  es_alive es0 = true ->
  Forall (fun doc => exists v, enc (chunk_content doc) = Returns v
                               /\ length v = dim) docs ->
  Forall (fun doc => lower (chunk_platform doc) = lower platform) docs ->
  docs <> [] ->
  valid_index_name (docs_index platform) = true ->
  enc query = Returns v ->
  length v = dim ->
  (0 < top_k)%nat ->
  (Z.of_nat top_k <= max_result_window)%Z ->
  exists st' results st'',
    index_documents docs (start (new_service es0 dim enc)) = (Returns tt, st')
    /\ search query platform top_k st' = (Returns results, st'').
Proof.
  intros Halive Henc Hplat Hsome Hname Hq Hdim Hk Hwindow.
  assert (Hix : forall doc, In doc docs ->
                            docs_index (chunk_platform doc) = docs_index platform).
  { intros doc Hin. unfold docs_index. rewrite Forall_forall in Hplat.
    now rewrite (Hplat doc Hin). }
  assert (Hnames : Forall (fun doc => valid_index_name
                                        (docs_index (chunk_platform doc)) = true)
                     docs).
  { apply Forall_forall. intros doc Hin. now rewrite (Hix doc Hin). }
  destruct (index_documents_run docs (start (new_service es0 dim enc))
              Halive Henc Hnames)
    as [st' [vs [Hrun [_ [Hxb [Hvs [Hput _]]]]]]].
  pose proof (index_documents_store _ _ _ Hrun) as [_ [_ [Ha [He [Hd _]]]]].
  simpl in Ha, He, Hd, Hput, Hxb.
  exists st'. unfold search, bind. rewrite encode_run, He, Hq.
  rewrite _semantic_search_run. simpl.
  rewrite faiss_answer_ok by (try lia; now rewrite Hd).
  destruct (fetch_results_ok (self st') platform
              (knn (index (self st')) v top_k) []) as [sem Hsem].
  - now rewrite Ha.
  - apply Forall_forall. intros [idx distance] Hin Hvalid.
    apply knn_In in Hin. destruct Hin as [[-> _]|[i [y [-> [Hnth _]]]]];
      [discriminate Hvalid|].
    rewrite Hxb in Hnth.
    assert (Hlt : (i < length docs)%nat).
    { rewrite (Forall2_length Hvs). apply nth_error_Some. congruence. }
    destruct (nth_error docs i) as [doc|] eqn:Hdoc;
      [|apply nth_error_None in Hdoc; lia].
    exists (document_of doc). simpl.
    rewrite <- (Hix doc) by (eapply nth_error_In; eassumption).
    now apply Hput.
  - rewrite Hsem. rewrite _keyword_search_run. unfold es_answer. simpl.
    rewrite Ha, Halive.
    destruct docs as [|doc0 docs0]; [contradiction|].
    pose proof (Hput 0%nat doc0 eq_refl) as H0. apply es_lookup_In in H0.
    rewrite (Hix doc0 (or_introl eq_refl)) in H0.
    rewrite (index_exists_In _ _ _ _ H0).
    apply Z.leb_le in Hwindow. rewrite Hwindow.
    eexists. eexists. split; [exact Hrun|reflexivity].
Qed.

Lemma single_platform_search_witness :
  exists st' results st'',
    index_documents [Scenario.segment_doc; Cases.short_doc]
      (start (new_service (Scenario.cluster true) 1 Scenario.length_encoder))
    = (Returns tt, st')
    /\ search "add a source" "SEGMENT" 3 st' = (Returns results, st'').
Proof.
  apply (single_platform_search (Scenario.cluster true) 1 Scenario.length_encoder
           [Scenario.segment_doc; Cases.short_doc] "SEGMENT" "add a source" 3 [12]);
    try reflexivity.
  - repeat constructor; eexists; split; reflexivity.
  - repeat constructor.
  - discriminate.
  - lia.
  - vm_compute. discriminate.
Defined.
